(** * The piece-to-slot storage engine of libtorrent (src/storage.cpp)

    A shallow embedding of [storage] (the slot store over the ordered file
    list) and of [piece_manager::impl] (the piece/slot tables, the resume
    check, slot assignment and slot allocation), followed by the properties
    of the specification that were checked against it.

    Conventions of the embedding.
    - Integers are in [Z].  Every narrowing to [int] that the source
      performs is written out with [int32].  [size_type] is a signed
      64-bit integer: an argument of [storage::read] or [storage::write]
      that does not fit it is no argument ([in_size_type]), and the
      arithmetic on the number of bytes left ([left_to_read],
      [left_to_write]: the test against the slot size and the countdown)
      wraps around ([int64]).  Positions in the files ([start],
      [file_offset]) and the [std::size_t] counters of [check_pieces] are
      exact: the files of a torrent stay far below [2^63] bytes.
    - A [char] is its value in [0, 256); buffers and file contents are
      [list Z].
    - The disk is a finite map from path names to file contents.  Opening a
      file for writing always succeeds (directories exist, the medium has
      room).
    - [std::vector<int>] is [list Z]; [operator[]] outside the vector is
      undefined behaviour and is reported as [Undefined].
    - [assert] depends on the build: with [assertions = true] a failed
      assertion stops the program ([AssertFail]); with [assertions = false]
      (NDEBUG) the asserted expression is not evaluated at all.
    - The locks ([slot_lock], the recursive mutex, the allocation monitor)
      are not modelled: operations are run one at a time.  Of the
      progress channel of [check_pieces] only the [abort] flag is kept;
      [data.progress] is a float that nothing reads back. *)

From stdpp Require Import gmap strings list fin_maps sorting.
From Stdlib Require Import ZArith Lia.

Open Scope Z_scope.

(** ** Results of running a piece of the program *)

Inductive result (A : Type) : Type :=
| Ok (a : A)
| AssertFail
| Undefined
| OutOfFuel.

Arguments Ok {A} a.
Arguments AssertFail {A}.
Arguments Undefined {A}.
Arguments OutOfFuel {A}.

#[global] Instance result_ret : MRet result := λ A a, Ok a.

#[global] Instance result_bind : MBind result := λ A B f m,
  match m with
  | Ok a => f a
  | AssertFail => AssertFail
  | Undefined => Undefined
  | OutOfFuel => OutOfFuel
  end.

(** [assert(c)]: [c] is a suspended computation, because NDEBUG removes the
    expression together with the test. *)
Definition assert_m (assertions : bool) (c : result bool) : result unit :=
  if assertions then
    b ← c; if b : bool then Ok () else AssertFail
  else Ok ().

Definition assert_b (assertions : bool) (c : bool) : result unit :=
  assert_m assertions (Ok c).

(** Conversion of a wider integer to [int]. *)
Definition int32 (z : Z) : Z := (z + 2 ^ 31) mod 2 ^ 32 - 2 ^ 31.

(** The result of an operation on [size_type], a signed 64-bit integer. *)
Definition int64 (z : Z) : Z := (z + 2 ^ 63) mod 2 ^ 64 - 2 ^ 63.

(** The values that a [size_type] can hold. *)
Definition in_size_type (z : Z) : bool := (- 2 ^ 63 <=? z) && (z <? 2 ^ 63).

(** ** Vectors indexed by [int] *)

Definition vget {A} (v : list A) (i : Z) : result A :=
  if i <? 0 then Undefined
  else match v !! Z.to_nat i with
       | Some x => Ok x
       | None => Undefined
       end.

Definition vset {A} (v : list A) (i : Z) (x : A) : result (list A) :=
  if i <? 0 then Undefined
  else if (Z.to_nat i <? length v)%nat then Ok (<[Z.to_nat i := x]> v)
  else Undefined.

(** [v.resize(n, x)] *)
Definition resize {A} (n : Z) (x : A) (v : list A) : list A :=
  take (Z.to_nat n) v ++ replicate (Z.to_nat n - length v)%nat x.

(** [std::find(v.begin(), v.end(), x) != v.end()] *)
Definition mem (x : Z) (v : list Z) : bool := existsb (Z.eqb x) v.

(** [v.erase(std::find(v.begin(), v.end(), x))] for an [x] that occurs. *)
Fixpoint erase_first (x : Z) (v : list Z) : list Z :=
  match v with
  | [] => []
  | y :: v' => if x =? y then v' else y :: erase_first x v'
  end.

Fixpoint forM_ {A} (l : list A) (f : A → result unit) : result unit :=
  match l with
  | [] => Ok ()
  | x :: l' => _ ← f x; forM_ l' f
  end.

(** ** SHA-1 *)

(** Modelled from the spec: the SHA-1 primitive behind [hasher]
    (hasher.hpp only declares SHA1Init, SHA1Update and SHA1Final); the
    specification names it as standard FIPS 180-1. *)
Module SHA1.

Definition w32 (x : Z) : Z := x mod 2 ^ 32.

Definition rotl (n x : Z) : Z :=
  w32 (Z.lor (Z.shiftl x n) (Z.shiftr x (32 - n))).

Definition f (t : nat) (b c d : Z) : Z :=
  if (t <? 20)%nat then
    Z.lor (Z.land b c) (Z.land (Z.lxor b (2 ^ 32 - 1)) d)
  else if (t <? 40)%nat then Z.lxor (Z.lxor b c) d
  else if (t <? 60)%nat then
    Z.lor (Z.lor (Z.land b c) (Z.land b d)) (Z.land c d)
  else Z.lxor (Z.lxor b c) d.

Definition K (t : nat) : Z :=
  if (t <? 20)%nat then 0x5A827999
  else if (t <? 40)%nat then 0x6ED9EBA1
  else if (t <? 60)%nat then 0x8F1BBCDC
  else 0xCA62C1D6.

Definition be32 (bs : list Z) : Z :=
  foldl (λ acc b, acc * 256 + b mod 256) 0 (take 4 bs).

Definition bytes_of (n : nat) (x : Z) : list Z :=
  (λ i : nat, Z.shiftr x (8 * Z.of_nat (n - 1 - i)) mod 256) <$> seq 0 n.

Definition pad (msg : list Z) : list Z :=
  let l := Z.of_nat (length msg) in
  msg ++ [128] ++ replicate (Z.to_nat ((55 - l) mod 64)) 0
      ++ bytes_of 8 (8 * l).

Fixpoint words (n : nat) (bs : list Z) : list Z :=
  match n with
  | O => []
  | S n' => be32 bs :: words n' (drop 4 bs)
  end.

(** The message schedule, most recent word first. *)
Fixpoint expand (n : nat) (w : list Z) : list Z :=
  match n with
  | O => w
  | S n' =>
      let x i := default 0 (w !! i) in
      expand n' (rotl 1 (Z.lxor (Z.lxor (x 2%nat) (x 7%nat))
                                (Z.lxor (x 13%nat) (x 15%nat))) :: w)
  end.

Definition round (h : Z * Z * Z * Z * Z) (tw : nat * Z) :=
  let '(a, b, c, d, e) := h in
  let '(t, w) := tw in
  (w32 (rotl 5 a + f t b c d + e + K t + w), a, rotl 30 b, c, d).

Definition block (h : Z * Z * Z * Z * Z) (bs : list Z) :=
  let sched := rev (expand 64 (rev (words 16 bs))) in
  let '(a, b, c, d, e) := foldl round h (zip (seq 0 80) sched) in
  let '(h0, h1, h2, h3, h4) := h in
  (w32 (h0 + a), w32 (h1 + b), w32 (h2 + c), w32 (h3 + d), w32 (h4 + e)).

Fixpoint blocks (n : nat) (h : Z * Z * Z * Z * Z) (bs : list Z) :=
  match n with
  | O => h
  | S n' => blocks n' (block h (take 64 bs)) (drop 64 bs)
  end.

Definition init : Z * Z * Z * Z * Z :=
  (0x67452301, 0xEFCDAB89, 0x98BADCFE, 0x10325476, 0xC3D2E1F0).

Definition sha1 (msg : list Z) : list Z :=
  let p := pad msg in
  let '(a, b, c, d, e) := blocks (length p / 64)%nat init p in
  bytes_of 4 a ++ bytes_of 4 b ++ bytes_of 4 c ++ bytes_of 4 d
    ++ bytes_of 4 e.

End SHA1.

(** [hasher h; h.update(data, size); h.final()] *)
Definition hash_of (data : list Z) : list Z := SHA1.sha1 data.

Definition digest_eq (a b : list Z) : bool := bool_decide (a = b).

(** ** torrent_info *)

(** [struct file] of torrent_info.hpp, as storage.cpp uses it. *)
Record file := { f_path : string; f_filename : string; f_size : Z }.

Record torrent_info := {
  piece_length : Z;
  num_pieces : Z;
  files : list file;
  piece_hash : list (list Z)
}.

Definition sum_sizes (fl : list file) : Z :=
  foldr (λ f acc, f_size f + acc) 0 fl.

(** Modelled from the spec: [torrent_info::total_size], not under src/
    ("sum of file sizes"). *)
Definition total_size (info : torrent_info) : Z := sum_sizes (files info).

(** Modelled from the spec: [torrent_info::piece_size], not under src/
    ("[piece_length] for [i < N-1], else [last_piece_size]", where
    [total_size = (N-1) * piece_length + last_piece_size]). *)
Definition last_piece_size (info : torrent_info) : Z :=
  total_size info - (num_pieces info - 1) * piece_length info.

Definition piece_size (info : torrent_info) (i : Z) : Z :=
  if i <? num_pieces info - 1 then piece_length info
  else last_piece_size info.

(** Modelled from the spec: [torrent_info::hash_for_piece], not under
    src/; an index outside the table has no hash to offer. *)
Definition hash_for_piece (info : torrent_info) (i : Z) : list Z :=
  if i <? 0 then [] else default [] (piece_hash info !! Z.to_nat i).

(** What the specification's data model asks of a [torrent_info]. *)
Record info_wf (info : torrent_info) : Prop := {
  wf_piece_length : 0 < piece_length info < 2 ^ 31;
  wf_num_pieces : 0 < num_pieces info < 2 ^ 31;
  wf_last : 0 < last_piece_size info <= piece_length info;
  wf_files : Forall (λ f, 0 < f_size f) (files info);
  wf_hashes : Z.of_nat (length (piece_hash info)) = num_pieces info
}.

(** ** The disk and the file streams *)

Abbreviation disk := (gmap string (list Z)).

(** [a / b] of boost::filesystem. *)
Definition path_join (a b : string) : string :=
  if decide (b = "") then a
  else if decide (a = "") then b
  else a +:+ "/" +:+ b.

Definition file_path (save_path : string) (f : file) : string :=
  path_join (path_join save_path (f_path f)) (f_filename f).

(** [fs::ifstream]: whether the stream is good, the content of the file
    it was opened on, and the get position. *)
Record ifstream := { in_good : bool; in_data : list Z; in_pos : Z }.

Definition closed_in : ifstream :=
  {| in_good := false; in_data := []; in_pos := 0 |}.

(** [in.close(); in.clear(); in.open(path, std::ios_base::binary)] *)
Definition ifs_open (d : disk) (p : string) : ifstream :=
  match d !! p with
  | Some c => {| in_good := true; in_data := c; in_pos := 0 |}
  | None => closed_in
  end.

(** [in.seekg(off)]; a position past the end is accepted. *)
Definition ifs_seekg (s : ifstream) (off : Z) : ifstream :=
  if in_good s && (0 <=? off)
  then {| in_good := true; in_data := in_data s; in_pos := off |}
  else {| in_good := false; in_data := in_data s; in_pos := in_pos s |}.

Definition ifs_tellg (s : ifstream) : Z :=
  if in_good s then in_pos s else -1.

(** [in.seekg(0, std::ios_base::end); in.tellg()] *)
Definition ifs_size (s : ifstream) : Z :=
  if in_good s then Z.of_nat (length (in_data s)) else -1.

(** [in.read(p, n)]: the bytes delivered ([in.gcount()] is their number)
    and the stream afterwards; a short read leaves the stream failed. *)
Definition ifs_read (s : ifstream) (n : Z) : list Z * ifstream :=
  if in_good s then
    let got := take (Z.to_nat n) (drop (Z.to_nat (in_pos s)) (in_data s)) in
    (got, {| in_good := bool_decide (Z.of_nat (length got) = Z.max 0 n);
             in_data := in_data s;
             in_pos := in_pos s + Z.of_nat (length got) |})
  else ([], s).

(** Storing [data] into a caller's buffer at [buf + pos]. *)
Definition buf_store (buf : list Z) (pos : Z) (data : list Z)
  : result (list Z) :=
  if bool_decide (data = []) then Ok buf
  else if (pos <? 0) || (Z.of_nat (length buf) <? pos + Z.of_nat (length data))
  then Undefined
  else Ok (take (Z.to_nat pos) buf ++ data
             ++ drop (Z.to_nat pos + length data)%nat buf).

(** Fetching [n] bytes from a caller's buffer at [buf + pos]. *)
Definition buf_fetch (buf : list Z) (pos n : Z) : result (list Z) :=
  if n <=? 0 then Ok []
  else if (pos <? 0) || (Z.of_nat (length buf) <? pos + n) then Undefined
  else Ok (take (Z.to_nat n) (drop (Z.to_nat pos) buf)).

(** [fs::ofstream]: the path it is open on and the put position; bytes
    written go to the disk at once. *)
Record ofstream := { out_good : bool; out_path : string; out_pos : Z }.

(** The content of a file after [data] is written at [pos]; a gap
    between the old end and [pos] reads as zero bytes. *)
Definition file_write (c : list Z) (pos : Z) (data : list Z) : list Z :=
  if bool_decide (data = []) then c
  else
    let p := Z.to_nat pos in
    take p c ++ replicate (p - length c)%nat 0 ++ data
      ++ drop (p + length data)%nat c.

(** [if (fs::exists(path)) out.open(path, binary | in);
     else out.open(path, binary);]
    the first form keeps the content, the second creates the file. *)
Definition ofs_open (d : disk) (p : string) : disk * ofstream :=
  match d !! p with
  | Some _ => (d, {| out_good := true; out_path := p; out_pos := 0 |})
  | None => (<[p := []]> d, {| out_good := true; out_path := p; out_pos := 0 |})
  end.

Definition ofs_seekp (s : ofstream) (off : Z) : ofstream :=
  if out_good s && (0 <=? off)
  then {| out_good := true; out_path := out_path s; out_pos := off |}
  else {| out_good := false; out_path := out_path s; out_pos := out_pos s |}.

Definition ofs_tellp (s : ofstream) : Z :=
  if out_good s then out_pos s else -1.

Definition ofs_write (d : disk) (s : ofstream) (data : list Z)
  : disk * ofstream :=
  if out_good s then
    (<[out_path s := file_write (default [] (d !! out_path s))
                                (out_pos s) data]> d,
     {| out_good := true; out_path := out_path s;
        out_pos := out_pos s + Z.of_nat (length data) |})
  else (d, s).

(** ** storage *)

Module storage.
Section storage.
Context (assertions : bool) (info : torrent_info) (save_path : string).

Local Abbreviation assert c := (assert_b assertions c).

(** The result of [read], the buffer afterwards, and (for the
    statements below) the sum of the [in.gcount()] values. *)
Record read_result := { rr_result : Z; rr_buf : list Z; rr_actual : Z }.

(** [for (file_iter = begin_files();;)
      { if (file_offset < file_iter->size) break;
        file_offset -= file_iter->size; ++file_iter; }]
    The iterator is the list of files from its position on. *)
Fixpoint locate (file_iter : list file) (file_offset : Z)
  : result (list file * Z) :=
  match file_iter with
  | [] => Undefined
  | f :: rest =>
      if file_offset <? f_size f then Ok (file_iter, file_offset)
      else locate rest (file_offset - f_size f)
  end.

(** The body of [while (left_to_read > 0)], entered with
    [left_to_read > 0] and [in] open on the head of [file_iter]. *)
Fixpoint read_loop (d : disk) (file_iter : list file) (in_ : ifstream)
    (file_offset left_to_read buf_pos : Z) (buf : list Z) (actual : Z)
  : result (list Z * Z) :=
  match file_iter with
  | [] => Undefined
  | f :: rest =>
      let read_bytes := int32 left_to_read in
      let read_bytes :=
        if file_offset + read_bytes >? f_size f
        then int32 (f_size f - file_offset) else read_bytes in
      _ ← assert (read_bytes >? 0);
      let '(got, in_) := ifs_read in_ read_bytes in
      buf ← buf_store buf buf_pos got;
      let actual_read := int32 (Z.of_nat (length got)) in
      _ ← assert (read_bytes =? actual_read);
      let left_to_read := int64 (left_to_read - read_bytes) in
      let buf_pos := int32 (buf_pos + read_bytes) in
      _ ← assert (buf_pos >=? 0);
      let file_offset := file_offset + read_bytes in
      let actual := actual + Z.of_nat (length got) in
      if left_to_read >? 0 then
        match rest with
        | [] => Undefined
        | f' :: _ =>
            read_loop d rest (ifs_open d (file_path save_path f'))
                      0 left_to_read buf_pos buf actual
        end
      else Ok (buf, actual)
  end.

Definition read (d : disk) (buf : list Z) (slot offset size : Z)
  : result read_result :=
  if negb (in_size_type offset && in_size_type size) then Undefined else
  _ ← assert (size >? 0);
  let start := slot * piece_length info + offset in
  '(file_iter, file_offset) ← locate (files info) start;
  match file_iter with
  | [] => Undefined
  | f :: _ =>
      let in_ := ifs_open d (file_path save_path f) in
      _ ← assert (file_offset <? f_size f);
      let in_ := ifs_seekg in_ file_offset in
      _ ← assert (ifs_tellg in_ =? file_offset);
      let left_to_read := size in
      let slot_size := piece_size info slot in
      let left_to_read :=
        if int64 (offset + left_to_read) >? slot_size
        then int64 (slot_size - offset) else left_to_read in
      _ ← assert (left_to_read >=? 0);
      let result := int32 left_to_read in
      if left_to_read >? 0 then
        '(buf, actual) ← read_loop d file_iter in_ file_offset
                                   left_to_read 0 buf 0;
        Ok {| rr_result := result; rr_buf := buf; rr_actual := actual |}
      else Ok {| rr_result := result; rr_buf := buf; rr_actual := 0 |}
  end.

(** The body of [while (left_to_write > 0)]. *)
Fixpoint write_loop (d : disk) (file_iter : list file) (out : ofstream)
    (file_offset left_to_write buf_pos : Z) (buf : list Z)
  : result disk :=
  match file_iter with
  | [] => Undefined
  | f :: rest =>
      let write_bytes := int32 left_to_write in
      w ← (if file_offset + write_bytes >? f_size f then
             _ ← assert (f_size f >? file_offset);
             Ok (int32 (f_size f - file_offset))
           else Ok write_bytes);
      let write_bytes : Z := w in
      _ ← assert (buf_pos >=? 0);
      _ ← assert (write_bytes >? 0);
      data ← buf_fetch buf buf_pos write_bytes;
      let '(d, out) := ofs_write d out data in
      let left_to_write := int64 (left_to_write - write_bytes) in
      let buf_pos := int32 (buf_pos + write_bytes) in
      _ ← assert (buf_pos >=? 0);
      let file_offset := file_offset + write_bytes in
      _ ← assert (file_offset <=? f_size f);
      if left_to_write >? 0 then
        _ ← assert (bool_decide (rest ≠ []));
        match rest with
        | [] => Undefined
        | f' :: _ =>
            let '(d, out) := ofs_open d (file_path save_path f') in
            write_loop d rest out 0 left_to_write buf_pos buf
        end
      else Ok d
  end.

Definition write (d : disk) (buf : list Z) (slot offset size : Z)
  : result disk :=
  if negb (in_size_type offset && in_size_type size) then Undefined else
  _ ← assert (size >? 0);
  let start := slot * piece_length info + offset in
  '(file_iter, file_offset) ← locate (files info) start;
  match file_iter with
  | [] => Undefined
  | f :: _ =>
      let '(d, out) := ofs_open d (file_path save_path f) in
      _ ← assert (file_offset <? f_size f);
      let out := ofs_seekp out file_offset in
      _ ← assert (file_offset =? ofs_tellp out);
      let left_to_write := size in
      let slot_size := piece_size info slot in
      let left_to_write :=
        if int64 (offset + left_to_write) >? slot_size
        then int64 (slot_size - offset) else left_to_write in
      _ ← assert (left_to_write >=? 0);
      if left_to_write >? 0 then
        write_loop d file_iter out file_offset left_to_write 0 buf
      else Ok d
  end.

End storage.
End storage.

(** ** piece_manager *)

Module piece_manager.

(** The data members of [piece_manager::impl] that the operations use.
    [m_have_piece] is never touched by storage.cpp; the have-bitmask is
    the caller's vector handed to [check_pieces]. *)
Record impl := {
  m_bytes_left : Z;
  m_piece_to_slot : list Z;
  m_unallocated_slots : list Z;
  m_free_slots : list Z;
  m_slot_to_piece : list Z
}.

(** The constructor initialises none of the tables: the vectors start
    empty ([m_bytes_left] is left uninitialised; it is first read after
    [check_pieces] has set it). *)
Definition new_impl : impl :=
  {| m_bytes_left := 0; m_piece_to_slot := []; m_unallocated_slots := [];
     m_free_slots := []; m_slot_to_piece := [] |}.

(** The variables of the file loop of [check_pieces]. *)
Record scan := {
  changed_file : bool;
  in_ : ifstream;
  piece_data : list Z;
  piece_offset : Z;
  current_slot : Z;
  bytes_to_read : Z;
  bytes_current_read : Z;
  seek_into_next : Z;
  filesize : Z;
  start_of_read : Z;
  start_of_file : Z
}.

Section piece_manager.
Context (assertions : bool) (info : torrent_info) (save_path : string).

Local Abbreviation assert c := (assert_b assertions c).
Local Abbreviation N := (num_pieces info).
Local Abbreviation len v := (Z.of_nat (length v)).

Definition check_invariant (m : impl) : result unit :=
  forM_ (seqZ 0 N) (λ i,
    ps ← vget (m_piece_to_slot m) i;
    _ ← (if negb (ps =? i) && (ps >=? 0)
         then assert_m assertions
                (sp ← vget (m_slot_to_piece m) i; Ok (sp =? -1))
         else Ok ());
    sp ← vget (m_slot_to_piece m) i;
    if sp =? -2 then assert (mem i (m_free_slots m)) else Ok ()).

(** [debug_log] only prints, but it indexes both tables up to [N]. *)
Definition debug_log (m : impl) : result unit :=
  forM_ (seqZ 0 N) (λ i,
    _ ← vget (m_slot_to_piece m) i;
    _ ← vget (m_piece_to_slot m) i;
    Ok ()).

Definition read (d : disk) (m : impl) (buf : list Z)
    (piece_index offset size : Z) : result storage.read_result :=
  _ ← assert_m assertions
        (s ← vget (m_piece_to_slot m) piece_index; Ok (s >=? 0));
  slot ← vget (m_piece_to_slot m) piece_index;
  storage.read assertions info save_path d buf slot offset size.

(** One round of the [for] loop of [allocate_slots] at [pos = *iter]. *)
Definition allocate_slot (d : disk) (m : impl) (zeros : list Z) (pos : Z)
  : result (disk * impl * list Z) :=
  let new_free_slot := pos in
  ps ← vget (m_piece_to_slot m) pos;
  '(m, zeros, new_free_slot) ←
    (if negb (ps =? -1) then
       _ ← assert (ps >=? 0);
       r ← storage.read assertions info save_path d zeros ps 0
             (piece_size info pos);
       s2p ← vset (m_slot_to_piece m) pos pos;
       p2s ← vset (m_piece_to_slot m) pos pos;
       Ok ({| m_bytes_left := m_bytes_left m;
              m_piece_to_slot := p2s;
              m_unallocated_slots := m_unallocated_slots m;
              m_free_slots := m_free_slots m;
              m_slot_to_piece := s2p |}, storage.rr_buf r, ps)
     else Ok (m, zeros, new_free_slot));
  s2p ← vset (m_slot_to_piece m) new_free_slot (-2);
  let m := {| m_bytes_left := m_bytes_left m;
              m_piece_to_slot := m_piece_to_slot m;
              m_unallocated_slots := m_unallocated_slots m;
              m_free_slots := m_free_slots m ++ [new_free_slot];
              m_slot_to_piece := s2p |} in
  d ← storage.write assertions info save_path d zeros pos 0
        (piece_size info pos);
  Ok (d, m, zeros).

(** [for (int i = 0; i < num_slots; ++i, ++iter)
      { if (iter == end_iter) break; ... }]
    with [n] rounds left and [iter] the rest of [m_unallocated_slots];
    the rest that is left over is returned. *)
Fixpoint allocate_loop (n : nat) (iter : list Z) (d : disk) (m : impl)
    (zeros : list Z) : result (list Z * disk * impl) :=
  match n, iter with
  | O, _ => Ok (iter, d, m)
  | S _, [] => Ok ([], d, m)
  | S n', pos :: iter' =>
      '(d, m, zeros) ← allocate_slot d m zeros pos;
      allocate_loop n' iter' d m zeros
  end.

Definition allocate_slots (d : disk) (m : impl) (num_slots : Z)
  : result (disk * impl) :=
  _ ← check_invariant m;
  let piece_size := piece_length info in
  let zeros := replicate (Z.to_nat piece_size) 0 in
  '(iter, d, m) ← allocate_loop (Z.to_nat num_slots)
                    (m_unallocated_slots m) d m zeros;
  let m := {| m_bytes_left := m_bytes_left m;
              m_piece_to_slot := m_piece_to_slot m;
              m_unallocated_slots := iter;
              m_free_slots := m_free_slots m;
              m_slot_to_piece := m_slot_to_piece m |} in
  _ ← check_invariant m;
  Ok (d, m).

(** [std::find(v.begin(), v.end(), x)] as a position; [length v] is
    [v.end()]. *)
Fixpoint find_pos (x : Z) (v : list Z) : nat :=
  match v with
  | [] => O
  | y :: v' => if x =? y then O else S (find_pos x v')
  end.

(** [*iter] for the iterator at position [end - k]. *)
Definition from_end (v : list Z) (k : nat) : result nat :=
  if (length v <? k)%nat then Undefined else Ok (length v - k)%nat.

Definition deref (v : list Z) (iter : nat) : result Z :=
  match v !! iter with Some x => Ok x | None => Undefined end.

Definition swap (v : list Z) (i j : Z) : result (list Z) :=
  x ← vget v i;
  y ← vget v j;
  v ← vset v i y;
  vset v j x.

Definition slot_for_piece (d : disk) (m : impl) (piece_index : Z)
  : result (disk * impl * Z) :=
  _ ← check_invariant m;
  _ ← assert ((piece_index >=? 0)
              && (piece_index <? len (m_piece_to_slot m)));
  _ ← assert (len (m_piece_to_slot m) =? len (m_slot_to_piece m));
  slot_index ← vget (m_piece_to_slot m) piece_index;
  if negb (slot_index =? -1) then
    _ ← assert (slot_index >=? 0);
    _ ← assert (slot_index <? len (m_slot_to_piece m));
    Ok (d, m, slot_index)
  else
    '(d, m) ←
      (if bool_decide (m_free_slots m = []) then
         '(d, m) ← allocate_slots d m 5;
         _ ← assert (negb (bool_decide (m_free_slots m = [])));
         Ok (d, m)
       else Ok (d, m));
    let iter := find_pos piece_index (m_free_slots m) in
    '(d, m, iter) ←
      (if bool_decide (iter = length (m_free_slots m)) then
         _ ← assert_m assertions
               (sp ← vget (m_slot_to_piece m) piece_index;
                Ok (negb (sp =? -2)));
         iter ← from_end (m_free_slots m) 1;
         last ← deref (m_free_slots m) iter;
         if (last =? N - 1) && negb (piece_index =? last) then
           '(d, m) ←
             (if bool_decide (length (m_free_slots m) = 1%nat)
              then allocate_slots d m 5 else Ok (d, m));
           _ ← assert (len (m_free_slots m) >? 1);
           iter ← from_end (m_free_slots m) 1;
           Ok (d, m, iter)
         else Ok (d, m, iter)
       else Ok (d, m, iter));
    slot_index ← deref (m_free_slots m) iter;
    let free := delete iter (m_free_slots m) in
    _ ← assert_m assertions
          (sp ← vget (m_slot_to_piece m) slot_index; Ok (sp =? -2));
    s2p ← vset (m_slot_to_piece m) slot_index piece_index;
    p2s ← vset (m_piece_to_slot m) piece_index slot_index;
    let m := {| m_bytes_left := m_bytes_left m;
                m_piece_to_slot := p2s;
                m_unallocated_slots := m_unallocated_slots m;
                m_free_slots := free;
                m_slot_to_piece := s2p |} in
    collide ← (if negb (slot_index =? piece_index)
               then sp ← vget s2p piece_index; Ok (sp >=? 0)
               else Ok false);
    '(d, m, slot_index) ←
      (if collide : bool then
         piece_at_our_slot ← vget s2p piece_index;
         _ ← debug_log m;
         let buf := replicate (Z.to_nat (piece_length info)) 0 in
         r ← storage.read assertions info save_path d buf piece_index 0
               (piece_length info);
         d ← storage.write assertions info save_path d (storage.rr_buf r)
               slot_index 0 (piece_length info);
         s2p ← swap s2p piece_index slot_index;
         p2s ← swap p2s piece_index piece_at_our_slot;
         let m := {| m_bytes_left := m_bytes_left m;
                     m_piece_to_slot := p2s;
                     m_unallocated_slots := m_unallocated_slots m;
                     m_free_slots := free;
                     m_slot_to_piece := s2p |} in
         _ ← debug_log m;
         Ok (d, m, piece_index)
       else Ok (d, m, slot_index));
    _ ← check_invariant m;
    Ok (d, m, slot_index).

Definition write (d : disk) (m : impl) (buf : list Z)
    (piece_index offset size : Z) : result (disk * impl) :=
  '(d, m, slot) ← slot_for_piece d m piece_index;
  d ← storage.write assertions info save_path d buf slot offset size;
  Ok (d, m).


(** The candidate loop of [check_pieces]:
    [for (int i = current_slot; i < num_pieces; ++i)] over the indices
    [cands], with [large] and [small] the two digests of the buffer. *)
Fixpoint find_piece (pieces : list bool) (large small : list Z)
    (current_slot : Z) (cands : list Z) (found_piece : Z) : result Z :=
  match cands with
  | [] => Ok found_piece
  | i :: cands' =>
      have ← vget pieces i;
      if have && negb (i =? current_slot) then
        find_piece pieces large small current_slot cands' found_piece
      else
        let hash := if i =? N - 1 then small else large in
        if digest_eq hash (hash_for_piece info i)
        then find_piece pieces large small current_slot cands' i
        else find_piece pieces large small current_slot cands' found_piece
  end.

(** What [check_pieces] does with a full buffer for [current_slot]:
    the digests, the candidate loop, and the bookkeeping for the
    outcome. *)
Definition classify_slot (m : impl) (pieces : list bool)
    (piece_data : list Z) (current_slot : Z) : result (impl * list bool) :=
  let piece_size_ := piece_length info in
  let last_piece_size_ := piece_size info (N - 1) in
  let large_digest := hash_of (take (Z.to_nat piece_size_) piece_data) in
  let small_digest :=
    hash_of (take (Z.to_nat last_piece_size_) piece_data) in
  found_piece ← find_piece pieces large_digest small_digest current_slot
                  (seqZ current_slot (N - current_slot)) (-1);
  if negb (found_piece =? -1) then
    have ← vget pieces found_piece;
    '(s2p, free, bytes_left) ←
      (if have : bool then
         _ ← assert_m assertions
               (s ← vget (m_piece_to_slot m) found_piece;
                Ok (negb (s =? -1)));
         old ← vget (m_piece_to_slot m) found_piece;
         s2p ← vset (m_slot_to_piece m) old (-2);
         Ok (s2p, m_free_slots m ++ [old], m_bytes_left m)
       else
         Ok (m_slot_to_piece m, m_free_slots m,
             m_bytes_left m - piece_size info found_piece));
    p2s ← vset (m_piece_to_slot m) found_piece current_slot;
    s2p ← vset s2p current_slot found_piece;
    pieces ← vset pieces found_piece true;
    Ok ({| m_bytes_left := bytes_left;
           m_piece_to_slot := p2s;
           m_unallocated_slots := m_unallocated_slots m;
           m_free_slots := free;
           m_slot_to_piece := s2p |}, pieces)
  else
    s2p ← vset (m_slot_to_piece m) current_slot (-2);
    Ok ({| m_bytes_left := m_bytes_left m;
           m_piece_to_slot := m_piece_to_slot m;
           m_unallocated_slots := m_unallocated_slots m;
           m_free_slots := m_free_slots m ++ [current_slot];
           m_slot_to_piece := s2p |}, pieces).

(** [for (pos = start_of_read; pos < file_end; pos += piece_size)
      { m_unallocated_slots.push_back(current_slot); ++current_slot;
        assert(current_slot <= num_pieces); }]
    The loop runs for ever when [piece_size <= 0]; [fuel] bounds it. *)
Fixpoint skip_loop (fuel : nat) (pos file_end : Z) (unallocated : list Z)
    (current_slot : Z) : result (Z * list Z * Z) :=
  if pos <? file_end then
    match fuel with
    | O => OutOfFuel
    | S fuel' =>
        let unallocated := unallocated ++ [current_slot] in
        let current_slot := current_slot + 1 in
        _ ← assert (current_slot <=? N);
        skip_loop fuel' (pos + piece_length info) file_end unallocated
                  current_slot
    end
  else Ok (pos, unallocated, current_slot).

(** One round of the file loop, past the poll of [data.abort], with
    [file_iter] at [f].  The boolean tells whether [file_iter] was
    advanced. *)
Definition scan_step (d : disk) (f : file) (sc : scan) (m : impl)
    (pieces : list bool) : result (bool * scan * impl * list bool) :=
  let piece_size_ := piece_length info in
  _ ← assert (current_slot sc <=? N);
  let path := file_path save_path f in
  let '(in_, bytes_current_read, filesize) :=
    if changed_file sc then
      let in_ := ifs_open d path in
      let bytes_current_read := seek_into_next sc in
      if negb (in_good in_) then (in_, bytes_current_read, 0)
      else (ifs_seekg in_ (seek_into_next sc), bytes_current_read,
            ifs_size in_)
    else (in_ sc, bytes_current_read sc, filesize sc) in
  let start_of_read :=
    if bytes_to_read sc =? piece_size info (current_slot sc)
    then current_slot sc * piece_size_ else start_of_read sc in
  '(piece_data, in_, bytes_read) ←
    (if filesize >? 0 then
       let '(got, in_) := ifs_read in_ (bytes_to_read sc) in
       piece_data ← buf_store (piece_data sc) (piece_offset sc) got;
       Ok (piece_data, in_, len got)
     else Ok (piece_data sc, in_, 0));
  let bytes_current_read := bytes_current_read + bytes_read in
  let bytes_to_read := bytes_to_read sc - bytes_read in
  if bytes_to_read >? 0 then
    '(m, current_slot, seek_into_next, bytes_to_read, piece_offset) ←
      (if negb (bytes_current_read =? f_size f) then
         let file_end := start_of_file sc + f_size f in
         '(pos, unallocated, current_slot) ←
           skip_loop (Z.to_nat (file_end - start_of_read)) start_of_read
                     file_end (m_unallocated_slots m) (current_slot sc);
         Ok ({| m_bytes_left := m_bytes_left m;
                m_piece_to_slot := m_piece_to_slot m;
                m_unallocated_slots := unallocated;
                m_free_slots := m_free_slots m;
                m_slot_to_piece := m_slot_to_piece m |},
             current_slot, pos - file_end,
             piece_size info current_slot, 0)
       else
         Ok (m, current_slot sc, 0, bytes_to_read,
             piece_offset sc + bytes_read));
    Ok (true,
        {| changed_file := true; in_ := in_; piece_data := piece_data;
           piece_offset := piece_offset; current_slot := current_slot;
           bytes_to_read := bytes_to_read;
           bytes_current_read := bytes_current_read;
           seek_into_next := seek_into_next; filesize := filesize;
           start_of_read := start_of_read;
           start_of_file := start_of_file sc + f_size f |},
        m, pieces)
  else
    '(m, pieces) ← classify_slot m pieces piece_data (current_slot sc);
    let current_slot := current_slot sc + 1 in
    Ok (false,
        {| changed_file := false; in_ := in_; piece_data := piece_data;
           piece_offset := 0; current_slot := current_slot;
           bytes_to_read := piece_size info current_slot;
           bytes_current_read := bytes_current_read;
           seek_into_next := seek_into_next sc; filesize := filesize;
           start_of_read := start_of_read;
           start_of_file := start_of_file sc |},
        m, pieces).

(** The file loop.  [abort k] is the value of [data.abort] that the
    [k]-th poll sees; the final boolean tells whether the loop ran to
    the end of the file list. *)
Fixpoint check_loop (fuel : nat) (d : disk) (abort : nat → bool) (k : nat)
    (file_iter : list file) (sc : scan) (m : impl) (pieces : list bool)
  : result (impl * list bool * bool) :=
  match file_iter with
  | [] => Ok (m, pieces, true)
  | f :: rest =>
      match fuel with
      | O => OutOfFuel
      | S fuel' =>
          if abort k then Ok (m, pieces, false)
          else
            '(advance, sc, m, pieces) ← scan_step d f sc m pieces;
            check_loop fuel' d abort (S k)
                       (if advance : bool then rest else file_iter)
                       sc m pieces
      end
  end.

(** Each round either leaves a file behind or takes at least one byte
    from the open one, so this many rounds are enough. *)
Definition scan_fuel (d : disk) (fl : list file) : nat :=
  foldr (λ f acc,
           (S (length (default [] (d !! file_path save_path f))) + acc)%nat)
        1%nat fl.

Definition scan_init : scan :=
  {| changed_file := true; in_ := closed_in;
     piece_data := replicate (Z.to_nat (piece_length info)) 0;
     piece_offset := 0; current_slot := 0;
     bytes_to_read := piece_length info; bytes_current_read := 0;
     seek_into_next := 0; filesize := 0; start_of_read := 0;
     start_of_file := 0 |}.

Definition check_pieces (d : disk) (m : impl) (abort : nat → bool)
    (pieces : list bool) : result (impl * list bool) :=
  let m := {| m_bytes_left := total_size info;
              m_piece_to_slot := resize N (-1) (m_piece_to_slot m);
              m_unallocated_slots := m_unallocated_slots m;
              m_free_slots := m_free_slots m;
              m_slot_to_piece := resize N (-1) (m_slot_to_piece m) |} in
  '(m, pieces, completed) ←
    check_loop (scan_fuel d (files info)) d abort O (files info)
               scan_init m pieces;
  if completed : bool then
    _ ← check_invariant m;
    Ok (m, pieces)
  else Ok (m, pieces).

End piece_manager.
End piece_manager.

(** Conversion of a wider integer to [unsigned int]. *)
Definition uint32 (z : Z) : Z := z mod 2 ^ 32.

(** ** hasher (include/libtorrent/hasher.hpp) *)

Module hasher.

(** Modelled from the spec: [SHA1Init], [SHA1Update] and [SHA1Final]
    are declared in hasher.hpp and defined outside src/ ("init(),
    update(bytes), finalize() -> 20-byte.  Standard FIPS 180-1").  The
    context is the sequence of bytes given since [SHA1Init]; nothing is
    said about a context after [SHA1Final], and the model gives no
    result for using one. *)
Inductive SHA1_CTX :=
| fed (bytes : list Z)
| spent.

Definition SHA1Init : SHA1_CTX := fed [].

(** [data] is the memory from the pointer on. *)
Definition SHA1Update (context : SHA1_CTX) (data : list Z) (len : Z)
  : result SHA1_CTX :=
  match context with
  | fed bytes =>
      if Z.of_nat (length data) <? len then Undefined
      else Ok (fed (bytes ++ take (Z.to_nat len) data))
  | spent => Undefined
  end.

Definition SHA1Final (context : SHA1_CTX) : result (list Z * SHA1_CTX) :=
  match context with
  | fed bytes => Ok (SHA1.sha1 bytes, spent)
  | spent => Undefined
  end.

Record hasher := { m_context : SHA1_CTX }.

(** [hasher() { SHA1Init(&m_context); }] *)
Definition new : hasher := {| m_context := SHA1Init |}.

Definition update (h : hasher) (data : list Z) (len : Z) : result hasher :=
  c ← SHA1Update (m_context h) data len;
  Ok {| m_context := c |}.

Definition final (h : hasher) : result (list Z * hasher) :=
  '(digest, c) ← SHA1Final (m_context h);
  Ok (digest, {| m_context := c |}).

Definition reset (h : hasher) : hasher := {| m_context := SHA1Init |}.

End hasher.

(** ** lazy_hash (src/storage.cpp) *)

Module lazy_hash.

(** [data] is [None] for the null pointer. *)
Record lazy_hash := {
  digest : list Z;
  h : hasher.hasher;
  data : option (list Z);
  size : Z
}.

(** [lazy_hash(const char* data_, std::size_t size_)]; [digest] starts
    with what its default constructor leaves there, [uninitialised]. *)
Definition new (uninitialised : list Z) (data_ : option (list Z))
    (size_ : Z) : lazy_hash :=
  {| digest := uninitialised; h := hasher.new; data := data_;
     size := size_ |}.

Definition get (l : lazy_hash) : result (list Z * lazy_hash) :=
  match data l with
  | Some buf =>
      h1 ← hasher.update (h l) buf (uint32 (size l));
      '(dg, h2) ← hasher.final h1;
      Ok (dg, {| digest := dg; h := h2; data := None; size := size l |})
  | None => Ok (digest l, l)
  end.

End lazy_hash.

(** The candidate loop of [check_pieces] as the source has it, with the
    two [lazy_hash] objects that [digest[i == num_pieces - 1]->get()]
    selects from. *)
Fixpoint find_piece_lazy (info : torrent_info) (pieces : list bool)
    (large_digest small_digest : lazy_hash.lazy_hash)
    (current_slot : Z) (cands : list Z) (found_piece : Z)
  : result (Z * lazy_hash.lazy_hash * lazy_hash.lazy_hash) :=
  match cands with
  | [] => Ok (found_piece, large_digest, small_digest)
  | i :: cands' =>
      have ← vget pieces i;
      if have && negb (i =? current_slot) then
        find_piece_lazy info pieces large_digest small_digest current_slot
                        cands' found_piece
      else
        '(hash, large_digest, small_digest) ←
          (if i =? num_pieces info - 1 then
             '(hash, small_digest) ← lazy_hash.get small_digest;
             Ok (hash, large_digest, small_digest)
           else
             '(hash, large_digest) ← lazy_hash.get large_digest;
             Ok (hash, large_digest, small_digest));
        if digest_eq hash (hash_for_piece info i)
        then find_piece_lazy info pieces large_digest small_digest
                             current_slot cands' i
        else find_piece_lazy info pieces large_digest small_digest
                             current_slot cands' found_piece
  end.

(** ** fingerprint (include/libtorrent/fingerprint.hpp) *)

Module fingerprint.

(** Conversion of an [int] to [char], taken as a signed 8-bit value. *)
Definition int8 (z : Z) : Z := (z + 128) mod 256 - 128.

(** [char id[2]] and the four version fields, each a [char]. *)
Record fingerprint := {
  id : Z * Z;
  major_version : Z;
  minor_version : Z;
  revision_version : Z;
  tag_version : Z
}.

(** A C string is the list of its characters before the terminating
    NUL; [id_string[i]] reads a character, the NUL, or past the end of
    the string. *)
Definition strlen (s : list Z) : Z := Z.of_nat (length s).

Definition char_at (s : list Z) (i : nat) : result Z :=
  match s !! i with
  | Some c => Ok c
  | None => if (i =? length s)%nat then Ok 0 else Undefined
  end.

Section fingerprint.
Context (assertions : bool).

Local Abbreviation assert c := (assert_b assertions c).

Definition new (id_string : list Z) (major minor revision tag : Z)
  : result fingerprint :=
  _ ← assert ((major >=? 0) && (major <? 10));
  _ ← assert ((minor >=? 0) && (minor <? 10));
  _ ← assert ((revision >=? 0) && (revision <? 10));
  _ ← assert ((tag >=? 0) && (tag <? 10));
  _ ← assert (strlen id_string =? 2);
  c0 ← char_at id_string 0;
  c1 ← char_at id_string 1;
  Ok {| id := (c0, c1);
        major_version := int8 major;
        minor_version := int8 minor;
        revision_version := int8 revision;
        tag_version := int8 tag |}.

End fingerprint.

(** [s << "-" << id[0] << id[1] << major_version << minor_version
       << revision_version << tag_version << "-"]: every field is a
    [char] and is written as that character. *)
Definition to_string (f : fingerprint) : list Z :=
  [45] ++ [(id f).1; (id f).2]
       ++ [major_version f; minor_version f; revision_version f;
           tag_version f]
       ++ [45].

End fingerprint.

(** ** Notions used to state the properties *)

(** The byte at address [a] of the virtual address space laid over the
  files [fl] (declared sizes), as the disk holds it; [None] where the
  file is missing or too short. *)
Fixpoint vbyte (save_path : string) (d : disk) (fl : list file) (a : Z)
: option Z :=
match fl with
| [] => None
| f :: rest =>
    if a <? f_size f then
      if a <? 0 then None
      else c ← d !! file_path save_path f; c !! Z.to_nat a
    else vbyte save_path d rest (a - f_size f)
end.

(** The address at which the file at position [j] of [fl] starts. *)
Definition file_start (fl : list file) (j : nat) : Z :=
sum_sizes (take j fl).

(** Byte [k] of the file at [path] lies in the part of the address range
  [[start, start + len)] that falls inside a file stored at [path]. *)
Definition in_written_range (save_path : string) (fl : list file)
  (start len : Z) (path : string) (k : nat) : Prop :=
∃ j f, fl !! j = Some f ∧ file_path save_path f = path
       ∧ Z.of_nat k < f_size f
       ∧ start <= file_start fl j + Z.of_nat k < start + len.

(** The bytes that the loop may touch, in addresses relative to the start
    of the first file of [fl]. *)
Definition loop_range (save_path : string) (fl : list file) (fo n : Z)
    (p : string) (k : nat) : Prop :=
  ∃ j f, fl !! j = Some f ∧ file_path save_path f = p
         ∧ Z.of_nat k < f_size f
         ∧ fo <= sum_sizes (take j fl) + Z.of_nat k < fo + n.

(** How two disks compare when the second comes from the first by writes
    that stay out of the bytes for which [W] fails. *)
Definition preserved (W : string → nat → Prop) (d d' : disk) : Prop :=
  ∀ p c, d !! p = Some c →
    ∃ c', d' !! p = Some c' ∧ (length c <= length c')%nat
          ∧ ∀ k : nat, (k < length c)%nat → ¬ W p k → c' !! k = c !! k.

(** The sum of [piece_size p] over the pieces [p >= i] that [pieces]
  (the bitmask from index [i] on) does not have. *)
Fixpoint left_size (info : torrent_info) (i : Z) (pieces : list bool) : Z :=
match pieces with
| [] => 0
| have :: rest =>
    (if have then 0 else piece_size info i) + left_size info (i + 1) rest
end.

(** The candidate loop as the specification words it: ascending from
  [current_slot], skipping pieces already present except
  [current_slot] itself, the first match wins. *)
Definition candidate (info : torrent_info) (pieces : list bool)
  (large small : list Z) (current_slot i : Z) : bool :=
(negb (default false (pieces !! Z.to_nat i)) || (i =? current_slot))
&& digest_eq (if i =? num_pieces info - 1 then small else large)
             (hash_for_piece info i).

Fixpoint first_match (info : torrent_info) (pieces : list bool)
  (large small : list Z) (current_slot : Z) (cands : list Z) : Z :=
match cands with
| [] => -1
| i :: cands' =>
    if candidate info pieces large small current_slot i then i
    else first_match info pieces large small current_slot cands'
end.

(** Inverse consistency of the two tables. *)
Definition inverse_consistent (m : piece_manager.impl) : Prop :=
∀ p s, vget (piece_manager.m_piece_to_slot m) p = Ok s → 0 <= s →
       vget (piece_manager.m_slot_to_piece m) s = Ok p.

(** Coherence of the two tables with the two pools; [unallocated] is
    a parameter because [allocate_slots] walks through
    [m_unallocated_slots] and erases the drained part only at the end. *)
Record tables_ok (p2s s2p free unallocated : list Z) : Prop := {
  ok_p2s : ∀ p s, vget p2s p = Ok s → s ≠ -1 → vget s2p s = Ok p;
  ok_s2p : ∀ s q, vget s2p s = Ok q → q ≠ -1 → q ≠ -2 → vget p2s q = Ok s;
  ok_free : ∀ s, s ∈ free → vget s2p s = Ok (-2);
  ok_free_nodup : NoDup free;
  ok_unallocated : ∀ s q, s ∈ unallocated → vget s2p s = Ok q → q = -1;
  ok_unallocated_nodup : NoDup unallocated
}.

Definition impl_ok (m : piece_manager.impl) : Prop :=
  tables_ok (piece_manager.m_piece_to_slot m)
            (piece_manager.m_slot_to_piece m)
            (piece_manager.m_free_slots m)
            (piece_manager.m_unallocated_slots m).

(** What holds of the tables and of the caller's bitmask while
    [check_pieces] scans, with [cs] the current slot. *)
Record scan_ok (info : torrent_info) (cs : Z) (m : piece_manager.impl)
    (pieces : list bool) : Prop := {
  so_tables : impl_ok m;
  so_have : ∀ p s, vget pieces p = Ok true →
                   vget (piece_manager.m_piece_to_slot m) p = Ok s → s ≠ -1;
  so_have_not : ∀ p s, vget pieces p = Ok false →
                       vget (piece_manager.m_piece_to_slot m) p = Ok s →
                       s = -1;
  so_beyond : ∀ s q, cs <= s →
                     vget (piece_manager.m_slot_to_piece m) s = Ok q →
                     q = -1;
  so_free_lt : ∀ s, s ∈ piece_manager.m_free_slots m → s < cs;
  so_unallocated_lt :
    ∀ s, s ∈ piece_manager.m_unallocated_slots m → s < cs;
  so_bytes_left :
    piece_manager.m_bytes_left m = left_size info 0 pieces
}.

(** The bytes an input stream can still deliver. *)
Definition remaining (s : ifstream) : nat :=
  if in_good s then (length (in_data s) - Z.to_nat (in_pos s))%nat else 0%nat.

(** A good stream has a position that [seekg] accepted. *)
Definition stream_ok (s : ifstream) : Prop :=
  in_good s = true → 0 <= in_pos s.

(** One round per file and one per byte the disk holds for it. *)
Fixpoint files_budget (save_path : string) (d : disk) (fl : list file)
  : nat :=
  match fl with
  | [] => 0%nat
  | f :: rest =>
      (S (length (default [] (d !! file_path save_path f)))
       + files_budget save_path d rest)%nat
  end.

(** Rounds the file loop can still make: one per file left, and one per
    byte left in the open file and in the files after it. *)
Definition rounds_left (save_path : string) (d : disk) (fl : list file)
    (sc : piece_manager.scan) : nat :=
  match fl with
  | [] => 0%nat
  | f :: rest =>
      ((if piece_manager.changed_file sc
        then S (length (default [] (d !! file_path save_path f)))
        else S (remaining (piece_manager.in_ sc)))
       + files_budget save_path d rest)%nat
  end.

(** The public operations that may follow [check_pieces]. *)
Inductive operation :=
| op_read (buf : list Z) (piece_index offset size : Z)
| op_write (buf : list Z) (piece_index offset size : Z)
| op_allocate_slots (num_slots : Z).

Definition run_operation (assertions : bool) (info : torrent_info)
  (save_path : string) (dm : disk * piece_manager.impl) (o : operation)
: result (disk * piece_manager.impl) :=
let '(d, m) := dm in
match o with
| op_read buf p off size =>
    _ ← piece_manager.read assertions info save_path d m buf p off size;
    Ok (d, m)
| op_write buf p off size =>
    piece_manager.write assertions info save_path d m buf p off size
| op_allocate_slots n =>
    piece_manager.allocate_slots assertions info save_path d m n
end.

Fixpoint run_operations (assertions : bool) (info : torrent_info)
  (save_path : string) (dm : disk * piece_manager.impl)
  (ops : list operation) : result (disk * piece_manager.impl) :=
match ops with
| [] => Ok dm
| o :: ops' =>
    dm ← run_operation assertions info save_path dm o;
    run_operations assertions info save_path dm ops'
end.

(** A [lazy_hash] over the first [sz] bytes of [buf] that has not been
    asked yet, or has been asked and holds the digest. *)
Definition lazy_ok (buf : list Z) (sz : Z) (l : lazy_hash.lazy_hash)
  : Prop :=
  lazy_hash.size l = sz
  ∧ ((lazy_hash.data l = Some buf ∧ lazy_hash.h l = hasher.new)
     ∨ (lazy_hash.data l = None
        ∧ lazy_hash.digest l = hash_of (take (Z.to_nat sz) buf))).

(** The tables in which every slot is unallocated. *)
Definition all_unallocated (info : torrent_info) : piece_manager.impl :=
  {| piece_manager.m_bytes_left := total_size info;
     piece_manager.m_piece_to_slot := replicate (Z.to_nat (num_pieces info)) (-1);
     piece_manager.m_unallocated_slots := seqZ 0 (num_pieces info);
     piece_manager.m_free_slots := [];
     piece_manager.m_slot_to_piece := replicate (Z.to_nat (num_pieces info)) (-1) |}.

(** The state of the file loop of [check_pieces] while no file has been
    found: [E] is the address at which the next file starts, [cs] the
    number of slots given up so far. *)
Record scan_missing (info : torrent_info) (E cs : Z) (sc : piece_manager.scan) : Prop := {
  sm_changed : piece_manager.changed_file sc = true;
  sm_slot : piece_manager.current_slot sc = cs;
  sm_file : piece_manager.start_of_file sc = E;
  sm_seek : piece_manager.seek_into_next sc = cs * piece_length info - E;
  sm_ahead : E <= cs * piece_length info;
  sm_close : cs = 0 ∨ (cs - 1) * piece_length info < E;
  sm_start : piece_manager.bytes_to_read sc = piece_size info cs
             ∨ piece_manager.start_of_read sc = cs * piece_length info;
  sm_to_read : 0 < piece_manager.bytes_to_read sc
}.

(** The tables in which no slot is assigned, free or unallocated. *)
Definition nothing_known (info : torrent_info) : piece_manager.impl :=
  {| piece_manager.m_bytes_left := total_size info;
     piece_manager.m_piece_to_slot := replicate (Z.to_nat (num_pieces info)) (-1);
     piece_manager.m_unallocated_slots := [];
     piece_manager.m_free_slots := [];
     piece_manager.m_slot_to_piece := replicate (Z.to_nat (num_pieces info)) (-1) |}.

(** The state of the file loop of [check_pieces] while it gathers the
    bytes of slot 0 from files that are all there: [E] is the address
    at which the next file starts. *)
Record scan_gathering (info : torrent_info) (E : Z) (sc : piece_manager.scan) : Prop := {
  sg_changed : piece_manager.changed_file sc = true;
  sg_slot : piece_manager.current_slot sc = 0;
  sg_seek : piece_manager.seek_into_next sc = 0;
  sg_offset : piece_manager.piece_offset sc = E;
  sg_to_read : piece_manager.bytes_to_read sc = piece_length info - E;
  sg_data : Z.of_nat (length (piece_manager.piece_data sc)) = piece_length info
}.

(** No piece sits in a slot above its own index. *)
Definition placed_low (m : piece_manager.impl) : Prop :=
  ∀ p s, vget (piece_manager.m_piece_to_slot m) p = Ok s → s ≠ -1 → 0 <= s <= p.

(** What [check_invariant] looks at for index [i]: both tables are
    defined there and, where assertions are compiled in, a piece that
    sits in a foreign slot has the slot of its own index unallocated,
    and a slot marked [-2] is on the free list. *)
Definition invariant_at (assertions : bool) (m : piece_manager.impl) (i : Z) : Prop :=
  ∃ ps sp,
    vget (piece_manager.m_piece_to_slot m) i = Ok ps ∧ vget (piece_manager.m_slot_to_piece m) i = Ok sp
    ∧ (assertions = true →
       (ps ≠ i → 0 <= ps → sp = -1) ∧ (sp = -2 → i ∈ piece_manager.m_free_slots m)).

(** ** Concrete torrents and disks *)

Definition never : nat → bool := λ _, false.

(** Two files of 2 and 3 bytes, pieces of 2 bytes: three pieces, the last
  one a single byte.  The payload is [1;2 | 3;4 | 5]. *)
Definition info_two_files : torrent_info :=
{| piece_length := 2; num_pieces := 3;
   files := [ {| f_path := ""; f_filename := "a"; f_size := 2 |};
              {| f_path := ""; f_filename := "b"; f_size := 3 |} ];
   piece_hash := [hash_of [1; 2]; hash_of [3; 4]; hash_of [5]] |}.

(** The first file is missing, the second holds foreign bytes. *)
Definition disk_first_missing : disk := {[ "t/b" := [9; 9; 9] ]}.

(** One file of 5 bytes, pieces of 2 bytes; same payload. *)
Definition info_one_file : torrent_info :=
{| piece_length := 2; num_pieces := 3;
   files := [ {| f_path := ""; f_filename := "f"; f_size := 5 |} ];
   piece_hash := [hash_of [1; 2]; hash_of [3; 4]; hash_of [5]] |}.

(** The file is cut after three bytes. *)
Definition disk_truncated : disk := {[ "t/f" := [1; 2; 3] ]}.

(** The last piece sits in slot 0, slot 1 holds foreign bytes, and the
  file ends there. *)
Definition disk_misplaced : disk := {[ "t/f" := [5; 9; 9; 9] ]}.

(** One file of 5 bytes whose first two pieces have the same content. *)
Definition info_twins : torrent_info :=
{| piece_length := 2; num_pieces := 3;
   files := [ {| f_path := ""; f_filename := "f"; f_size := 5 |} ];
   piece_hash := [hash_of [1; 2]; hash_of [1; 2]; hash_of [5]] |}.

Definition disk_twins : disk := {[ "t/f" := [1; 2; 1; 2; 5] ]}.

(** The file of [info_one_file] with the last piece (the byte 5) at the
  start of slot 0 and again at the start of slot 1. *)
Definition disk_repeated : disk := {[ "t/f" := [5; 9; 5; 9] ]}.

(** The tables of [info_one_file] when the last piece has been found in
  slot 0 and nothing else is known. *)
Definition last_in_first : piece_manager.impl :=
{| piece_manager.m_bytes_left := 4;
   piece_manager.m_piece_to_slot := [-1; -1; 0];
   piece_manager.m_unallocated_slots := [];
   piece_manager.m_free_slots := [];
   piece_manager.m_slot_to_piece := [2; -1; -1] |}.

(** One file of 8 bytes, four pieces of 2 bytes; the payload is
  [1;2 | 3;4 | 5;6 | 7;8]. *)
Definition info_four : torrent_info :=
{| piece_length := 2; num_pieces := 4;
   files := [ {| f_path := ""; f_filename := "f"; f_size := 8 |} ];
   piece_hash := [hash_of [1; 2]; hash_of [3; 4]; hash_of [5; 6];
                  hash_of [7; 8]] |}.

(** Piece 2 sits in slot 0, slot 1 holds zero bytes, and the file ends
  there: slots 2 and 3 have no backing. *)
Definition disk_four : disk := {[ "t/f" := [5; 6; 0; 0] ]}.



(** The tables as [check_pieces] sets them up before the scan. *)
Definition fresh3 : piece_manager.impl :=
{| piece_manager.m_bytes_left := 5;
   piece_manager.m_piece_to_slot := [-1; -1; -1];
   piece_manager.m_unallocated_slots := [];
   piece_manager.m_free_slots := [];
   piece_manager.m_slot_to_piece := [-1; -1; -1] |}.

(** One file of a single byte, and a piece length of two. *)
Definition info_short : torrent_info :=
  {| piece_length := 2; num_pieces := 1;
     files := [ {| f_path := ""; f_filename := "f"; f_size := 1 |} ];
     piece_hash := [hash_of [5]] |}.

(** The file of [info_one_file] with the first two pieces in each
    other's slots. *)
Definition disk_swapped : disk := {[ "t/f" := [3; 4; 1; 2; 5] ]}.

(** The tables that [check_pieces] builds without assertions for the
    file [3;4;1;2;5], in which the first two pieces have changed
    places. *)
Definition tables_swapped : piece_manager.impl :=
  {| piece_manager.m_bytes_left := 2;
     piece_manager.m_piece_to_slot := [-1; 0; 2];
     piece_manager.m_unallocated_slots := [];
     piece_manager.m_free_slots := [1];
     piece_manager.m_slot_to_piece := [1; -2; 2] |}.

(** The tables that [check_pieces] leaves for [disk_misplaced]. *)
Definition tables_misplaced : piece_manager.impl :=
  {| piece_manager.m_bytes_left := 4;
     piece_manager.m_piece_to_slot := [-1; -1; 0];
     piece_manager.m_unallocated_slots := [2];
     piece_manager.m_free_slots := [1];
     piece_manager.m_slot_to_piece := [2; -2; -1] |}.

(** The whole payload of [info_one_file] on disk. *)
Definition disk_complete : disk := {[ "t/f" := [1; 2; 3; 4; 5] ]}.

(** * Properties *)

(** ** Generalities on [result], vectors and [int32] *)

Lemma bind_Ok {A B} (m : result A) (f : A → result B) (b : B) :
m ≫= f = Ok b → ∃ a, m = Ok a ∧ f a = Ok b.
Proof. destruct m; simpl; intros H; try discriminate. eauto. Qed.

(** Splits a hypothesis [x ← e; k = Ok r] into [e = Ok x] and [k = Ok r]. *)
Tactic Notation "bind_inv" hyp(H) :=
let a := fresh "a" in
let Ha := fresh "Ha" in
apply bind_Ok in H; destruct H as (a & Ha & H).

Tactic Notation "bind_inv" hyp(H) "as" ident(a) ident(Ha) :=
apply bind_Ok in H; destruct H as (a & Ha & H).

Lemma assert_b_Ok assertions c u :
assert_b assertions c = Ok u → assertions = true → c = true.
Proof.
unfold assert_b, assert_m. intros H ->. simpl in H.
destruct c; [done | discriminate].
Qed.

Lemma int32_small z : - 2 ^ 31 <= z < 2 ^ 31 → int32 z = z.
Proof.
intros H. unfold int32. rewrite Z.mod_small by lia. lia.
Qed.

Lemma int64_small z : - 2 ^ 63 <= z < 2 ^ 63 → int64 z = z.
Proof.
intros H. unfold int64. rewrite Z.mod_small; lia.
Qed.

Lemma int64_range z : - 2 ^ 63 <= int64 z < 2 ^ 63.
Proof.
unfold int64.
pose proof (Z.mod_pos_bound (z + 2 ^ 63) (2 ^ 64) ltac:(lia)). lia.
Qed.

(** Wrapping a positive number never makes it larger. *)
Lemma int64_le z : 0 <= z → int64 z <= z.
Proof.
intros H. unfold int64.
pose proof (Z.mod_le (z + 2 ^ 63) (2 ^ 64) ltac:(lia) ltac:(lia)). lia.
Qed.

Lemma int32_le z : 0 <= z → int32 z <= z.
Proof.
intros H. unfold int32.
pose proof (Z.mod_le (z + 2 ^ 31) (2 ^ 32) ltac:(lia) ltac:(lia)). lia.
Qed.

Lemma int32_range z : - 2 ^ 31 <= int32 z < 2 ^ 31.
Proof.
unfold int32.
pose proof (Z.mod_pos_bound (z + 2 ^ 31) (2 ^ 32) ltac:(lia)). lia.
Qed.

(** The sum of two [size_type] values wraps at most once. *)
Lemma int64_cases z :
- 2 ^ 64 <= z < 2 ^ 64 →
(- 2 ^ 63 <= z < 2 ^ 63 ∧ int64 z = z)
∨ (2 ^ 63 <= z ∧ int64 z = z - 2 ^ 64)
∨ (z < - 2 ^ 63 ∧ int64 z = z + 2 ^ 64).
Proof.
intros H. unfold int64.
destruct (Z_lt_le_dec z (- 2 ^ 63)) as [Hlo|Hlo];
  [|destruct (Z_lt_le_dec z (2 ^ 63)) as [Hhi|Hhi]].
- right. right. split; [done|].
  replace (z + 2 ^ 63) with ((z + 2 ^ 64 + 2 ^ 63) + (-1) * 2 ^ 64) by lia.
  rewrite Z_mod_plus_full, Z.mod_small; lia.
- left. split; [lia|]. rewrite Z.mod_small; lia.
- right. left. split; [done|].
  replace (z + 2 ^ 63) with ((z - 2 ^ 64 + 2 ^ 63) + 1 * 2 ^ 64) by lia.
  rewrite Z_mod_plus_full, Z.mod_small; lia.
Qed.

Lemma in_size_type_spec z :
in_size_type z = true ↔ - 2 ^ 63 <= z < 2 ^ 63.
Proof.
unfold in_size_type. rewrite andb_true_iff, Z.leb_le, Z.ltb_lt. done.
Qed.

Lemma vget_Ok {A} (v : list A) i x :
vget v i = Ok x ↔ 0 <= i ∧ v !! Z.to_nat i = Some x.
Proof.
unfold vget. destruct (Z.ltb_spec i 0).
- split; [discriminate | lia].
- destruct (v !! Z.to_nat i) eqn:E; split; intros H'.
  + inversion H'; subst. done.
  + destruct H' as [_ H']. by inversion H'.
  + discriminate.
  + destruct H' as [_ H']. discriminate.
Qed.

Lemma vget_lt {A} (v : list A) i x :
vget v i = Ok x → 0 <= i < Z.of_nat (length v).
Proof.
intros [H1 H2]%vget_Ok. apply lookup_lt_Some in H2. lia.
Qed.

Lemma vset_Ok {A} (v : list A) i x v' :
vset v i x = Ok v' ↔
0 <= i < Z.of_nat (length v) ∧ v' = <[Z.to_nat i := x]> v.
Proof.
unfold vset. destruct (Z.ltb_spec i 0).
- split; [discriminate | lia].
- destruct (Nat.ltb_spec (Z.to_nat i) (length v)); split; intros H'.
  + inversion H'; subst. split; [lia | done].
  + destruct H' as [_ ->]. done.
  + discriminate.
  + lia.
Qed.

Lemma vget_vset {A} (v v' : list A) i j x :
vset v i x = Ok v' →
vget v' j = if bool_decide (j = i) then Ok x else vget v j.
Proof.
intros [Hi ->]%vset_Ok. unfold vget.
destruct (Z.ltb_spec j 0).
- case_bool_decide; [lia | done].
- case_bool_decide as E.
  + subst. rewrite list_lookup_insert_eq by lia. done.
  + rewrite list_lookup_insert_ne by lia. done.
Qed.


(** ** The constructed manager has empty tables (C10) *)

(** C10: the constructor leaves [m_piece_to_slot] and [m_slot_to_piece]
  empty, [check_pieces] is what resizes them to [N] entries of [-1], and
  on the constructed manager [read], [write] and [allocate_slots] all
  index an empty table: each of them is undefined behaviour, in both
  builds. *)
Theorem operations_before_check_pieces_undefined
  (assertions : bool) (info : torrent_info) (save_path : string)
  (d : disk) (buf : list Z) (piece_index offset size num_slots : Z) :
0 < num_pieces info →
piece_manager.m_piece_to_slot piece_manager.new_impl = []
∧ piece_manager.m_slot_to_piece piece_manager.new_impl = []
∧ resize (num_pieces info) (-1) [] =
    replicate (Z.to_nat (num_pieces info)) (-1)
∧ piece_manager.read assertions info save_path d piece_manager.new_impl
    buf piece_index offset size = Undefined
∧ piece_manager.write assertions info save_path d piece_manager.new_impl
    buf piece_index offset size = Undefined
∧ piece_manager.allocate_slots assertions info save_path d
    piece_manager.new_impl num_slots = Undefined.
Proof.
intros HN.
assert (Hinv : piece_manager.check_invariant assertions info
                 piece_manager.new_impl = Undefined).
{ unfold piece_manager.check_invariant.
  rewrite seqZ_cons by lia. reflexivity. }
assert (Hget : vget (A := Z) [] piece_index = Undefined).
{ unfold vget. destruct (piece_index <? 0); [done|].
  by rewrite lookup_nil. }
repeat split.
- unfold resize. rewrite take_nil. simpl. by rewrite Nat.sub_0_r.
- unfold piece_manager.read, assert_m. simpl. rewrite Hget.
  by destruct assertions.
- unfold piece_manager.write, piece_manager.slot_for_piece.
  by rewrite Hinv.
- unfold piece_manager.allocate_slots. by rewrite Hinv.
Qed.

Lemma operations_before_check_pieces_undefined_witness :
piece_manager.read true info_two_files "t" disk_first_missing
  piece_manager.new_impl [0; 0] 0 0 2 = Undefined.
Proof.
apply (operations_before_check_pieces_undefined true info_two_files "t"
         disk_first_missing [0; 0] 0 0 2 5).
simpl. lia.
Defined.

(** ** The last slot (C1) and the round trip (C3) *)

(** C1, at a failing input: the first file of the torrent is missing and
  the second holds foreign bytes, so after [check_pieces] slot 0 is
  unallocated and slots 1 and 2 are free.  [slot_for_piece 0] passes
  every assertion, returns the short last slot 2 and records it for
  piece 0. *)
Theorem last_slot_assigned_to_other_piece :
∃ m d' m',
  piece_manager.check_pieces true info_two_files "t" disk_first_missing
    piece_manager.new_impl never [false; false; false]
    = Ok (m, [false; false; false])
  ∧ piece_manager.m_free_slots m = [1; 2]
  ∧ piece_manager.slot_for_piece true info_two_files "t"
      disk_first_missing m 0 = Ok (d', m', 2)
  ∧ vget (piece_manager.m_piece_to_slot m') 0 = Ok 2
  ∧ vget (piece_manager.m_slot_to_piece m') 2 = Ok 0.
Proof.
eexists _, _, _. split; [vm_compute; reflexivity|].
split; [reflexivity|].
split; [vm_compute; reflexivity|].
split; reflexivity.
Qed.

(** C3, at a failing input: on the same torrent and disk, writing the two
  bytes [7;8] of piece 0 (whose size is 2) succeeds, and reading them
  back returns 1 and delivers only the first byte: the piece was put in
  the one-byte last slot. *)
Theorem write_then_read_loses_bytes :
∃ m d' m' r,
  piece_manager.check_pieces true info_two_files "t" disk_first_missing
    piece_manager.new_impl never [false; false; false]
    = Ok (m, [false; false; false])
  ∧ 0 + 2 <= piece_size info_two_files 0
  ∧ piece_manager.write true info_two_files "t" disk_first_missing m
      [7; 8] 0 0 2 = Ok (d', m')
  ∧ piece_manager.read true info_two_files "t" d' m' [0; 0] 0 0 2 = Ok r
  ∧ storage.rr_result r = 1
  ∧ storage.rr_buf r = [7; 0].
Proof.
eexists _, _, _, _. split; [vm_compute; reflexivity|].
split; [vm_compute; discriminate|].
split; [vm_compute; reflexivity|].
split; [vm_compute; reflexivity|].
split; reflexivity.
Qed.

(** ** The candidate loop of the resume check (C4) *)

(** The test the loop applies to index [i] is [candidate]. *)
Lemma find_piece_step info pieces large small cs i cands acc have :
vget pieces i = Ok have →
default false (pieces !! Z.to_nat i) = have →
piece_manager.find_piece info pieces large small cs (i :: cands) acc =
piece_manager.find_piece info pieces large small cs cands
  (if candidate info pieces large small cs i then i else acc).
Proof.
intros Hget Hdef. simpl. rewrite Hget. simpl.
unfold candidate. rewrite Hdef.
destruct have, (i =? cs); simpl; try reflexivity;
  destruct (digest_eq _ _); reflexivity.
Qed.

Lemma find_piece_last info pieces large small cs cands acc :
StronglySorted Z.lt cands →
Forall (λ i, 0 <= i < Z.of_nat (length pieces)) cands →
∃ r, piece_manager.find_piece info pieces large small cs cands acc = Ok r
     ∧ ((r = acc ∧ ∀ i, i ∈ cands →
                    candidate info pieces large small cs i = false)
        ∨ (r ∈ cands ∧ candidate info pieces large small cs r = true
           ∧ ∀ i, i ∈ cands → r < i →
                  candidate info pieces large small cs i = false)).
Proof.
intros Hs. revert acc. induction Hs as [|i cands Hs IH Hlt]; intros acc Hr.
- exists acc. split; [done|]. left. split; [done|]. intros i Hi.
  by apply elem_of_nil in Hi.
- apply Forall_cons in Hr as [Hi Hr].
  destruct (lookup_lt_is_Some_2 pieces (Z.to_nat i)) as [have Hhave];
    [lia|].
  erewrite find_piece_step;
    [| apply vget_Ok; split; [lia | exact Hhave] | by rewrite Hhave].
  destruct (IH (if candidate info pieces large small cs i then i else acc)
               Hr) as (r & Hrun & Hcase).
  exists r. split; [done|].
  destruct Hcase as [[-> Hnone] | (Hin & Hc & Hafter)].
  + destruct (candidate info pieces large small cs i) eqn:Hci.
    * right. split; [left|]. split; [done|].
      intros j [->|Hj]%elem_of_cons Hij; [lia | by apply Hnone].
    * left. split; [done|].
      intros j [->|Hj]%elem_of_cons; [done | by apply Hnone].
  + right. split; [by right|]. split; [done|].
    intros j [->|Hj]%elem_of_cons Hrj; [| by apply Hafter].
    rewrite Forall_forall in Hlt. specialize (Hlt r Hin). lia.
Qed.

Lemma seqZ_sorted m n : StronglySorted Z.lt (seqZ m n).
Proof.
destruct (Z.le_gt_cases n 0) as [Hn|Hn].
- rewrite seqZ_nil by done. constructor.
- rewrite <- (Z2Nat.id n) by lia. generalize (Z.to_nat n) as k.
  intros k. revert m. induction k as [|k IH]; intros m.
  + simpl. rewrite seqZ_nil by done. constructor.
  + rewrite seqZ_cons by lia. constructor.
    * replace (Z.pred (Z.of_nat (S k))) with (Z.of_nat k) by lia. apply IH.
    * apply Forall_seqZ. lia.
Qed.

(** On the candidates [current_slot, ..., N-1] the loop ends with the
  last index that passes the test, or with [-1] when none does. *)
Lemma find_piece_range info pieces large small cs :
0 <= cs → Z.of_nat (length pieces) = num_pieces info →
∃ r, piece_manager.find_piece info pieces large small cs
       (seqZ cs (num_pieces info - cs)) (-1) = Ok r
     ∧ ((r = -1 ∧ ∀ i, cs <= i < num_pieces info →
                    candidate info pieces large small cs i = false)
        ∨ (cs <= r < num_pieces info
           ∧ candidate info pieces large small cs r = true
           ∧ ∀ i, r < i < num_pieces info →
                  candidate info pieces large small cs i = false)).
Proof.
intros Hcs Hlen.
destruct (find_piece_last info pieces large small cs
            (seqZ cs (num_pieces info - cs)) (-1)) as (r & Hrun & Hcase).
- apply seqZ_sorted.
- apply Forall_seqZ. lia.
- exists r. split; [done|].
  destruct Hcase as [[-> Hnone] | (Hin & Hc & Hafter)].
  + left. split; [done|]. intros i Hi. apply Hnone, elem_of_seqZ. lia.
  + apply elem_of_seqZ in Hin. right. split; [lia|]. split; [done|].
    intros i Hi. apply Hafter; [apply elem_of_seqZ|]; lia.
Qed.

(** What [classify_slot] does once the candidate loop has ended with
  [found]. *)
Lemma classify_slot_found assertions info m pieces data cs found m' pieces' :
piece_manager.find_piece info pieces
  (hash_of (take (Z.to_nat (piece_length info)) data))
  (hash_of (take (Z.to_nat (piece_size info (num_pieces info - 1))) data))
  cs (seqZ cs (num_pieces info - cs)) (-1) = Ok found →
piece_manager.classify_slot assertions info m pieces data cs
  = Ok (m', pieces') →
if found =? -1 then
  vset (piece_manager.m_slot_to_piece m) cs (-2)
    = Ok (piece_manager.m_slot_to_piece m')
  ∧ piece_manager.m_free_slots m' = piece_manager.m_free_slots m ++ [cs]
  ∧ piece_manager.m_piece_to_slot m' = piece_manager.m_piece_to_slot m
  ∧ piece_manager.m_bytes_left m' = piece_manager.m_bytes_left m
  ∧ piece_manager.m_unallocated_slots m'
      = piece_manager.m_unallocated_slots m
  ∧ pieces' = pieces
else
  ∃ have s2p,
    vget pieces found = Ok have
    ∧ (if have then
         ∃ old, vget (piece_manager.m_piece_to_slot m) found = Ok old
                ∧ vset (piece_manager.m_slot_to_piece m) old (-2) = Ok s2p
                ∧ piece_manager.m_free_slots m'
                    = piece_manager.m_free_slots m ++ [old]
                ∧ piece_manager.m_bytes_left m'
                    = piece_manager.m_bytes_left m
       else
         s2p = piece_manager.m_slot_to_piece m
         ∧ piece_manager.m_free_slots m' = piece_manager.m_free_slots m
         ∧ piece_manager.m_bytes_left m'
             = piece_manager.m_bytes_left m - piece_size info found)
    ∧ vset (piece_manager.m_piece_to_slot m) found cs
        = Ok (piece_manager.m_piece_to_slot m')
    ∧ vset s2p cs found = Ok (piece_manager.m_slot_to_piece m')
    ∧ vset pieces found true = Ok pieces'
    ∧ piece_manager.m_unallocated_slots m'
        = piece_manager.m_unallocated_slots m.
Proof.
intros Hfind H. unfold piece_manager.classify_slot in H.
rewrite Hfind in H. simpl in H.
destruct (found =? -1) eqn:Hf; simpl in H.
- bind_inv H. inversion H; subst; simpl. by rewrite Ha.
- bind_inv H. exists a. bind_inv H. destruct a0 as [[s2p free] bl].
  exists s2p. split; [done|]. bind_inv H. bind_inv H. bind_inv H.
  inversion H; subst; simpl. rewrite Ha1, Ha2, Ha3.
  split; [|done].
  destruct a.
  + bind_inv Ha0 as u Hu. bind_inv Ha0 as old Hold.
    bind_inv Ha0 as s2p' Hs2p'. inversion Ha0; subst.
    exists old. done.
  + inversion Ha0; subst. done.
Qed.

(** C4 (amended): in [check_pieces] the candidates for the buffer of
  [current_slot] are [current_slot, ..., N-1] in ascending order, those
  already present being skipped except [current_slot] itself, and the
  piece recorded for the slot is the last candidate whose digest
  matches (the loop does not stop at a match); with no match the slot
  is marked free. *)
Theorem classify_slot_records_last_match
  (assertions : bool) (info : torrent_info) (m m' : piece_manager.impl)
  (pieces pieces' : list bool) (data : list Z) (cs : Z) :
let large := hash_of (take (Z.to_nat (piece_length info)) data) in
let small :=
  hash_of (take (Z.to_nat (piece_size info (num_pieces info - 1))) data) in
0 <= cs →
Z.of_nat (length pieces) = num_pieces info →
piece_manager.classify_slot assertions info m pieces data cs
  = Ok (m', pieces') →
((∀ i, cs <= i < num_pieces info →
       candidate info pieces large small cs i = false)
 ∧ vget (piece_manager.m_slot_to_piece m') cs = Ok (-2))
∨ (∃ found,
     cs <= found < num_pieces info
     ∧ candidate info pieces large small cs found = true
     ∧ (∀ i, found < i < num_pieces info →
             candidate info pieces large small cs i = false)
     ∧ vget (piece_manager.m_slot_to_piece m') cs = Ok found
     ∧ vget (piece_manager.m_piece_to_slot m') found = Ok cs).
Proof.
intros large small Hcs Hlen H.
destruct (find_piece_range info pieces large small cs Hcs Hlen)
  as (r & Hrun & Hcase).
pose proof (classify_slot_found _ _ _ _ _ _ _ _ _ Hrun H) as Hrec.
destruct Hcase as [[-> Hnone] | (Hin & Hc & Hafter)].
- left. split; [done|]. simpl in Hrec. destruct Hrec as (Hs & _).
  rewrite (vget_vset _ _ _ cs _ Hs). by rewrite bool_decide_eq_true_2.
- right. exists r. destruct (Z.eqb_spec r (-1)) as [->|Hne]; [lia|].
  destruct Hrec as (have & s2p & _ & _ & Hp & Hs & _).
  repeat split; try done; try lia.
  + rewrite (vget_vset _ _ _ cs _ Hs). by rewrite bool_decide_eq_true_2.
  + rewrite (vget_vset _ _ _ r _ Hp). by rewrite bool_decide_eq_true_2.
Qed.

Lemma classify_slot_records_last_match_witness :
∃ m' pieces',
  piece_manager.classify_slot true info_twins fresh3
    [false; false; false] [1; 2] 0 = Ok (m', pieces')
  ∧ vget (piece_manager.m_slot_to_piece m') 0 = Ok 1.
Proof.
eexists _, _. split; [vm_compute; reflexivity|].
destruct (classify_slot_records_last_match true info_twins fresh3 _
            [false; false; false] _ [1; 2] 0
            ltac:(lia) ltac:(reflexivity) ltac:(vm_compute; reflexivity))
  as [[_ H] | (found & _ & _ & _ & H & _)];
  vm_compute in H |- *; [discriminate | reflexivity].
Defined.

(** C4 as stated fails: both pieces 0 and 1 of [info_twins] have the
  content [1;2].  For the buffer [1;2] of slot 0 the first candidate
  that matches is piece 0, and the piece recorded for slot 0 is
  piece 1. *)
Lemma first_match_is_not_recorded :
first_match info_twins [false; false; false] (hash_of [1; 2])
  (hash_of [1]) 0 (seqZ 0 3) = 0
∧ ∃ m' pieces',
    piece_manager.classify_slot true info_twins fresh3
      [false; false; false] [1; 2] 0 = Ok (m', pieces')
    ∧ vget (piece_manager.m_slot_to_piece m') 0 = Ok 1
    ∧ vget (piece_manager.m_piece_to_slot m') 0 = Ok (-1).
Proof.
split; [vm_compute; reflexivity|].
eexists _, _. split; [vm_compute; reflexivity|].
split; reflexivity.
Qed.

(** The resume check on a disk that holds the whole payload of
    [info_twins]: slot 0 is recorded for piece 1, slot 1 matches piece 1
    again and takes it over, and piece 0 is reported missing. *)
Lemma twins_resume_misses_first_piece :
  ∃ m,
    piece_manager.check_pieces true info_twins "t" disk_twins
      piece_manager.new_impl never [false; false; false]
      = Ok (m, [false; true; true])
    ∧ piece_manager.m_piece_to_slot m = [-1; 1; 2]
    ∧ piece_manager.m_slot_to_piece m = [-2; 1; 2]
    ∧ piece_manager.m_free_slots m = [0]
    ∧ piece_manager.m_bytes_left m = 2.
Proof.
  eexists. split; [vm_compute; reflexivity|]. repeat split.
Qed.

(** ** A piece found a second time (C7) *)

(** C7 (amended): in [check_pieces] the buffer of a slot is compared with
  a piece that was already found only if that piece is [current_slot]
  itself.  When the buffer of slot [cs] matches piece [cs], found
  before at an earlier slot [old], and no later candidate matches, the
  earlier slot is demoted ([m_slot_to_piece[old]] becomes [-2] and [old]
  is pushed onto [m_free_slots]), slot [cs] is recorded for the piece in
  both tables and [m_bytes_left] is left alone.  A match with any other
  piece found before is ignored: that piece keeps its slot and the slot
  keeps the piece; [m_slot_to_piece] changes only at [cs] and at the
  earlier slot of piece [cs], and only one of these two can be pushed
  onto [m_free_slots].  [m_bytes_left] goes down only on the first
  discovery of a piece, by the size of that piece. *)
Theorem duplicate_match_only_for_current_slot
  (assertions : bool) (info : torrent_info) (m m' : piece_manager.impl)
  (pieces pieces' : list bool) (data : list Z) (cs : Z) :
let large := hash_of (take (Z.to_nat (piece_length info)) data) in
let small :=
  hash_of (take (Z.to_nat (piece_size info (num_pieces info - 1))) data) in
0 <= cs →
Z.of_nat (length pieces) = num_pieces info →
piece_manager.classify_slot assertions info m pieces data cs
  = Ok (m', pieces') →
(vget pieces cs = Ok true →
 digest_eq (if cs =? num_pieces info - 1 then small else large)
           (hash_for_piece info cs) = true →
 (∀ i, cs < i < num_pieces info →
       candidate info pieces large small cs i = false) →
 ∀ old, vget (piece_manager.m_piece_to_slot m) cs = Ok old → old ≠ cs →
   vget (piece_manager.m_slot_to_piece m') old = Ok (-2)
   ∧ piece_manager.m_free_slots m' = piece_manager.m_free_slots m ++ [old]
   ∧ vget (piece_manager.m_piece_to_slot m') cs = Ok cs
   ∧ vget (piece_manager.m_slot_to_piece m') cs = Ok cs
   ∧ piece_manager.m_bytes_left m' = piece_manager.m_bytes_left m)
∧ (∀ p s, p ≠ cs → vget pieces p = Ok true →
     vget (piece_manager.m_piece_to_slot m) p = Ok s →
     vget (piece_manager.m_piece_to_slot m') p = Ok s
     ∧ vget pieces' p = Ok true
     ∧ (s ≠ cs → vget (piece_manager.m_piece_to_slot m) cs ≠ Ok s →
        vget (piece_manager.m_slot_to_piece m') s
        = vget (piece_manager.m_slot_to_piece m) s))
∧ (piece_manager.m_free_slots m' = piece_manager.m_free_slots m
   ∨ piece_manager.m_free_slots m' = piece_manager.m_free_slots m ++ [cs]
   ∨ ∃ old, vget pieces cs = Ok true
            ∧ vget (piece_manager.m_piece_to_slot m) cs = Ok old
            ∧ piece_manager.m_free_slots m'
              = piece_manager.m_free_slots m ++ [old])
∧ (piece_manager.m_bytes_left m' = piece_manager.m_bytes_left m
   ∨ ∃ found, vget pieces found = Ok false
              ∧ vget pieces' found = Ok true
              ∧ candidate info pieces large small cs found = true
              ∧ vget (piece_manager.m_piece_to_slot m') found = Ok cs
              ∧ piece_manager.m_bytes_left m'
                = piece_manager.m_bytes_left m - piece_size info found).
Proof.
intros large small Hcs Hlen H.
destruct (find_piece_range info pieces large small cs Hcs Hlen)
  as (r & Hfind & Hr).
pose proof (classify_slot_found _ _ _ _ _ _ _ _ _ Hfind H) as Hrec.
assert (Hhave : ∀ p, vget pieces p = Ok true →
          default false (pieces !! Z.to_nat p) = true).
{ intros p [_ Hp]%vget_Ok. by rewrite Hp. }
assert (Hother : ∀ p, p ≠ cs → vget pieces p = Ok true → r ≠ p).
{ intros p Hp Htrue ->. destruct Hr as [[-> _]|(_ & Hcand & _)].
  - apply vget_lt in Htrue. lia.
  - unfold candidate in Hcand. rewrite (Hhave _ Htrue) in Hcand.
    destruct (Z.eqb_spec p cs); [done | discriminate]. }
destruct (Z.eqb_spec r (-1)) as [->|Hne].
- destruct Hrec as (Hs & Hfree & Hp & Hleft & _ & ->).
  split; [|split; [|split; [|by left]]].
  + intros Htrue Hdig _. destruct Hr as [[_ Hnone]|(? & _)]; [|lia].
    specialize (Hnone cs ltac:(apply vget_lt in Htrue; lia)).
    unfold candidate in Hnone. rewrite Z.eqb_refl, orb_true_r in Hnone.
    simpl in Hnone. congruence.
  + intros p s Hp' Htrue Hps. rewrite Hp. split; [done|]. split; [done|].
    intros Hsc _. rewrite (vget_vset _ _ _ s _ Hs).
    by rewrite bool_decide_eq_false_2.
  + right. by left.
- destruct Hr as [[? _]|(Hrange & Hcand & Hlater)]; [done|].
  destruct Hrec as (have & s2p & Hhv & Hbranch & Hp & Hs & Hpc & _).
  assert (Hp' : vget (piece_manager.m_piece_to_slot m') r = Ok cs).
  { rewrite (vget_vset _ _ _ r _ Hp). by rewrite bool_decide_eq_true_2. }
  assert (Hs' : vget (piece_manager.m_slot_to_piece m') cs = Ok r).
  { rewrite (vget_vset _ _ _ cs _ Hs). by rewrite bool_decide_eq_true_2. }
  split; [|split; [|split]].
  + intros Htrue Hdig Hnone old Hold Hneq.
    assert (r = cs) as ->.
    { destruct (Z.eq_dec r cs) as [|Hd]; [done|].
      rewrite Hnone in Hcand by lia. discriminate. }
    rewrite Htrue in Hhv. inversion Hhv; subst have.
    destruct Hbranch as (old' & Hold' & Hdem & Hfree & Hleft).
    rewrite Hold in Hold'. inversion Hold'; subst old'.
    repeat split; try done.
    rewrite (vget_vset _ _ _ old _ Hs).
    rewrite bool_decide_eq_false_2 by done.
    rewrite (vget_vset _ _ _ old _ Hdem). by rewrite bool_decide_eq_true_2.
  + intros p s Hpc' Htrue Hps.
    pose proof (Hother p Hpc' Htrue) as Hrp.
    split; [|split].
    * rewrite (vget_vset _ _ _ p _ Hp).
      by rewrite bool_decide_eq_false_2.
    * rewrite (vget_vset _ _ _ p _ Hpc).
      by rewrite bool_decide_eq_false_2.
    * intros Hsc Hsold. rewrite (vget_vset _ _ _ s _ Hs).
      rewrite bool_decide_eq_false_2 by done.
      destruct have.
      -- destruct Hbranch as (old' & Hold' & Hdem & _).
         assert (r = cs) as ->.
         { destruct (Z.eq_dec r cs) as [|Hd]; [done|]. exfalso.
           by apply (Hother r Hd Hhv). }
         rewrite (vget_vset _ _ _ s _ Hdem).
         rewrite bool_decide_eq_false_2; [done|].
         intros ->. by apply Hsold.
      -- by destruct Hbranch as (-> & _).
  + destruct have.
    * destruct Hbranch as (old' & Hold' & _ & Hfree & _).
      right. right. exists old'.
      assert (r = cs) as ->.
      { destruct (Z.eq_dec r cs) as [|Hd]; [done|]. exfalso.
        by apply (Hother r Hd Hhv). }
      done.
    * destruct Hbranch as (_ & Hfree & _). by left.
  + destruct have.
    * destruct Hbranch as (old' & _ & _ & _ & Hleft). by left.
    * destruct Hbranch as (_ & _ & Hleft). right. exists r.
      repeat split; try done.
      rewrite (vget_vset _ _ _ r _ Hpc). by rewrite bool_decide_eq_true_2.
Qed.

(** In [info_twins] with the disk holding the whole payload, slot 1 is
  reached with piece 1 already recorded at slot 0; the buffer [1;2]
  matches piece 1 again and slot 0 is demoted. *)
Lemma duplicate_match_only_for_current_slot_witness :
let m := {| piece_manager.m_bytes_left := 3;
            piece_manager.m_piece_to_slot := [-1; 0; -1];
            piece_manager.m_unallocated_slots := [];
            piece_manager.m_free_slots := [];
            piece_manager.m_slot_to_piece := [1; -1; -1] |} in
∃ m' pieces',
  piece_manager.classify_slot true info_twins m [false; true; false]
    [1; 2] 1 = Ok (m', pieces')
  ∧ vget (piece_manager.m_slot_to_piece m') 0 = Ok (-2)
  ∧ piece_manager.m_free_slots m' = [0]
  ∧ vget (piece_manager.m_piece_to_slot m') 1 = Ok 1
  ∧ vget (piece_manager.m_slot_to_piece m') 1 = Ok 1
  ∧ piece_manager.m_bytes_left m' = 3.
Proof.
intros m. eexists _, _. split; [vm_compute; reflexivity|].
refine (proj1 (duplicate_match_only_for_current_slot true info_twins m _
                 [false; true; false] _ [1; 2] 1 _ _ _) _ _ _ 0 _ _).
- lia.
- reflexivity.
- vm_compute; reflexivity.
- reflexivity.
- vm_compute; reflexivity.
- intros i Hi. change (num_pieces info_twins) with 3 in Hi.
  assert (i = 2) as -> by lia. vm_compute; reflexivity.
- reflexivity.
- lia.
Defined.

(** C7 as stated fails: in [info_one_file] the last piece is the byte 5
  and [disk_repeated] holds a 5 at the start of slot 0 and of slot 1.
  [check_pieces] finds piece 2 in slot 0.  The buffer of slot 1 matches
  piece 2 again (its first [last_piece_size] bytes have the hash of
  piece 2), but the candidate loop skips piece 2 because it is already
  found and is not [current_slot]: slot 0 is not demoted and keeps the
  piece, and slot 1, not slot 0, is pushed onto [m_free_slots]. *)
Lemma earlier_slot_keeps_matching_piece :
digest_eq (hash_of (take (Z.to_nat (piece_size info_one_file 2)) [5; 9]))
          (hash_for_piece info_one_file 2) = true
∧ vget [false; false; true] 2 = Ok true
∧ vget (piece_manager.m_piece_to_slot last_in_first) 2 = Ok 0
∧ (∃ m' pieces',
     piece_manager.classify_slot true info_one_file last_in_first
       [false; false; true] [5; 9] 1 = Ok (m', pieces')
     ∧ vget (piece_manager.m_slot_to_piece m') 0 = Ok 2
     ∧ vget (piece_manager.m_slot_to_piece m') 0 ≠ Ok (-2)
     ∧ piece_manager.m_free_slots m' = [1]
     ∧ vget (piece_manager.m_piece_to_slot m') 2 = Ok 0
     ∧ vget (piece_manager.m_slot_to_piece m') 1 = Ok (-2))
∧ (∃ m,
     piece_manager.check_pieces true info_one_file "t" disk_repeated
       piece_manager.new_impl never [false; false; false]
       = Ok (m, [false; false; true])
     ∧ piece_manager.m_piece_to_slot m = [-1; -1; 0]
     ∧ piece_manager.m_slot_to_piece m = [2; -2; -1]
     ∧ piece_manager.m_free_slots m = [1]
     ∧ piece_manager.m_unallocated_slots m = [2]).
Proof.
split; [vm_compute; reflexivity|]. split; [reflexivity|].
split; [reflexivity|]. split.
- eexists _, _. split; [vm_compute; reflexivity|].
  repeat split; try reflexivity. discriminate.
- eexists. split; [vm_compute; reflexivity|]. repeat split.
Qed.

(** ** Reading a slot (C5) *)

Lemma sum_sizes_nonneg fl : Forall (λ f, 0 < f_size f) fl → 0 <= sum_sizes fl.
Proof.
induction 1 as [|f fl Hf _ IH]; simpl; [done|]. unfold sum_sizes in *.
simpl. lia.
Qed.

Lemma sum_sizes_app fl1 fl2 :
sum_sizes (fl1 ++ fl2) = sum_sizes fl1 + sum_sizes fl2.
Proof.
unfold sum_sizes. induction fl1 as [|f fl1 IH]; simpl; [done|].
rewrite IH. lia.
Qed.

Lemma vbyte_app save_path d pre fl x :
Forall (λ f, 0 < f_size f) pre → 0 <= x →
vbyte save_path d (pre ++ fl) (sum_sizes pre + x) = vbyte save_path d fl x.
Proof.
intros Hpre Hx. induction Hpre as [|f pre Hf Hpre IH]; simpl.
- f_equal; unfold sum_sizes; simpl; lia.
- pose proof (sum_sizes_nonneg pre Hpre).
  change (sum_sizes (f :: pre)) with (f_size f + sum_sizes pre).
  destruct (Z.ltb_spec (f_size f + sum_sizes pre + x) (f_size f)); [lia|].
  rewrite <- IH. f_equal. lia.
Qed.

(** [locate] finds the file that holds address [a], and the offset of
  [a] in it. *)
Lemma locate_spec fl a fl' fo :
Forall (λ f, 0 < f_size f) fl → 0 <= a →
storage.locate fl a = Ok (fl', fo) →
∃ pre f rest, fl = pre ++ fl' ∧ fl' = f :: rest
              ∧ a = sum_sizes pre + fo ∧ 0 <= fo < f_size f.
Proof.
intros Hwf. revert a. induction Hwf as [|f fl Hf Hwf IH]; intros a Ha H.
- discriminate.
- simpl in H. destruct (Z.ltb_spec a (f_size f)).
  + inversion H; subst. exists [], f, fl. done.
  + apply IH in H; [|lia]. destruct H as (pre & f' & rest & -> & -> & E & B).
    exists (f :: pre), f', rest. repeat split; try done; try lia.
    change (sum_sizes (f :: pre)) with (f_size f + sum_sizes pre). lia.
Qed.

Lemma ifs_seekg_open d p :
ifs_seekg (ifs_open d p) 0 = ifs_open d p.
Proof. unfold ifs_open. by destruct (d !! p). Qed.

(** What one [in.read] delivers from a file opened and positioned at
  [fo]. *)
Lemma ifs_read_open d p fo n :
0 <= fo →
(ifs_read (ifs_seekg (ifs_open d p) fo) n).1 =
match d !! p with
| Some c => take (Z.to_nat n) (drop (Z.to_nat fo) c)
| None => []
end.
Proof.
intros Hfo. unfold ifs_open. destruct (d !! p) as [c|]; [|done].
unfold ifs_seekg, ifs_read. simpl.
destruct (Z.leb_spec 0 fo); [done | lia].
Qed.

Lemma got_lookup d p fo n (i : nat) :
0 <= fo →
(ifs_read (ifs_seekg (ifs_open d p) fo) n).1 !! i =
if decide (Z.of_nat i < n) then c ← d !! p; c !! (Z.to_nat fo + i)%nat
else None.
Proof.
intros Hfo. rewrite ifs_read_open by done.
destruct (d !! p) as [c|]; simpl.
- case_decide.
  + rewrite lookup_take_lt by lia. by rewrite lookup_drop.
  + apply lookup_take_ge. lia.
- rewrite lookup_nil. by case_decide.
Qed.

Lemma got_length d p fo n :
0 <= fo →
Z.of_nat (length (ifs_read (ifs_seekg (ifs_open d p) fo) n).1) <= Z.max 0 n.
Proof.
intros Hfo. rewrite ifs_read_open by done.
destruct (d !! p) as [c|]; simpl; [|lia].
rewrite length_take. lia.
Qed.

Lemma buf_store_spec buf pos data buf' :
0 <= pos →
buf_store buf pos data = Ok buf' →
length buf' = length buf
∧ ∀ k : nat,
    buf' !! k =
    if decide (pos <= Z.of_nat k < pos + Z.of_nat (length data))
    then data !! (k - Z.to_nat pos)%nat else buf !! k.
Proof.
intros Hpos H. unfold buf_store in H. case_bool_decide as E.
- inversion H; subst. split; [done|]. intros k. simpl.
  case_decide; [lia | done].
- destruct (Z.ltb_spec pos 0); [lia|]. simpl in H.
  destruct (Z.ltb_spec (Z.of_nat (length buf))
              (pos + Z.of_nat (length data))); [discriminate|].
  inversion H; subst; clear H. split.
  + rewrite !length_app, length_take, length_drop. lia.
  + intros k. case_decide as Hk.
    * rewrite lookup_app_r by (rewrite length_take; lia).
      rewrite length_take. rewrite lookup_app_l by lia.
      f_equal. lia.
    * destruct (decide (Z.of_nat k < pos)).
      -- rewrite lookup_app_l by (rewrite length_take; lia).
         by rewrite lookup_take_lt by lia.
      -- rewrite lookup_app_r by (rewrite length_take; lia).
         rewrite length_take.
         rewrite lookup_app_r by lia.
         rewrite lookup_drop. f_equal. lia.
Qed.

Lemma vbyte_cons_lt save_path d f fl a :
0 <= a < f_size f →
vbyte save_path d (f :: fl) a =
c ← d !! file_path save_path f; c !! Z.to_nat a.
Proof.
intros Ha. simpl.
destruct (Z.ltb_spec a (f_size f)); [|lia].
destruct (Z.ltb_spec a 0); [lia | done].
Qed.

Lemma vbyte_cons_ge save_path d f fl a :
f_size f <= a →
vbyte save_path d (f :: fl) a = vbyte save_path d fl (a - f_size f).
Proof.
intros Ha. simpl. destruct (Z.ltb_spec a (f_size f)); [lia | done].
Qed.

Lemma read_loop_spec assertions save_path d fl :
Forall (λ f, 0 < f_size f) fl →
∀ f rest fo n bp buf actual buf' actual',
fl = f :: rest →
0 <= fo < f_size f → 0 < n → 0 <= bp → bp + n < 2 ^ 31 →
storage.read_loop assertions save_path d fl
  (ifs_seekg (ifs_open d (file_path save_path f)) fo) fo n bp buf actual
  = Ok (buf', actual') →
length buf' = length buf
∧ (∀ k : nat, buf' !! k =
      if decide (bp <= Z.of_nat k < bp + n) then
        match vbyte save_path d fl (fo + (Z.of_nat k - bp)) with
        | Some b => Some b
        | None => buf !! k
        end
      else buf !! k)
∧ (assertions = true → actual' = actual + n).
Proof.
induction 1 as [|f0 fl Hf0 Hwf IH];
  intros f rest fo n bp buf actual buf' actual' E Hfo Hleft Hbp Hsum H;
  [discriminate|].
inversion E; subst f0 fl; clear E.
simpl in H.
rewrite (int32_small n) in H by lia.
set (rb := if fo + n >? f_size f then int32 (f_size f - fo) else n)
  in H.
assert (Hrb : rb = Z.min n (f_size f - fo)).
{ subst rb. destruct (Z.gtb_spec (fo + n) (f_size f)).
  - rewrite int32_small by lia. lia.
  - lia. }
clearbody rb.
bind_inv H as u1 Hu1.
destruct (ifs_read _ rb) as [got in'] eqn:Eread.
assert (Hgot : got = (ifs_read (ifs_seekg (ifs_open d (file_path save_path f)) fo) rb).1)
  by (by rewrite Eread).
bind_inv H as buf1 Hbuf1.
pose proof (got_length d (file_path save_path f) fo rb ltac:(lia)) as Hlen.
rewrite <- Hgot in Hlen.
rewrite (int32_small (Z.of_nat (length got))) in H by lia.
bind_inv H as u2 Hu2.
rewrite (int32_small (bp + rb)) in H by lia.
bind_inv H as u3 Hu3.
apply buf_store_spec in Hbuf1 as [Hlen1 Hbuf1]; [|lia].
assert (Hk1 : ∀ k : nat, bp <= Z.of_nat k < bp + rb →
          buf1 !! k = match vbyte save_path d (f :: rest) (fo + (Z.of_nat k - bp)) with
                      | Some b => Some b | None => buf !! k end).
{ intros k Hk. rewrite Hbuf1. rewrite vbyte_cons_lt by lia.
  pose proof (got_lookup d (file_path save_path f) fo rb (k - Z.to_nat bp)%nat ltac:(lia)) as Hg.
  rewrite <- Hgot in Hg.
  rewrite decide_True in Hg by lia.
  replace (Z.to_nat fo + (k - Z.to_nat bp))%nat with (Z.to_nat (fo + (Z.of_nat k - bp))) in Hg by lia.
  simpl in Hg. rewrite <- Hg.
  case_decide as Hin.
  - destruct (lookup_lt_is_Some_2 got (k - Z.to_nat bp)%nat) as [b Hb];
      [lia|]. by rewrite Hb.
  - assert (got !! (k - Z.to_nat bp)%nat = None) as Hn
      by (apply lookup_ge_None; lia).
    by rewrite Hn. }
rewrite (int64_small (n - rb)) in H by lia.
destruct (Z.gtb_spec (n - rb) 0) as [Hmore|Hdone].
- destruct rest as [|f' rest']; [discriminate|].
  rewrite <- ifs_seekg_open in H.
  apply Forall_cons in Hwf as Hwf'. destruct Hwf' as [Hf' _].
  destruct (IH f' rest' 0 (n - rb) (bp + rb) buf1
              (actual + Z.of_nat (length got)) buf' actual' eq_refl
              ltac:(lia) ltac:(lia) ltac:(lia) ltac:(lia) H)
    as (Hlen2 & Hbuf2 & Hact).
  split; [congruence|]. split.
  + intros k. rewrite Hbuf2.
    case_decide as Hk2.
    * rewrite decide_True by lia.
      replace (0 + (Z.of_nat k - (bp + rb))) with (fo + (Z.of_nat k - bp) - f_size f) by lia.
      rewrite (vbyte_cons_ge _ _ f) by lia.
      destruct (vbyte _ _ _ _); [done|].
      rewrite Hbuf1. rewrite decide_False; [done|lia].
    * case_decide as Hk.
      -- apply Hk1. lia.
      -- rewrite Hbuf1. rewrite decide_False; [done|lia].
  + intros Hdbg. rewrite Hact by done.
    apply assert_b_Ok in Hu2; [|done]. lia.
- inversion H; subst; clear H.
  split; [done|]. split.
  + intros k. case_decide as Hk.
    * apply Hk1. lia.
    * rewrite Hbuf1. rewrite decide_False; [done|lia].
  + intros Hdbg. apply assert_b_Ok in Hu2; [|done]. lia.
Qed.

Lemma info_one_file_wf : info_wf info_one_file.
Proof. split; [vm_compute; done.. | repeat constructor | reflexivity]. Qed.


Lemma piece_size_le info i : info_wf info → 0 < piece_size info i <= piece_length info.
Proof.
intros [Hpl _ Hlast _ _]. unfold piece_size.
destruct (i <? num_pieces info - 1); lia.
Qed.

(** [read] on a valid request: the file and offset it starts at, and the
    run of the loop that produces its result. *)
Lemma read_inv assertions info save_path d buf slot offset size r :
  info_wf info → 0 <= slot → 0 < size →
  0 <= offset < piece_size info slot → offset + size < 2 ^ 63 →
  storage.read assertions info save_path d buf slot offset size = Ok r →
  let n := Z.min size (piece_size info slot - offset) in
  ∃ pre f rest fo buf' actual,
    files info = pre ++ f :: rest
    ∧ slot * piece_length info + offset = sum_sizes pre + fo
    ∧ 0 <= fo < f_size f
    ∧ 0 < n < 2 ^ 31
    ∧ storage.read_loop assertions save_path d (f :: rest)
        (ifs_seekg (ifs_open d (file_path save_path f)) fo) fo n 0 buf 0
      = Ok (buf', actual)
    ∧ r = {| storage.rr_result := n; storage.rr_buf := buf';
             storage.rr_actual := actual |}.
Proof.
  intros Hwf Hslot Hsize Hoff Hfit H n.
  pose proof (piece_size_le info slot Hwf) as Hps.
  destruct Hwf as [Hpl HN Hlast Hfiles Hh].
  unfold storage.read in H.
  destruct (in_size_type offset && in_size_type size); [|discriminate].
  cbn [negb] in H.
  bind_inv H as u0 Hu0. bind_inv H as loc Hloc. destruct loc as [fl' fo].
  apply locate_spec in Hloc as (pre & f & rest & Hfl & -> & Hstart & Hfo);
    [| done | nia].
  bind_inv H as u1 Hu1. bind_inv H as u2 Hu2.
  rewrite (int64_small (offset + size)) in H by lia.
  rewrite (int64_small (piece_size info slot - offset)) in H by lia.
  assert (Hn : (if offset + size >? piece_size info slot
                then piece_size info slot - offset else size) = n).
  { subst n. destruct (Z.gtb_spec (offset + size) (piece_size info slot)); lia. }
  rewrite Hn in H. bind_inv H as u3 Hu3.
  destruct (Z.gtb_spec n 0) as [_|?]; [|lia].
  bind_inv H as res Hres. destruct res as [buf' actual].
  exists pre, f, rest, fo, buf', actual.
  rewrite int32_small in H by lia. inversion H; subst r.
  repeat split; try done; lia.
Qed.

(** The buffer after a [read]. *)
Lemma read_buffer_spec assertions info save_path d buf slot offset size r :
  info_wf info → 0 <= slot → 0 < size →
  0 <= offset < piece_size info slot → offset + size < 2 ^ 63 →
  storage.read assertions info save_path d buf slot offset size = Ok r →
  ∀ k : nat,
    storage.rr_buf r !! k =
    if decide (Z.of_nat k < Z.min size (piece_size info slot - offset)) then
      match vbyte save_path d (files info)
              (slot * piece_length info + offset + Z.of_nat k) with
      | Some b => Some b
      | None => buf !! k
      end
    else buf !! k.
Proof.
  intros Hwf Hslot Hsize Hoff Hfit H.
  destruct (read_inv _ _ _ _ _ _ _ _ _ Hwf Hslot Hsize Hoff Hfit H)
    as (pre & f & rest & fo & buf' & actual & Hfl & Hstart & Hfo & Hn
        & Hloop & ->).
  destruct Hwf as [_ _ _ Hfiles _].
  rewrite Hfl in Hfiles. apply Forall_app in Hfiles as [Hpre Hfl'].
  eapply read_loop_spec in Hloop; [| done | reflexivity | lia..].
  destruct Hloop as (_ & Hbuf & _). simpl.
  intros k. rewrite Hbuf. case_decide as Hk.
  - rewrite decide_True by lia. rewrite Hfl, Hstart.
    replace (sum_sizes pre + fo + Z.of_nat k)
      with (sum_sizes pre + (fo + (Z.of_nat k - 0))) by lia.
    rewrite vbyte_app by (done || lia). done.
  - rewrite decide_False by lia. done.
Qed.

(** C5 (amended): for a request that starts inside the slot and whose end
    [offset + size] fits [size_type] (below [2^63]: the test
    [offset + left_to_read > slot_size] does not overflow),
    [storage::read] returns the request clamped to the slot,
    [min(size, piece_size(slot) - offset)], whatever the files hold, not
    the number of bytes it obtained.  Each of the first [n] buffer bytes
    receives the byte of the disk at its address where there is one and
    keeps its old value where the file is missing or too short (nothing
    is zero-filled); the rest of the buffer is untouched.  With assertions
    compiled in, [read] returns only when every byte was there. *)
Theorem read_returns_clamped_request
    (assertions : bool) (info : torrent_info) (save_path : string)
    (d : disk) (buf : list Z) (slot offset size : Z)
    (r : storage.read_result) :
  info_wf info → 0 <= slot → 0 < size →
  0 <= offset < piece_size info slot → offset + size < 2 ^ 63 →
  storage.read assertions info save_path d buf slot offset size = Ok r →
  let n := Z.min size (piece_size info slot - offset) in
  storage.rr_result r = n
  ∧ length (storage.rr_buf r) = length buf
  ∧ (∀ k : nat,
       storage.rr_buf r !! k =
       if decide (Z.of_nat k < n) then
         match vbyte save_path d (files info)
                 (slot * piece_length info + offset + Z.of_nat k) with
         | Some b => Some b
         | None => buf !! k
         end
       else buf !! k)
  ∧ (assertions = true → storage.rr_actual r = n).
Proof.
  intros Hwf Hslot Hsize Hoff Hfit H n.
  pose proof (read_buffer_spec _ _ _ _ _ _ _ _ _ Hwf Hslot Hsize Hoff Hfit H)
    as Hbuf.
  destruct (read_inv _ _ _ _ _ _ _ _ _ Hwf Hslot Hsize Hoff Hfit H)
    as (pre & f & rest & fo & buf' & actual & Hfl & Hstart & Hfo & Hn
        & Hloop & ->).
  destruct Hwf as [_ _ _ Hfiles _].
  rewrite Hfl in Hfiles. apply Forall_app in Hfiles as [_ Hfl'].
  eapply read_loop_spec in Hloop; [| done | reflexivity | lia..].
  destruct Hloop as (Hlen & _ & Hact). simpl in *.
  split; [done|]. split; [done|]. split; [exact Hbuf|].
  intros Hdbg. rewrite Hact by done. lia.
Qed.

Lemma read_returns_clamped_request_witness :
∃ r, storage.read false info_one_file "t" disk_truncated [7; 7] 1 0 2
     = Ok r
     ∧ storage.rr_result r = 2.
Proof.
eexists. split; [vm_compute; reflexivity|].
refine (proj1 (read_returns_clamped_request false info_one_file "t"
                 disk_truncated [7; 7] 1 0 2 _ info_one_file_wf _ _ _ _ _)).
- lia.
- lia.
- vm_compute. split; [discriminate | reflexivity].
- lia.
- vm_compute; reflexivity.
Defined.

(** C5 as stated fails: slot 1 of [info_one_file] is the address range
    [2, 4) and [disk_truncated] ends at address 3.  Without assertions,
    reading 2 bytes of slot 1 obtains one byte and returns 2; with
    assertions the same call stops at [assert(read_bytes == actual_read)]
    and returns nothing. *)
Lemma short_read_returns_request_size :
  (∃ r, storage.read false info_one_file "t" disk_truncated [7; 7] 1 0 2
        = Ok r
        ∧ storage.rr_actual r = 1
        ∧ storage.rr_result r = 2
        ∧ storage.rr_result r ≠ storage.rr_actual r
        ∧ storage.rr_buf r = [3; 7])
  ∧ storage.read true info_one_file "t" disk_truncated [7; 7] 1 0 2
    = AssertFail.
Proof.
  split; [|vm_compute; reflexivity].
  eexists. split; [vm_compute; reflexivity|]. simpl.
  repeat split; lia.
Qed.

(** ** Writing a slot (C9) *)

Lemma file_write_length c pos data :
  (length c <= length (file_write c pos data))%nat.
Proof.
  unfold file_write. case_bool_decide; [done|].
  rewrite !length_app, length_take, length_replicate, length_drop. lia.
Qed.

Lemma file_write_outside c pos data (k : nat) :
  0 <= pos → (k < length c)%nat →
  ¬ (pos <= Z.of_nat k < pos + Z.of_nat (length data)) →
  file_write c pos data !! k = c !! k.
Proof.
  intros Hpos Hk Hout. unfold file_write. case_bool_decide; [done|].
  destruct (decide (Z.of_nat k < pos)).
  - rewrite lookup_app_l by (rewrite length_take; lia).
    by rewrite lookup_take_lt by lia.
  - assert (Z.to_nat pos <= length c)%nat by lia.
    rewrite lookup_app_r by (rewrite length_take; lia).
    rewrite length_take.
    replace (Z.to_nat pos - length c)%nat with 0%nat by lia. simpl.
    rewrite lookup_app_r by lia.
    rewrite lookup_drop. f_equal. lia.
Qed.




Lemma preserved_refl W d : preserved W d d.
Proof. intros p c H. exists c. done. Qed.

Lemma preserved_trans W d1 d2 d3 :
  preserved W d1 d2 → preserved W d2 d3 → preserved W d1 d3.
Proof.
  intros H12 H23 p c Hc.
  destruct (H12 p c Hc) as (c2 & Hc2 & Hl2 & Hk2).
  destruct (H23 p c2 Hc2) as (c3 & Hc3 & Hl3 & Hk3).
  exists c3. split; [done|]. split; [lia|].
  intros k Hk HW. rewrite Hk3 by (lia || done). by apply Hk2.
Qed.

Lemma preserved_weaken (W W' : string → nat → Prop) d d' :
  (∀ p k, W p k → W' p k) → preserved W d d' → preserved W' d d'.
Proof.
  intros HW H p c Hc. destruct (H p c Hc) as (c' & Hc' & Hl & Hk).
  exists c'. split; [done|]. split; [done|]. intros k Hk' HnW.
  apply Hk; [done|]. intros HWk. by apply HnW, HW.
Qed.

Lemma preserved_open W d p : preserved W d (ofs_open d p).1.
Proof.
  unfold ofs_open. destruct (d !! p) eqn:E; simpl; [apply preserved_refl|].
  intros q c Hq. exists c. split; [|done].
  rewrite lookup_insert_ne; [done|]. intros ->. congruence.
Qed.

Lemma ofs_open_stream d p :
  (ofs_open d p).2 = {| out_good := true; out_path := p; out_pos := 0 |}.
Proof. unfold ofs_open. by destruct (d !! p). Qed.


Lemma buf_fetch_length buf pos n data :
  buf_fetch buf pos n = Ok data → Z.of_nat (length data) = Z.max 0 n.
Proof.
  unfold buf_fetch. destruct (Z.leb_spec n 0) as [Hn|Hn].
  - intros [= <-]. simpl. lia.
  - destruct (Z.ltb_spec pos 0) as [|Hpos]; [done|].
    destruct (Z.ltb_spec (Z.of_nat (length buf)) (pos + n)) as [|Hlen];
      [done|].
    intros [= <-]. rewrite length_take, length_drop. lia.
Qed.

(** What is left after a chunk of [int32 n] bytes is a multiple of
    [2^32]. *)
Lemma int32_left_over n : int32 (int64 (n - int32 n)) = 0.
Proof.
  assert (H32 : ∀ z q, z = q * 2 ^ 32 → int32 z = 0).
  { intros z q ->. unfold int32.
    rewrite Z.add_comm, Z_mod_plus_full. reflexivity. }
  assert (H1 : ∃ q, n - int32 n = q * 2 ^ 32).
  { exists ((n + 2 ^ 31) / 2 ^ 32). unfold int32.
    pose proof (Z.div_mod (n + 2 ^ 31) (2 ^ 32) ltac:(lia)). lia. }
  destruct H1 as [q Hq]. rewrite Hq.
  apply (H32 _ (q - (q * 2 ^ 32 + 2 ^ 63) / 2 ^ 64 * 2 ^ 32)).
  unfold int64.
  pose proof (Z.div_mod (q * 2 ^ 32 + 2 ^ 63) (2 ^ 64) ltac:(lia)). lia.
Qed.

(** With a multiple of [2^32] bytes left, every chunk is empty and the
    loop walks off the file list. *)
Lemma write_loop_stuck assertions save_path fl :
  Forall (λ f, 0 < f_size f) fl →
  ∀ d out n bp buf d',
  0 < n < 2 ^ 63 → int32 n = 0 →
  storage.write_loop assertions save_path d fl out 0 n bp buf ≠ Ok d'.
Proof.
  induction 1 as [|f fl Hf Hwf IH]; intros d out n bp buf d' Hn Hz H;
    [discriminate|].
  simpl in H. rewrite Hz in H.
  destruct (Z.gtb_spec (0 + 0) (f_size f)) as [|_]; [lia|].
  cbn [mbind result_bind] in H.
  bind_inv H as u1 Hu1. bind_inv H as u2 Hu2.
  bind_inv H as data Hdata.
  destruct (ofs_write d out data) as [d1 out1].
  rewrite Z.sub_0_r, (int64_small n) in H by lia.
  bind_inv H as u3 Hu3. bind_inv H as u4 Hu4.
  destruct (Z.gtb_spec n 0) as [_|]; [|lia].
  bind_inv H as u5 Hu5. destruct fl as [|f' fl']; [discriminate|].
  destruct (ofs_open d1 (file_path save_path f')) as [d2 out2].
  by eapply IH.
Qed.

(** The bytes that the loop of [storage::write] may change, for any
    number [n] of bytes left that [size_type] can hold. *)
Lemma write_loop_preserved assertions save_path fl :
  Forall (λ f, 0 < f_size f) fl →
  ∀ d f rest fo n bp buf d',
  fl = f :: rest →
  0 <= fo < f_size f → 0 < n < 2 ^ 63 →
  storage.write_loop assertions save_path d fl
    {| out_good := true; out_path := file_path save_path f; out_pos := fo |}
    fo n bp buf = Ok d' →
  preserved (loop_range save_path fl fo n) d d'.
Proof.
  induction 1 as [|f0 fl Hf0 Hwf IH];
    intros d f rest fo n bp buf d' E Hfo Hn H; [discriminate|].
  inversion E; subst f0 fl; clear E.
  simpl in H.
  pose proof (int32_range n) as Hr32.
  pose proof (int32_le n ltac:(lia)) as Hle32.
  bind_inv H as wb Hwb.
  assert (Hwb' : (fo + int32 n > f_size f ∧ wb = f_size f - fo)
                 ∨ (fo + int32 n <= f_size f ∧ wb = int32 n)).
  { destruct (Z.gtb_spec (fo + int32 n) (f_size f)).
    - bind_inv Hwb as u Hu. inversion Hwb; subst. left.
      rewrite (int32_small (f_size f - fo)) by lia. split; [lia | done].
    - inversion Hwb; subst. by right. }
  clear Hwb. bind_inv H as u1 Hu1. bind_inv H as u2 Hu2.
  bind_inv H as data Hdata.
  apply buf_fetch_length in Hdata as Hlen.
  set (d1 := <[file_path save_path f :=
                 file_write (default [] (d !! file_path save_path f))
                            fo data]> d) in H.
  assert (Hd1 : d1 = <[file_path save_path f :=
                  file_write (default [] (d !! file_path save_path f))
                             fo data]> d) by done.
  clearbody d1.
  bind_inv H as u3 Hu3. bind_inv H as u4 Hu4.
  assert (Hstep : preserved (loop_range save_path (f :: rest) fo n) d d1).
  { intros p c Hc. subst d1.
    destruct (decide (p = file_path save_path f)) as [->|Hne].
    - rewrite lookup_insert_eq, Hc. simpl. eexists. split; [done|].
      split; [apply file_write_length|].
      intros k Hk HW. apply file_write_outside; [lia | done |].
      intros Hin. apply HW. exists 0%nat, f. simpl.
      unfold sum_sizes. simpl. repeat split; try done; lia.
    - rewrite lookup_insert_ne by done. exists c. done. }
  destruct (Z.gtb_spec (int64 (n - wb)) 0) as [Hmore|Hdone];
    [|inversion H; by subst].
  bind_inv H as u5 Hu5. destruct rest as [|f' rest']; [discriminate|].
  destruct (ofs_open d1 (file_path save_path f')) as [d2 out2] eqn:Eo.
  assert (Hout2 : out2 = {| out_good := true;
                            out_path := file_path save_path f';
                            out_pos := 0 |}).
  { rewrite <- (ofs_open_stream d1). by rewrite Eo. }
  assert (Hd2 : preserved (loop_range save_path (f :: f' :: rest') fo n)
                  d1 d2).
  { replace d2 with (ofs_open d1 (file_path save_path f')).1
      by (by rewrite Eo). apply preserved_open. }
  subst out2. apply Forall_cons in Hwf as Hwf'. destruct Hwf' as [Hf' _].
  pose proof (int64_range (n - wb)) as Hr64.
  destruct Hwb' as [[Hgt ->]|[Hle ->]].
  - rewrite (int64_small (n - (f_size f - fo))) in H, Hmore by lia.
    eapply IH in H; [| reflexivity | lia..].
    eapply preserved_trans; [exact Hstep|].
    eapply preserved_trans; [exact Hd2|].
    eapply preserved_weaken; [|exact H].
    intros p k (j & g & Hj & Hp & Hk & Hr). exists (S j), g.
    repeat split; try done.
    + change (sum_sizes (take (S j) (f :: f' :: rest')))
        with (f_size f + sum_sizes (take j (f' :: rest'))).
      assert (0 <= sum_sizes (take j (f' :: rest')))
        by (apply sum_sizes_nonneg; by apply Forall_take).
      lia.
    + change (sum_sizes (take (S j) (f :: f' :: rest')))
        with (f_size f + sum_sizes (take j (f' :: rest'))). lia.
  - exfalso. eapply write_loop_stuck; [exact Hwf | | | exact H].
    + lia.
    + apply int32_left_over.
Qed.

Lemma ofs_seekp_good p fo :
  0 <= fo →
  ofs_seekp {| out_good := true; out_path := p; out_pos := 0 |} fo
  = {| out_good := true; out_path := p; out_pos := fo |}.
Proof.
  intros H. unfold ofs_seekp. simpl. by destruct (Z.leb_spec 0 fo); [|lia].
Qed.

Lemma loop_range_in_written_range save_path pre fl fo n size p k :
  n <= size →
  loop_range save_path fl fo n p k →
  in_written_range save_path (pre ++ fl) (sum_sizes pre + fo) size p k.
Proof.
  intros Hn (j & f & Hj & Hp & Hk & Hr).
  exists (length pre + j)%nat, f. split.
  - rewrite lookup_app_r by lia. rewrite <- Hj. f_equal. lia.
  - repeat split; try done; unfold file_start;
      rewrite take_app_ge by lia;
      replace (length pre + j - length pre)%nat with j by lia;
      rewrite sum_sizes_app; lia.
Qed.

(** C9: a [storage::write] leaves every byte of every existing file as
    it was, except the bytes of the addressed range
    [[start, start + size)], [start = slot * piece_length + offset]; no
    file gets shorter (files are opened without truncation). *)
Theorem write_preserves_bytes_outside_range
    (assertions : bool) (info : torrent_info) (save_path : string)
    (d d' : disk) (buf : list Z) (slot offset size : Z) :
  info_wf info → 0 <= slot → 0 <= offset →
  storage.write assertions info save_path d buf slot offset size = Ok d' →
  ∀ p c, d !! p = Some c →
    ∃ c', d' !! p = Some c' ∧ (length c <= length c')%nat
          ∧ ∀ k : nat, (k < length c)%nat →
              ¬ in_written_range save_path (files info)
                  (slot * piece_length info + offset) size p k →
              c' !! k = c !! k.
Proof.
  intros Hwf Hslot Hoff H.
  pose proof (piece_size_le info slot Hwf) as Hps.
  destruct Hwf as [Hpl HN Hlast Hfiles Hh].
  unfold storage.write in H.
  destruct (in_size_type offset && in_size_type size) eqn:Hg;
    [|discriminate].
  apply andb_true_iff in Hg as [Ho Hs].
  apply in_size_type_spec in Ho, Hs. cbn [negb] in H.
  bind_inv H as u0 Hu0. bind_inv H as loc Hloc. destruct loc as [fl' fo].
  apply locate_spec in Hloc as (pre & f & rest & Hfl & -> & Hstart & Hfo);
    [| done | nia].
  destruct (ofs_open d (file_path save_path f)) as [d0 out0] eqn:Eo.
  assert (Hout0 : out0 = {| out_good := true;
                            out_path := file_path save_path f;
                            out_pos := 0 |}).
  { rewrite <- (ofs_open_stream d). by rewrite Eo. }
  assert (Hd0 : ∀ W, preserved W d d0).
  { intros W. replace d0 with (ofs_open d (file_path save_path f)).1
      by (by rewrite Eo). apply preserved_open. }
  subst out0. bind_inv H as u1 Hu1.
  rewrite ofs_seekp_good in H by lia.
  bind_inv H as u2 Hu2.
  set (n := if int64 (offset + size) >? piece_size info slot
            then int64 (piece_size info slot - offset) else size) in H.
  assert (Hn : n < 2 ^ 63 ∧ (n <= 0 ∨ n <= size)).
  { subst n.
    destruct (Z.gtb_spec (int64 (offset + size)) (piece_size info slot))
      as [Hclamp|_]; [|lia].
    rewrite (int64_small (piece_size info slot - offset)) by lia.
    split; [lia|].
    destruct (int64_cases (offset + size) ltac:(lia))
      as [[Hz E]|[[Hz E]|[Hz E]]]; rewrite E in Hclamp; lia. }
  clearbody n. bind_inv H as u3 Hu3.
  change (preserved (in_written_range save_path (files info)
                       (slot * piece_length info + offset) size) d d').
  destruct (Z.gtb_spec n 0) as [Hpos|Hnp].
  - rewrite Hfl in Hfiles. apply Forall_app in Hfiles as [Hpre Hfl'].
    eapply write_loop_preserved in H; [| done | reflexivity | lia..].
    eapply preserved_trans; [apply Hd0|].
    eapply preserved_weaken; [|exact H].
    intros p k Hr. rewrite Hfl, Hstart.
    eapply loop_range_in_written_range; [|exact Hr]. lia.
  - inversion H; subst. apply Hd0.
Qed.




Lemma write_preserves_bytes_outside_range_witness :
  ∃ d', storage.write true info_one_file "t" disk_truncated [7; 8] 1 0 2
        = Ok d'
        ∧ ∃ c', d' !! "t/f" = Some c' ∧ (3 <= length c')%nat
                ∧ c' !! 0%nat = Some 1.
Proof.
  eexists. split; [vm_compute; reflexivity|].
  destruct (write_preserves_bytes_outside_range true info_one_file "t"
              disk_truncated _ [7; 8] 1 0 2 info_one_file_wf
              ltac:(lia) ltac:(lia) ltac:(vm_compute; reflexivity)
              "t/f" [1; 2; 3] ltac:(reflexivity))
    as (c' & Hc' & Hl & Hk).
  exists c'. split; [exact Hc'|]. split; [exact Hl|].
  rewrite (Hk 0%nat); [reflexivity | simpl; lia |].
  intros (j & f & Hj & _ & _ & Hr).
  destruct j as [|j]; [|discriminate].
  unfold file_start, sum_sizes in Hr. simpl in Hr. lia.
Defined.


(** ** Allocating a slot (C6) *)







(** The buffer is not cleared between the rounds of [allocate_slots]: on
    [disk_four] the call drains slot 2 by relocating piece 2 from slot 0
    and then slot 3, where no piece is placed; slot 3 receives the bytes
    of piece 2, not zero bytes. *)
Lemma stale_buffer_fills_next_slot :
  ∃ m d' m',
    piece_manager.check_pieces true info_four "t" disk_four
      piece_manager.new_impl never [false; false; false; false]
      = Ok (m, [false; false; true; false])
    ∧ piece_manager.m_unallocated_slots m = [2; 3]
    ∧ vget (piece_manager.m_piece_to_slot m) 2 = Ok 0
    ∧ vget (piece_manager.m_piece_to_slot m) 3 = Ok (-1)
    ∧ piece_manager.allocate_slots true info_four "t" disk_four m 5
      = Ok (d', m')
    ∧ d' !! "t/f" = Some [5; 6; 0; 0; 5; 6; 5; 6].
Proof.
  eexists _, _, _. split; [vm_compute; reflexivity|].
  split; [reflexivity|]. split; [reflexivity|]. split; [reflexivity|].
  split; [vm_compute; reflexivity | vm_compute; reflexivity].
Qed.


(** ** The tables stay coherent (C2, C8) *)

Section tables.
Import piece_manager.

Lemma vget_nonneg {A} (v : list A) i x : vget v i = Ok x → 0 <= i.
Proof. intros H%vget_lt. lia. Qed.


Lemma allocate_slot_ok assertions info save_path d m zeros pos iter
    d' m' zeros' :
  tables_ok (m_piece_to_slot m) (m_slot_to_piece m) (m_free_slots m)
            (pos :: iter) →
  allocate_slot assertions info save_path d m zeros pos
    = Ok (d', m', zeros') →
  tables_ok (m_piece_to_slot m') (m_slot_to_piece m') (m_free_slots m') iter
  ∧ m_bytes_left m' = m_bytes_left m
  ∧ m_unallocated_slots m' = m_unallocated_slots m
  ∧ ∀ p, vget (m_piece_to_slot m) p = Ok (-1) →
         vget (m_piece_to_slot m') p = Ok (-1).
Proof.
  intros [Hp Hs Hf Hfn Hu Hun] H.
  unfold allocate_slot in H.
  bind_inv H as ps Hps. bind_inv H as tr Htr.
  destruct tr as [[m1 zeros1] nfs].
  bind_inv H as s2p Hs2p. bind_inv H as d1 Hd1.
  inversion H; subst d1 m' zeros1; clear H. simpl.
  apply NoDup_cons in Hun as [Hpos_notin Hun].
  assert (Hupos : ∀ q, vget (m_slot_to_piece m) pos = Ok q → q = -1).
  { intros q. apply Hu. left. }
  pose proof (vget_nonneg _ _ _ Hps) as Hpos0.
  destruct (Z.eqb_spec ps (-1)) as [->|Hne]; simpl in Htr.
  - inversion Htr; subst m1 zeros' nfs; clear Htr.
    pose proof (λ j, vget_vset _ _ pos j _ Hs2p) as E.
    split; [|done]. split.
    + intros p s Hps' Hne. rewrite E. case_bool_decide as Es; [|by apply Hp].
      subst s. apply Hp in Hps' as Hsp; [|done]. apply Hupos in Hsp.
      subst p. apply vget_nonneg in Hps'. lia.
    + intros s q Hsq Hq1 Hq2. rewrite E in Hsq.
      case_bool_decide; [congruence|]. by apply Hs.
    + intros s [Hin| ->%list_elem_of_singleton]%elem_of_app; rewrite E.
      * case_bool_decide; [done|]. by apply Hf.
      * by rewrite bool_decide_eq_true_2.
    + apply NoDup_app. split; [done|]. split; [|apply NoDup_singleton].
      intros s Hin ->%list_elem_of_singleton.
      apply Hf in Hin. apply Hupos in Hin. lia.
    + intros s q Hin Hsq. rewrite E in Hsq.
      case_bool_decide; [subst; done|]. eapply Hu; [by right|done].
    + done.
  - bind_inv Htr as u Hu'. bind_inv Htr as r Hr.
    bind_inv Htr as s2p0 Hs2p0. bind_inv Htr as p2s0 Hp2s0.
    inversion Htr; subst m1 zeros' nfs; clear Htr. simpl in *.
    pose proof (λ j, vget_vset _ _ ps j _ Hs2p) as E.
    pose proof (λ j, vget_vset _ _ pos j _ Hs2p0) as E0.
    pose proof (λ j, vget_vset _ _ pos j _ Hp2s0) as Ep.
    pose proof (Hp _ _ Hps Hne) as Hsrc.
    assert (Hdiff : ps ≠ pos).
    { intros ->. apply Hupos in Hsrc. lia. }
    split; [|split; [done|split; [done|]]].
    2:{ intros p Hp1. rewrite Ep. case_bool_decide; [|done].
        subst p. congruence. }
    split.
    + intros p s Hps' Hs1. rewrite Ep in Hps'. rewrite E, E0.
      case_bool_decide as Ep'.
      * inversion Hps'; subst s p.
        rewrite bool_decide_eq_false_2 by done.
        by rewrite bool_decide_eq_true_2.
      * pose proof (Hp _ _ Hps' Hs1) as Hsp.
        case_bool_decide as Es1; [subst s; congruence|].
        case_bool_decide as Es2; [|done].
        subst s. apply Hupos in Hsp. subst p.
        apply vget_nonneg in Hps'. lia.
    + intros s q Hsq Hq1 Hq2. rewrite E, E0 in Hsq. rewrite Ep.
      case_bool_decide as Es1; [congruence|].
      case_bool_decide as Es2.
      * inversion Hsq; subst q s. by rewrite bool_decide_eq_true_2.
      * pose proof (Hs _ _ Hsq Hq1 Hq2) as Hqs.
        case_bool_decide as Eq; [|done]. subst q. congruence.
    + intros s [Hin| ->%list_elem_of_singleton]%elem_of_app; rewrite E.
      * case_bool_decide; [done|]. rewrite E0.
        apply Hf in Hin. case_bool_decide; [|done].
        subst s. apply Hupos in Hin. lia.
      * by rewrite bool_decide_eq_true_2.
    + apply NoDup_app. split; [done|]. split; [|apply NoDup_singleton].
      intros s Hin ->%list_elem_of_singleton.
      apply Hf in Hin. rewrite Hsrc in Hin. inversion Hin. lia.
    + intros s q Hin Hsq. rewrite E, E0 in Hsq.
      case_bool_decide as Es1.
      * subst s. exfalso.
        assert (pos = -1) by (eapply Hu; [by right | exact Hsrc]). lia.
      * case_bool_decide as Es2; [subst; done|].
        eapply Hu; [by right | done].
    + done.
Qed.

Lemma allocate_loop_ok assertions info save_path n :
  ∀ iter d m zeros iter' d' m',
  tables_ok (m_piece_to_slot m) (m_slot_to_piece m) (m_free_slots m) iter →
  allocate_loop assertions info save_path n iter d m zeros
    = Ok (iter', d', m') →
  tables_ok (m_piece_to_slot m') (m_slot_to_piece m') (m_free_slots m') iter'
  ∧ m_bytes_left m' = m_bytes_left m
  ∧ m_unallocated_slots m' = m_unallocated_slots m
  ∧ ∀ p, vget (m_piece_to_slot m) p = Ok (-1) →
         vget (m_piece_to_slot m') p = Ok (-1).
Proof.
  induction n as [|n IH]; intros iter d m zeros iter' d' m' Hok H.
  - simpl in H. inversion H; subst. done.
  - destruct iter as [|pos iter]; simpl in H.
    + inversion H; subst. done.
    + bind_inv H as st Hst. destruct st as [[d1 m1] zeros1].
      apply (allocate_slot_ok _ _ _ _ _ _ _ _ _ _ _ Hok) in Hst
        as (Hok1 & Hb1 & Hu1 & Hk1).
      apply (IH _ _ _ _ _ _ _ Hok1) in H as (Hok' & Hb' & Hu' & Hk').
      split; [done|]. split; [congruence|]. split; [congruence|].
      intros p Hp1. by apply Hk', Hk1.
Qed.

Lemma allocate_slots_ok assertions info save_path d m n d' m' :
  impl_ok m →
  allocate_slots assertions info save_path d m n = Ok (d', m') →
  impl_ok m' ∧ m_bytes_left m' = m_bytes_left m
  ∧ ∀ p, vget (m_piece_to_slot m) p = Ok (-1) →
         vget (m_piece_to_slot m') p = Ok (-1).
Proof.
  intros Hok H. unfold allocate_slots in H.
  bind_inv H as u0 Hu0. bind_inv H as st Hst.
  destruct st as [[iter d1] m1]. bind_inv H as u1 Hu1.
  inversion H; subst d' m'; clear H.
  apply (allocate_loop_ok _ _ _ _ _ _ _ _ _ _ _ Hok) in Hst
    as (Hok1 & Hb1 & _ & Hk1).
  split; [exact Hok1|]. split; [exact Hb1 | exact Hk1].
Qed.

Lemma swap_spec v i j v' :
  swap v i j = Ok v' →
  ∃ x y, vget v i = Ok x ∧ vget v j = Ok y
         ∧ ∀ k, vget v' k =
                if bool_decide (k = j) then Ok x
                else if bool_decide (k = i) then Ok y else vget v k.
Proof.
  intros H. unfold swap in H.
  bind_inv H as x Hx. bind_inv H as y Hy. bind_inv H as v1 Hv1.
  exists x, y. split; [done|]. split; [done|]. intros k.
  rewrite (vget_vset _ _ _ k _ H). case_bool_decide; [done|].
  by rewrite (vget_vset _ _ _ k _ Hv1).
Qed.

(** Giving the free slot at position [iter] to an unplaced piece. *)
Lemma assign_ok p2s s2p free unallocated iter slot p p2s1 s2p1 :
  tables_ok p2s s2p free unallocated →
  free !! iter = Some slot →
  vget p2s p = Ok (-1) →
  vset s2p slot p = Ok s2p1 →
  vset p2s p slot = Ok p2s1 →
  tables_ok p2s1 s2p1 (delete iter free) unallocated.
Proof.
  intros [Hp Hs Hf Hfn Hu Hun] Hiter Hp1 Hs2p1 Hp2s1.
  pose proof (λ j, vget_vset _ _ slot j _ Hs2p1) as Es.
  pose proof (λ j, vget_vset _ _ p j _ Hp2s1) as Ep.
  assert (Hslot : vget s2p slot = Ok (-2)).
  { apply Hf. by eapply list_elem_of_lookup_2. }
  assert (Hsub : ∀ s, s ∈ delete iter free → s ∈ free ∧ s ≠ slot).
  { intros s Hin.
    rewrite <- (take_drop_middle free iter slot Hiter) in Hfn.
    apply NoDup_app in Hfn as (_ & Hdisj & Hfn).
    apply NoDup_cons in Hfn as [Hnotin _].
    rewrite delete_take_drop in Hin.
    apply elem_of_app in Hin as [Hin|Hin].
    - split.
      + by apply (subseteq_take iter free).
      + intros ->. eapply Hdisj; [exact Hin | left].
    - split.
      + by apply (subseteq_drop (S iter) free).
      + intros ->. done. }
  pose proof (vget_nonneg _ _ _ Hp1) as Hp0.
  split.
  - intros p' s Hps Hne. rewrite Ep in Hps. rewrite Es.
    case_bool_decide as E1.
    + inversion Hps; subst. by rewrite bool_decide_eq_true_2.
    + pose proof (Hp _ _ Hps Hne) as Hsp.
      case_bool_decide; [subst s|done].
      rewrite Hslot in Hsp. inversion Hsp. subst p'.
      apply vget_nonneg in Hps. lia.
  - intros s q Hsq Hq1 Hq2. rewrite Es in Hsq. rewrite Ep.
    case_bool_decide as E1.
    + inversion Hsq; subst. by rewrite bool_decide_eq_true_2.
    + pose proof (Hs _ _ Hsq Hq1 Hq2) as Hqs.
      case_bool_decide; [subst q|done].
      rewrite Hp1 in Hqs. inversion Hqs. subst s.
      apply vget_nonneg in Hsq. lia.
  - intros s [Hin Hne]%Hsub. rewrite Es.
    rewrite bool_decide_eq_false_2 by done. by apply Hf.
  - rewrite delete_take_drop.
    rewrite <- (take_drop_middle free iter slot Hiter) in Hfn.
    apply NoDup_app in Hfn as (H1 & H2 & H3).
    apply NoDup_cons in H3 as [H3 H4].
    apply NoDup_app. split; [done|]. split; [|done].
    intros x Hx Hx'. eapply H2; [exact Hx | by right].
  - intros s q Hin Hsq. rewrite Es in Hsq.
    case_bool_decide; [subst s|by eapply Hu].
    assert (-2 = -1) by (eapply Hu; [exact Hin | exact Hslot]). lia.
  - done.
Qed.

(** The collision swap: piece [p] sits in [slot], piece [q] in slot [p];
    afterwards [p] sits in slot [p] and [q] in [slot]. *)
Lemma collide_ok p2s1 s2p1 free unallocated slot p q p2s2 s2p2 :
  tables_ok p2s1 s2p1 free unallocated →
  slot ≠ p → vget s2p1 p = Ok q → 0 <= q → vget s2p1 slot = Ok p →
  swap s2p1 p slot = Ok s2p2 →
  swap p2s1 p q = Ok p2s2 →
  tables_ok p2s2 s2p2 free unallocated.
Proof.
  intros [Hp Hs Hf Hfn Hu Hun] Hne Hq Hq0 Hslot Hsw1 Hsw2.
  apply swap_spec in Hsw1 as (x1 & y1 & Hx1 & Hy1 & Es).
  apply swap_spec in Hsw2 as (x2 & y2 & Hx2 & Hy2 & Ep).
  rewrite Hq in Hx1. inversion Hx1; subst x1.
  rewrite Hslot in Hy1. inversion Hy1; subst y1.
  pose proof (vget_nonneg _ _ _ Hq) as Hp0.
  assert (Hpq : vget p2s1 q = Ok p) by (apply Hs; [done|lia..]).
  assert (Hps : vget p2s1 p = Ok slot) by (apply Hs; [done|lia..]).
  rewrite Hps in Hx2. inversion Hx2; subst x2.
  rewrite Hpq in Hy2. inversion Hy2; subst y2.
  assert (Hqp : q ≠ p) by (intros ->; congruence).
  split.
  - intros p' s Hps' Hne'. rewrite Ep in Hps'. rewrite Es.
    case_bool_decide as E1.
    + inversion Hps'; subst. by rewrite bool_decide_eq_true_2.
    + case_bool_decide as E2.
      * inversion Hps'; subst.
        rewrite bool_decide_eq_false_2 by done.
        by rewrite bool_decide_eq_true_2.
      * pose proof (Hp _ _ Hps' Hne') as Hsp.
        case_bool_decide; [subst s; congruence|].
        case_bool_decide; [subst s; congruence|]. done.
  - intros s q' Hsq Hq1 Hq2. rewrite Es in Hsq. rewrite Ep.
    case_bool_decide as E1.
    + inversion Hsq; subst. by rewrite bool_decide_eq_true_2.
    + case_bool_decide as E2.
      * inversion Hsq; subst.
        rewrite bool_decide_eq_false_2 by done.
        by rewrite bool_decide_eq_true_2.
      * pose proof (Hs _ _ Hsq Hq1 Hq2) as Hqs.
        case_bool_decide; [subst q'; congruence|].
        case_bool_decide; [subst q'; congruence|]. done.
  - intros s Hin. rewrite Es. apply Hf in Hin.
    case_bool_decide; [subst s; rewrite Hslot in Hin; inversion Hin; lia|].
    case_bool_decide; [subst s; rewrite Hq in Hin; inversion Hin; lia|].
    done.
  - done.
  - intros s q' Hin Hsq. rewrite Es in Hsq.
    case_bool_decide.
    { subst s. assert (p = -1) by (eapply Hu; [exact Hin | exact Hslot]). lia. }
    case_bool_decide.
    { subst s. assert (q = -1) by (eapply Hu; [exact Hin | exact Hq]). lia. }
    by eapply Hu.
  - done.
Qed.

Lemma deref_Some v iter x : deref v iter = Ok x → v !! iter = Some x.
Proof. unfold deref. destruct (v !! iter); [congruence | discriminate]. Qed.

Lemma slot_for_piece_ok assertions info save_path d m p d' m' slot :
  impl_ok m →
  slot_for_piece assertions info save_path d m p = Ok (d', m', slot) →
  impl_ok m' ∧ m_bytes_left m' = m_bytes_left m.
Proof.
  intros Hok H. unfold slot_for_piece in H.
  bind_inv H as u0 Hu0. bind_inv H as u1 Hu1. bind_inv H as u2 Hu2.
  bind_inv H as s0 Hs0.
  destruct (Z.eqb_spec s0 (-1)) as [->|Hne]; simpl in H.
  2:{ bind_inv H as u3 Hu3. bind_inv H as u4 Hu4.
      inversion H; subst. done. }
  bind_inv H as st1 Hst1. destruct st1 as [d1 m1].
  assert (H1 : impl_ok m1 ∧ m_bytes_left m1 = m_bytes_left m
               ∧ vget (m_piece_to_slot m1) p = Ok (-1)).
  { destruct (bool_decide (m_free_slots m = [])).
    - bind_inv Hst1 as st Hst. destruct st as [d0 m0].
      bind_inv Hst1 as u Hu. inversion Hst1; subst d0 m0.
      apply (allocate_slots_ok _ _ _ _ _ _ _ _ Hok) in Hst
        as (Hok1 & Hb1 & Hk1).
      split; [done|]. split; [done|]. by apply Hk1.
    - inversion Hst1; subst. done. }
  clear Hst1. destruct H1 as (Hok1 & Hb1 & Hp1).
  bind_inv H as st2 Hst2. destruct st2 as [[d2 m2] iter].
  assert (H2 : impl_ok m2 ∧ m_bytes_left m2 = m_bytes_left m
               ∧ vget (m_piece_to_slot m2) p = Ok (-1)).
  { destruct (bool_decide (find_pos p (m_free_slots m1)
                            = length (m_free_slots m1))).
    - bind_inv Hst2 as u Hu. bind_inv Hst2 as it Hit.
      bind_inv Hst2 as last Hlast.
      destruct ((last =? num_pieces info - 1) && negb (p =? last)).
      + bind_inv Hst2 as st Hst. destruct st as [d0 m0].
        bind_inv Hst2 as u' Hu'. bind_inv Hst2 as it' Hit'.
        inversion Hst2; subst d0 m0 it'.
        destruct (bool_decide (length (m_free_slots m1) = 1%nat)).
        * apply (allocate_slots_ok _ _ _ _ _ _ _ _ Hok1) in Hst
            as (Hok2 & Hb2 & Hk2).
          split; [done|]. split; [congruence|]. by apply Hk2.
        * inversion Hst; subst. done.
      + inversion Hst2; subst. done.
    - inversion Hst2; subst. done. }
  clear Hst2. destruct H2 as (Hok2 & Hb2 & Hp2).
  bind_inv H as slot_index Hderef. apply deref_Some in Hderef.
  bind_inv H as u5 Hu5. bind_inv H as s2p1 Hs2p1. bind_inv H as p2s1 Hp2s1.
  pose proof (assign_ok _ _ _ _ _ _ _ _ _ Hok2 Hderef Hp2 Hs2p1 Hp2s1)
    as Hok3.
  bind_inv H as collide Hcollide. bind_inv H as st3 Hst3.
  destruct st3 as [[d3 m3] slot3]. bind_inv H as u6 Hu6.
  inversion H; subst d' m' slot; clear H.
  destruct collide.
  - bind_inv Hst3 as q Hq. bind_inv Hst3 as u7 Hu7.
    bind_inv Hst3 as r Hr. bind_inv Hst3 as d4 Hd4.
    bind_inv Hst3 as s2p2 Hs2p2. bind_inv Hst3 as p2s2 Hp2s2.
    bind_inv Hst3 as u8 Hu8. inversion Hst3; subst d3 m3 slot3; clear Hst3.
    simpl. split; [|done].
    destruct (Z.eqb_spec slot_index p) as [?|Hdiff]; simpl in Hcollide;
      [discriminate|].
    bind_inv Hcollide as sp Hsp. inversion Hcollide as [Hge].
    rewrite Hq in Hsp. inversion Hsp; subst sp.
    unfold impl_ok. simpl.
    eapply (collide_ok p2s1 s2p1); [exact Hok3 | exact Hdiff | exact Hq
                                    | lia | | exact Hs2p2 | exact Hp2s2].
    rewrite (vget_vset _ _ _ slot_index _ Hs2p1).
    by rewrite bool_decide_eq_true_2.
  - inversion Hst3; subst d3 m3 slot3; clear Hst3. simpl.
    split; [exact Hok3 | done].
Qed.

Lemma write_ok assertions info save_path d m buf p offset size d' m' :
  impl_ok m →
  write assertions info save_path d m buf p offset size = Ok (d', m') →
  impl_ok m' ∧ m_bytes_left m' = m_bytes_left m.
Proof.
  intros Hok H. unfold write in H.
  bind_inv H as st Hst. destruct st as [[d1 m1] slot].
  bind_inv H as d2 Hd2. inversion H; subst.
  by eapply slot_for_piece_ok.
Qed.

Lemma run_operations_ok assertions info save_path ops :
  ∀ d m d' m',
  impl_ok m →
  run_operations assertions info save_path (d, m) ops = Ok (d', m') →
  impl_ok m' ∧ m_bytes_left m' = m_bytes_left m.
Proof.
  induction ops as [|o ops IH]; intros d m d' m' Hok H; simpl in H.
  - inversion H; subst. done.
  - apply bind_Ok in H as ([d1 m1] & Hop & H).
    assert (H1 : impl_ok m1 ∧ m_bytes_left m1 = m_bytes_left m).
    { destruct o as [buf p off size | buf p off size | n]; simpl in Hop.
      - bind_inv Hop as r Hr. inversion Hop; subst. done.
      - by eapply write_ok.
      - apply (allocate_slots_ok _ _ _ _ _ _ _ _ Hok) in Hop
          as (? & ? & _). done. }
    destruct H1 as [Hok1 Hb1].
    apply (IH _ _ _ _ Hok1) in H as [Hok' Hb']. split; [done | congruence].
Qed.

Lemma impl_ok_inverse_consistent m : impl_ok m → inverse_consistent m.
Proof.
  intros [Hp _ _ _ _ _] p s Hps Hs. apply Hp; [done | lia].
Qed.

(** ** The resume check keeps the tables coherent *)

Lemma left_size_insert_true info i (pieces : list bool) (k : nat) :
  pieces !! k = Some false →
  left_size info i (<[k := true]> pieces)
  = left_size info i pieces - piece_size info (i + Z.of_nat k).
Proof.
  revert i k. induction pieces as [|b pieces IH]; intros i k H.
  - by rewrite lookup_nil in H.
  - destruct k as [|k].
    + simpl in H. inversion H; subst. simpl left_size.
      replace (i + Z.of_nat 0) with i by lia. lia.
    + simpl in H. simpl left_size. rewrite IH by done.
      replace (i + 1 + Z.of_nat k) with (i + Z.of_nat (S k)) by lia. lia.
Qed.

Lemma left_size_replicate info (k : nat) i :
  (i + Z.of_nat k <= num_pieces info - 1 →
   left_size info i (replicate k false) = Z.of_nat k * piece_length info)
  ∧ (i + Z.of_nat k = num_pieces info → (0 < k)%nat →
     left_size info i (replicate k false)
     = (Z.of_nat k - 1) * piece_length info + last_piece_size info).
Proof.
  revert i. induction k as [|k IH]; intros i.
  - simpl. split; [lia|]. lia.
  - simpl replicate. simpl left_size.
    destruct (IH (i + 1)) as [IH1 IH2]. unfold piece_size. split.
    + intros Hi. destruct (Z.ltb_spec i (num_pieces info - 1)); [|lia].
      rewrite IH1 by lia. lia.
    + intros Hi _. destruct k as [|k].
      * destruct (Z.ltb_spec i (num_pieces info - 1)); [lia|].
        simpl. lia.
      * destruct (Z.ltb_spec i (num_pieces info - 1)); [|lia].
        rewrite IH2 by lia. lia.
Qed.

Lemma left_size_all_missing info :
  0 < num_pieces info →
  left_size info 0 (replicate (Z.to_nat (num_pieces info)) false)
  = total_size info.
Proof.
  intros HN.
  destruct (left_size_replicate info (Z.to_nat (num_pieces info)) 0)
    as [_ H].
  rewrite H by lia. unfold last_piece_size. lia.
Qed.

Lemma classify_slot_ok assertions info m pieces data cs m' pieces' :
  0 <= cs → scan_ok info cs m pieces →
  classify_slot assertions info m pieces data cs = Ok (m', pieces') →
  scan_ok info (cs + 1) m' pieces'.
Proof.
  intros Hcs [[Hp Hs Hf Hfn Hu Hun] Hhave Hnot Hbeyond Hflt Hult Hbytes] H.
  pose proof H as H0. unfold classify_slot in H0. cbv zeta in H0.
  apply bind_Ok in H0 as (found & Hfind & _).
  pose proof (classify_slot_found _ _ _ _ _ _ _ _ _ Hfind H) as Hrec.
  clear H Hfind.
  destruct (Z.eqb_spec found (-1)) as [Heq|Hne].
  - destruct Hrec as (Hs2p & Hfree & Hp2s & Hbl & Hun' & ->).
    pose proof (λ j, vget_vset _ _ cs j _ Hs2p) as Es.
    split; [split|..]; rewrite ?Hfree, ?Hp2s, ?Hun', ?Hbl; try done.
    + intros p s Hps Hs1. rewrite Es. pose proof (Hp _ _ Hps Hs1) as Hsp.
      case_bool_decide; [subst s|done].
      apply Hbeyond in Hsp; [|lia]. subst p. apply vget_nonneg in Hps. lia.
    + intros s q Hsq Hq1 Hq2. rewrite Es in Hsq.
      case_bool_decide; [congruence|]. by apply Hs.
    + intros s [Hin| ->%list_elem_of_singleton]%elem_of_app; rewrite Es.
      * case_bool_decide; [done|]. by apply Hf.
      * by rewrite bool_decide_eq_true_2.
    + apply NoDup_app. split; [done|]. split; [|apply NoDup_singleton].
      intros s Hin ->%list_elem_of_singleton. apply Hflt in Hin. lia.
    + intros s q Hin Hsq. rewrite Es in Hsq.
      case_bool_decide; [subst s; apply Hult in Hin; lia|]. by eapply Hu.
    + intros s q Hle Hsq. rewrite Es in Hsq.
      case_bool_decide; [lia|]. eapply Hbeyond; [|done]. lia.
    + intros s [Hin| ->%list_elem_of_singleton]%elem_of_app; [|lia].
      apply Hflt in Hin. lia.
    + intros s Hin. apply Hult in Hin. lia.
  - destruct Hrec as (have & s2p0 & Hget & Hbranch & Hp2s & Hs2p & Hpieces
                      & Hun').
    pose proof (λ j, vget_vset _ _ found j _ Hp2s) as Ep.
    pose proof (λ j, vget_vset _ _ cs j _ Hs2p) as Es.
    pose proof (λ j, vget_vset _ _ found j _ Hpieces) as Epc.
    pose proof (vget_nonneg _ _ _ Hget) as Hfound0.
    destruct have.
    + destruct Hbranch as (old & Hold & Hdem & Hfree & Hbl).
      pose proof (λ j, vget_vset _ _ old j _ Hdem) as E0.
      pose proof (Hhave _ _ Hget Hold) as Hold1.
      pose proof (Hp _ _ Hold Hold1) as Hsold.
      assert (Holdlt : old < cs).
      { destruct (Z.lt_ge_cases old cs) as [|Hge]; [done|].
        apply Hbeyond in Hsold; lia. }
      split; [split|..]; rewrite ?Hfree, ?Hun', ?Hbl; try done.
      * intros p s Hps Hs1. rewrite Ep in Hps. rewrite Es, E0.
        case_bool_decide as E1.
        -- inversion Hps; subst. by rewrite bool_decide_eq_true_2.
        -- pose proof (Hp _ _ Hps Hs1) as Hsp.
           case_bool_decide as E2.
           ++ subst s. apply Hbeyond in Hsp; [|lia]. subst p.
              apply vget_nonneg in Hps. lia.
           ++ case_bool_decide; [subst s; congruence | done].
      * intros s q Hsq Hq1 Hq2. rewrite Es, E0 in Hsq. rewrite Ep.
        case_bool_decide as E1.
        -- inversion Hsq; subst. by rewrite bool_decide_eq_true_2.
        -- case_bool_decide as E2; [congruence|].
           pose proof (Hs _ _ Hsq Hq1 Hq2) as Hqs.
           case_bool_decide; [subst q; congruence | done].
      * intros s [Hin| ->%list_elem_of_singleton]%elem_of_app;
          rewrite Es, E0.
        -- case_bool_decide; [subst s; apply Hflt in Hin; lia|].
           case_bool_decide; [done|]. by apply Hf.
        -- rewrite bool_decide_eq_false_2 by lia.
           by rewrite bool_decide_eq_true_2.
      * apply NoDup_app. split; [done|]. split; [|apply NoDup_singleton].
        intros s Hin ->%list_elem_of_singleton. apply Hf in Hin.
        rewrite Hsold in Hin. inversion Hin. lia.
      * intros s q Hin Hsq. rewrite Es, E0 in Hsq.
        case_bool_decide; [subst s; apply Hult in Hin; lia|].
        case_bool_decide; [|by eapply Hu].
        subst s. assert (found = -1) by (by eapply Hu). lia.
      * intros p s Hpt Hps. rewrite Ep in Hps. rewrite Epc in Hpt.
        case_bool_decide; [inversion Hps; lia|]. by eapply Hhave.
      * intros p s Hpf Hps. rewrite Ep in Hps. rewrite Epc in Hpf.
        case_bool_decide; [discriminate|]. by eapply Hnot.
      * intros s q Hle Hsq. rewrite Es, E0 in Hsq.
        case_bool_decide; [lia|]. case_bool_decide; [lia|].
        eapply Hbeyond; [|done]. lia.
      * intros s [Hin| ->%list_elem_of_singleton]%elem_of_app; [|lia].
        apply Hflt in Hin. lia.
      * intros s Hin. apply Hult in Hin. lia.
      * rewrite Hbytes. apply vset_Ok in Hpieces as [_ ->].
        apply vget_Ok in Hget as [_ Hget].
        by rewrite list_insert_id.
    + destruct Hbranch as (-> & Hfree & Hbl).
      assert (Hunplaced : vget (m_piece_to_slot m) found = Ok (-1)).
      { apply vset_Ok in Hp2s as [Hrange _].
        destruct (lookup_lt_is_Some_2 (m_piece_to_slot m) (Z.to_nat found))
          as [s Hs0]; [lia|].
        assert (Hv : vget (m_piece_to_slot m) found = Ok s)
          by (apply vget_Ok; split; [lia | done]).
        by rewrite (Hnot _ _ Hget Hv) in Hv. }
      split; [split|..]; rewrite ?Hfree, ?Hun', ?Hbl; try done.
      * intros p s Hps Hs1. rewrite Ep in Hps. rewrite Es.
        case_bool_decide as E1.
        -- inversion Hps; subst. by rewrite bool_decide_eq_true_2.
        -- pose proof (Hp _ _ Hps Hs1) as Hsp.
           case_bool_decide as E2; [|done].
           subst s. apply Hbeyond in Hsp; [|lia]. subst p.
           apply vget_nonneg in Hps. lia.
      * intros s q Hsq Hq1 Hq2. rewrite Es in Hsq. rewrite Ep.
        case_bool_decide as E1.
        -- inversion Hsq; subst. by rewrite bool_decide_eq_true_2.
        -- pose proof (Hs _ _ Hsq Hq1 Hq2) as Hqs.
           case_bool_decide; [|done]. subst q.
           rewrite Hunplaced in Hqs. inversion Hqs. subst s.
           apply vget_nonneg in Hsq. lia.
      * intros s Hin. rewrite Es.
        case_bool_decide; [subst s; apply Hflt in Hin; lia|]. by apply Hf.
      * intros s q Hin Hsq. rewrite Es in Hsq.
        case_bool_decide; [subst s; apply Hult in Hin; lia|]. by eapply Hu.
      * intros p s Hpt Hps. rewrite Ep in Hps. rewrite Epc in Hpt.
        case_bool_decide; [inversion Hps; lia|]. by eapply Hhave.
      * intros p s Hpf Hps. rewrite Ep in Hps. rewrite Epc in Hpf.
        case_bool_decide; [discriminate|]. by eapply Hnot.
      * intros s q Hle Hsq. rewrite Es in Hsq.
        case_bool_decide; [lia|]. eapply Hbeyond; [|done]. lia.
      * intros s Hin. apply Hflt in Hin. lia.
      * intros s Hin. apply Hult in Hin. lia.
      * rewrite Hbytes. apply vset_Ok in Hpieces as [_ ->].
        apply vget_Ok in Hget as [_ Hget].
        rewrite left_size_insert_true by done.
        replace (0 + Z.of_nat (Z.to_nat found)) with found by lia. done.
Qed.

Lemma skip_loop_spec assertions info fuel :
  ∀ pos file_end unallocated cs pos' unallocated' cs',
  skip_loop assertions info fuel pos file_end unallocated cs
    = Ok (pos', unallocated', cs') →
  cs <= cs' ∧ unallocated' = unallocated ++ seqZ cs (cs' - cs).
Proof.
  induction fuel as [|fuel IH];
    intros pos file_end unallocated cs pos' unallocated' cs' H; simpl in H.
  - destruct (pos <? file_end); [discriminate|]. inversion H; subst.
    split; [lia|]. rewrite Z.sub_diag. simpl. by rewrite app_nil_r.
  - destruct (pos <? file_end).
    + bind_inv H as u Hu. apply IH in H as [Hle ->].
      split; [lia|]. rewrite <- app_assoc. f_equal.
      rewrite (seqZ_cons cs) by lia. simpl. f_equal. f_equal; lia.
    + inversion H; subst. split; [lia|].
      rewrite Z.sub_diag. simpl. by rewrite app_nil_r.
Qed.

Lemma skip_ok info cs cs' m pieces :
  cs <= cs' → scan_ok info cs m pieces →
  scan_ok info cs'
    {| m_bytes_left := m_bytes_left m;
       m_piece_to_slot := m_piece_to_slot m;
       m_unallocated_slots := m_unallocated_slots m ++ seqZ cs (cs' - cs);
       m_free_slots := m_free_slots m;
       m_slot_to_piece := m_slot_to_piece m |} pieces.
Proof.
  intros Hle [[Hp Hs Hf Hfn Hu Hun] Hhave Hnot Hbeyond Hflt Hult Hbytes].
  split; [split|..]; simpl; try done.
  - intros s q [Hin|Hin%elem_of_seqZ]%elem_of_app Hsq; [by eapply Hu|].
    eapply Hbeyond; [|done]. lia.
  - apply NoDup_app. split; [done|]. split; [|apply NoDup_seqZ].
    intros s Hin Hin'%elem_of_seqZ. apply Hult in Hin. lia.
  - intros s q Hge. apply Hbeyond. lia.
  - intros s Hin. apply Hflt in Hin. lia.
  - intros s [Hin|Hin%elem_of_seqZ]%elem_of_app; [|lia].
    apply Hult in Hin. lia.
Qed.

Lemma scan_step_ok assertions info save_path d f sc m pieces adv sc' m'
    pieces' :
  0 <= current_slot sc → scan_ok info (current_slot sc) m pieces →
  scan_step assertions info save_path d f sc m pieces
    = Ok (adv, sc', m', pieces') →
  0 <= current_slot sc' ∧ scan_ok info (current_slot sc') m' pieces'.
Proof.
  intros Hcs Hok H. unfold scan_step in H. cbv zeta in H.
  bind_inv H as u0 Hu0.
  destruct (if changed_file sc then _ else _) as [[in1 bcr] fsz].
  bind_inv H as rd Hrd. destruct rd as [[pd in2] bytes_read].
  destruct (bytes_to_read sc - bytes_read >? 0).
  - bind_inv H as st Hst.
    destruct st as [[[[m1 cs1] sin] btr] po].
    inversion H; subst; clear H. simpl.
    destruct (negb (bcr + bytes_read =? f_size f)).
    + bind_inv Hst as sk Hsk. destruct sk as [[pos' un'] cs'].
      inversion Hst; subst; clear Hst.
      apply skip_loop_spec in Hsk as [Hle ->].
      split; [lia|]. by apply skip_ok.
    + inversion Hst; subst. done.
  - bind_inv H as st Hst. destruct st as [m1 pieces1].
    inversion H; subst; clear H. simpl.
    split; [lia|]. by eapply classify_slot_ok.
Qed.

Lemma check_loop_ok assertions info save_path d abort fuel :
  ∀ k file_iter sc m pieces m' pieces' completed,
  0 <= current_slot sc → scan_ok info (current_slot sc) m pieces →
  check_loop assertions info save_path fuel d abort k file_iter sc m pieces
    = Ok (m', pieces', completed) →
  ∃ cs, scan_ok info cs m' pieces'.
Proof.
  induction fuel as [|fuel IH];
    intros k file_iter sc m pieces m' pieces' completed Hcs Hok H.
  - destruct file_iter; simpl in H; [|discriminate].
    inversion H; subst. eauto.
  - destruct file_iter as [|f rest]; simpl in H.
    + inversion H; subst. eauto.
    + destruct (abort k).
      * inversion H; subst. eauto.
      * bind_inv H as st Hst. destruct st as [[[adv sc1] m1] pieces1].
        apply (scan_step_ok _ _ _ _ _ _ _ _ _ _ _ _ Hcs Hok) in Hst
          as [Hcs1 Hok1].
        by eapply IH.
Qed.

Lemma vget_replicate {A} (n : nat) (x y : A) i :
  vget (replicate n x) i = Ok y → y = x.
Proof.
  intros [_ H]%vget_Ok. apply lookup_replicate in H as [-> _]. done.
Qed.

Lemma scan_ok_initial info :
  0 < num_pieces info →
  scan_ok info 0
    {| m_bytes_left := total_size info;
       m_piece_to_slot := resize (num_pieces info) (-1) [];
       m_unallocated_slots := [];
       m_free_slots := [];
       m_slot_to_piece := resize (num_pieces info) (-1) [] |}
    (replicate (Z.to_nat (num_pieces info)) false).
Proof.
  intros HN.
  assert (Hres : resize (num_pieces info) (-1) []
                 = replicate (Z.to_nat (num_pieces info)) (-1)).
  { unfold resize. rewrite take_nil. simpl. by rewrite Nat.sub_0_r. }
  rewrite Hres.
  split; [split|..]; simpl.
  - intros p s Hps Hne. by apply vget_replicate in Hps.
  - intros s q Hsq Hne. by apply vget_replicate in Hsq.
  - intros s Hin. by apply elem_of_nil in Hin.
  - constructor.
  - intros s q Hin. by apply elem_of_nil in Hin.
  - constructor.
  - intros p s Hpt _. by apply vget_replicate in Hpt.
  - intros p s _ Hps. by apply vget_replicate in Hps.
  - intros s q _ Hsq. by apply vget_replicate in Hsq.
  - intros s Hin. by apply elem_of_nil in Hin.
  - intros s Hin. by apply elem_of_nil in Hin.
  - symmetry. by apply left_size_all_missing.
Qed.

(** ** The resume check comes to an end *)

Lemma bind_fuel {A B} (m : result A) (f : A → result B) :
  m ≠ OutOfFuel → (∀ a, m = Ok a → f a ≠ OutOfFuel) → m ≫= f ≠ OutOfFuel.
Proof. destruct m; simpl; intros H1 H2; try done. by apply H2. Qed.

Lemma vget_fuel {A} (v : list A) i : vget v i ≠ OutOfFuel.
Proof. unfold vget. destruct (i <? 0); [done|]. by destruct (v !! _). Qed.

Lemma vset_fuel {A} (v : list A) i x : vset v i x ≠ OutOfFuel.
Proof. unfold vset. destruct (i <? 0); [done|]. by destruct (_ <? _)%nat. Qed.

Lemma assert_m_fuel assertions c :
  c ≠ OutOfFuel → assert_m assertions c ≠ OutOfFuel.
Proof.
  intros H. unfold assert_m. destruct assertions; [|done].
  apply bind_fuel; [done|]. by intros [] _.
Qed.

Lemma assert_b_fuel assertions c : assert_b assertions c ≠ OutOfFuel.
Proof. by apply assert_m_fuel. Qed.

Lemma buf_store_fuel buf pos data : buf_store buf pos data ≠ OutOfFuel.
Proof.
  unfold buf_store. destruct (bool_decide _); [done|]. by destruct (_ || _).
Qed.

Lemma forM_fuel {A} (l : list A) (f : A → result unit) :
  (∀ x, f x ≠ OutOfFuel) → forM_ l f ≠ OutOfFuel.
Proof.
  intros Hf. induction l as [|x l IH]; simpl; [done|].
  apply bind_fuel; [apply Hf | done].
Qed.

(** Goals [e ≠ OutOfFuel] for straight-line code. *)
Ltac no_fuel :=
  repeat first
    [ apply vget_fuel | apply vset_fuel | apply assert_b_fuel
    | apply buf_store_fuel | apply assert_m_fuel
    | apply bind_fuel; [|intros ? _]
    | match goal with
      | |- (if ?c then _ else _) ≠ OutOfFuel => destruct c
      | |- (let '(_, _) := ?p in _) ≠ OutOfFuel => destruct p
      | |- Ok _ ≠ OutOfFuel => discriminate
      | |- (match ?x with _ => _ end) ≠ OutOfFuel => destruct x
      end ].

Lemma check_invariant_fuel assertions info m :
  check_invariant assertions info m ≠ OutOfFuel.
Proof. unfold check_invariant. apply forM_fuel. intros i. no_fuel. Qed.

Lemma find_piece_fuel info pieces large small cs cands acc :
  find_piece info pieces large small cs cands acc ≠ OutOfFuel.
Proof.
  revert acc. induction cands as [|i cands IH]; intros acc; simpl; [done|].
  apply bind_fuel; [apply vget_fuel|]. intros have _.
  destruct (have && _); [apply IH|]. destruct (digest_eq _ _); apply IH.
Qed.

Lemma classify_slot_fuel assertions info m pieces data cs :
  classify_slot assertions info m pieces data cs ≠ OutOfFuel.
Proof.
  unfold classify_slot. cbv zeta.
  apply bind_fuel; [apply find_piece_fuel|]. intros found _. no_fuel.
Qed.

Lemma skip_loop_fuel assertions info fuel :
  0 < piece_length info →
  ∀ pos file_end unallocated cs,
  file_end - pos <= Z.of_nat fuel →
  skip_loop assertions info fuel pos file_end unallocated cs ≠ OutOfFuel.
Proof.
  intros Hpl. induction fuel as [|fuel IH];
    intros pos file_end unallocated cs Hfuel; simpl.
  - destruct (Z.ltb_spec pos file_end); [lia | done].
  - destruct (Z.ltb_spec pos file_end); [|done].
    apply bind_fuel; [apply assert_b_fuel|]. intros _ _. apply IH. lia.
Qed.

Lemma scan_step_fuel assertions info save_path d f sc m pieces :
  0 < piece_length info →
  scan_step assertions info save_path d f sc m pieces ≠ OutOfFuel.
Proof.
  intros Hpl. unfold scan_step. cbv zeta.
  apply bind_fuel; [apply assert_b_fuel|]. intros _ _.
  destruct (if changed_file sc then _ else _) as [[in1 bcr] fsz].
  apply bind_fuel; [no_fuel|]. intros [[pd in2] bytes_read] _.
  destruct (_ >? 0).
  - apply bind_fuel; [|by intros [[[[? ?] ?] ?] ?] _].
    destruct (negb _); [|done].
    apply bind_fuel; [|by intros [[? ?] ?] _].
    apply skip_loop_fuel; [done|]. lia.
  - apply bind_fuel; [apply classify_slot_fuel|]. by intros [? ?] _.
Qed.

Lemma scan_fuel_budget save_path d fl :
  scan_fuel save_path d fl = S (files_budget save_path d fl).
Proof.
  unfold scan_fuel. induction fl as [|f fl IH]; [done|].
  cbn [foldr files_budget]. rewrite IH. lia.
Qed.

Lemma ifs_read_remaining s n got s' :
  stream_ok s →
  ifs_read s n = (got, s') → got ≠ [] →
  (remaining s' < remaining s)%nat ∧ stream_ok s'.
Proof.
  unfold ifs_read, remaining, stream_ok. destruct (in_good s) eqn:Eg.
  - intros Hpos H Hne. specialize (Hpos eq_refl).
    inversion H; subst; clear H. simpl.
    set (got := take (Z.to_nat n) (drop (Z.to_nat (in_pos s)) (in_data s)))
      in *.
    assert (0 < length got)%nat by (destruct got; simpl; [done | lia]).
    assert (length got <= length (in_data s) - Z.to_nat (in_pos s))%nat.
    { subst got. rewrite length_take, length_drop. lia. }
    split; [destruct (bool_decide _); lia | lia].
  - intros _ H Hne. inversion H; subst. done.
Qed.

Lemma ifs_read_stream_ok s n :
  stream_ok s → stream_ok (ifs_read s n).2.
Proof.
  unfold ifs_read, stream_ok. destruct (in_good s) eqn:Eg; simpl.
  - intros H _. specialize (H eq_refl). lia.
  - rewrite Eg. done.
Qed.

Lemma stream_ok_opened d p off : stream_ok (ifs_seekg (ifs_open d p) off).
Proof.
  unfold ifs_open, ifs_seekg, stream_ok.
  destruct (d !! p) as [c|]; simpl;
    destruct (Z.leb_spec 0 off); simpl; (done || lia).
Qed.

Lemma remaining_opened d p off :
  (remaining (ifs_seekg (ifs_open d p) off)
   <= length (default [] (d !! p)))%nat.
Proof.
  unfold ifs_open, ifs_seekg, remaining.
  destruct (d !! p) as [c|]; simpl; destruct (0 <=? off); simpl; lia.
Qed.

Lemma scan_step_progress assertions info save_path d f sc m pieces adv sc'
    m' pieces' :
  info_wf info → 0 < bytes_to_read sc → stream_ok (in_ sc) →
  scan_step assertions info save_path d f sc m pieces
    = Ok (adv, sc', m', pieces') →
  0 < bytes_to_read sc' ∧ stream_ok (in_ sc')
  ∧ (if adv then changed_file sc' = true
     else changed_file sc' = false
          ∧ (remaining (in_ sc')
             < (if changed_file sc
                then length (default [] (d !! file_path save_path f))
                else remaining (in_ sc)))%nat).
Proof.
  intros Hwf Hbtr Hstream H. unfold scan_step in H. cbv zeta in H.
  bind_inv H as u0 Hu0.
  destruct (if changed_file sc then _ else _) as [[in1 bcr] fsz] eqn:Eopen.
  assert (Hin1 : stream_ok in1 ∧ (remaining in1
                  ≤ (if changed_file sc
                     then length (default [] (d !! file_path save_path f))
                     else remaining (in_ sc)))%nat).
  { destruct (changed_file sc).
    - destruct (negb _) eqn:Eg; inversion Eopen; subst.
      + apply negb_true_iff in Eg. unfold remaining, stream_ok.
        rewrite Eg. split; [done | lia].
      + split; [apply stream_ok_opened | apply remaining_opened].
    - inversion Eopen; subst. done. }
  clear Eopen. destruct Hin1 as [Hok1 Hin1].
  bind_inv H as rd Hrd. destruct rd as [[pd in2] bytes_read].
  assert (Hok2 : stream_ok in2).
  { destruct (fsz >? 0).
    - pose proof (ifs_read_stream_ok in1 (bytes_to_read sc) Hok1) as Hr.
      destruct (ifs_read in1 (bytes_to_read sc)) as [got in3].
      bind_inv Hrd as pd' Hpd'. inversion Hrd; subst. exact Hr.
    - inversion Hrd; subst. done. }
  destruct (Z.gtb_spec (bytes_to_read sc - bytes_read) 0) as [Hmore|Hfull].
  - bind_inv H as st Hst.
    destruct st as [[[[m1 cs1] sin] btr] po].
    inversion H; subst; clear H. simpl. split; [|done].
    destruct (negb _).
    + bind_inv Hst as sk Hsk. destruct sk as [[pos' un'] cs'].
      inversion Hst; subst. apply piece_size_le. done.
    + inversion Hst; subst. lia.
  - bind_inv H as st Hst. destruct st as [m1 pieces1].
    inversion H; subst; clear H. simpl.
    split; [by apply piece_size_le|]. split; [done|]. split; [done|].
    destruct (fsz >? 0).
    + destruct (ifs_read in1 (bytes_to_read sc)) as [got in3] eqn:Eread.
      bind_inv Hrd as pd' Hpd'. inversion Hrd; subst; clear Hrd.
      apply ifs_read_remaining in Eread as [Hlt _]; [lia | done |].
      intros ->. simpl in Hfull. lia.
    + inversion Hrd; subst. lia.
Qed.

Lemma check_loop_fuel assertions info save_path d abort fuel :
  info_wf info →
  ∀ k file_iter sc m pieces,
  0 < bytes_to_read sc → stream_ok (in_ sc) →
  (rounds_left save_path d file_iter sc <= fuel)%nat →
  check_loop assertions info save_path fuel d abort k file_iter sc m pieces
    ≠ OutOfFuel.
Proof.
  intros Hwf. induction fuel as [|fuel IH];
    intros k file_iter sc m pieces Hbtr Hstream Hfuel.
  - destruct file_iter as [|f rest]; simpl; [done|].
    cbn [rounds_left] in Hfuel. destruct (changed_file sc); lia.
  - destruct file_iter as [|f rest]; simpl; [done|].
    destruct (abort k); [done|].
    apply bind_fuel.
    { apply scan_step_fuel. by destruct Hwf as [? _ _ _ _]; lia. }
    intros [[[adv sc1] m1] pieces1] Hstep.
    apply (scan_step_progress _ _ _ _ _ _ _ _ _ _ _ _ Hwf Hbtr Hstream)
      in Hstep as (Hbtr1 & Hstream1 & Hadv).
    apply IH; [done | done |]. destruct adv.
    + destruct rest as [|f' rest']; cbn [rounds_left files_budget] in *;
        [lia|].
      rewrite Hadv. destruct (changed_file sc); lia.
    + destruct Hadv as [Hch Hrem]. cbn [rounds_left] in *. rewrite Hch.
      destruct (changed_file sc); lia.
Qed.

(** [check_pieces] comes to an end within the fuel it is given. *)
Lemma check_pieces_terminates assertions info save_path d m abort pieces :
  info_wf info →
  check_pieces assertions info save_path d m abort pieces ≠ OutOfFuel.
Proof.
  intros Hwf. unfold check_pieces. cbv zeta.
  apply bind_fuel.
  - apply check_loop_fuel;
      [done | simpl; by destruct Hwf as [? _ _ _ _]; lia | done |].
    rewrite scan_fuel_budget. unfold rounds_left.
    destruct (files info) as [|f rest]; [lia|].
    cbn [files_budget scan_init changed_file]. lia.
  - intros [[m1 pieces1] completed] _. destruct completed; [|done].
    apply bind_fuel; [apply check_invariant_fuel | done].
Qed.

Lemma check_pieces_ok assertions info save_path d abort m pieces :
  0 < num_pieces info →
  check_pieces assertions info save_path d new_impl abort
    (replicate (Z.to_nat (num_pieces info)) false) = Ok (m, pieces) →
  ∃ cs, scan_ok info cs m pieces.
Proof.
  intros HN H. unfold check_pieces in H. simpl in H.
  bind_inv H as st Hst. destruct st as [[m1 pieces1] completed].
  apply check_loop_ok in Hst; [| simpl; lia | by apply scan_ok_initial].
  destruct completed.
  - bind_inv H as u Hu. by inversion H; subst.
  - by inversion H; subst.
Qed.

(** C2: [check_pieces] comes to an end; after it has returned on the
    constructed manager, called with an all-false bitmask, and after every [read], [write] (through
    [slot_for_piece]) and [allocate_slots] that follows and returns, the
    mapping is inverse-consistent: [piece_to_slot[p] = s >= 0] implies
    [slot_to_piece[s] = p]. *)
Theorem mapping_inverse_consistent
    (assertions : bool) (info : torrent_info) (save_path : string)
    (d : disk) (abort : nat → bool) :
  info_wf info →
  check_pieces assertions info save_path d new_impl abort
    (replicate (Z.to_nat (num_pieces info)) false) ≠ OutOfFuel
  ∧ ∀ m pieces,
      check_pieces assertions info save_path d new_impl abort
        (replicate (Z.to_nat (num_pieces info)) false) = Ok (m, pieces) →
      inverse_consistent m
      ∧ ∀ d0 ops d' m',
          run_operations assertions info save_path (d0, m) ops
            = Ok (d', m') →
          inverse_consistent m'.
Proof.
  intros Hwf. split; [by apply check_pieces_terminates|].
  intros m pieces H.
  apply check_pieces_ok in H as [cs Hscan];
    [|destruct Hwf as [_ HN _ _ _]; lia].
  destruct Hscan as [Hok _ _ _ _ _ _]. split.
  - by apply impl_ok_inverse_consistent.
  - intros d0 ops d' m' Hrun.
    apply (run_operations_ok _ _ _ _ _ _ _ _ Hok) in Hrun as [Hok' _].
    by apply impl_ok_inverse_consistent.
Qed.

Lemma mapping_inverse_consistent_witness :
  ∃ m pieces d' m',
    check_pieces true info_one_file "t" disk_misplaced new_impl never
      (replicate (Z.to_nat (num_pieces info_one_file)) false)
      = Ok (m, pieces)
    ∧ run_operations true info_one_file "t" (disk_misplaced, m)
        [op_allocate_slots 5; op_write [3; 4] 1 0 2] = Ok (d', m')
    ∧ inverse_consistent m ∧ inverse_consistent m'.
Proof.
  eexists _, _, _, _. split; [vm_compute; reflexivity|].
  split; [vm_compute; reflexivity|].
  destruct (proj2 (mapping_inverse_consistent true info_one_file "t"
                     disk_misplaced never info_one_file_wf)
              _ _ ltac:(vm_compute; reflexivity))
    as [H1 H2].
  split; [exact H1|].
  eapply (H2 disk_misplaced [op_allocate_slots 5; op_write [3; 4] 1 0 2]).
  vm_compute; reflexivity.
Defined.

(** C8: [check_pieces] comes to an end; after it has returned on the
    constructed manager, called with an all-false bitmask, [m_bytes_left] is the sum of [piece_size p] over
    the pieces [p] that the bitmask does not have; the operations that
    follow change neither. *)
Theorem bytes_left_is_missing_size
    (assertions : bool) (info : torrent_info) (save_path : string)
    (d : disk) (abort : nat → bool) :
  info_wf info →
  check_pieces assertions info save_path d new_impl abort
    (replicate (Z.to_nat (num_pieces info)) false) ≠ OutOfFuel
  ∧ ∀ m pieces,
      check_pieces assertions info save_path d new_impl abort
        (replicate (Z.to_nat (num_pieces info)) false) = Ok (m, pieces) →
      m_bytes_left m = left_size info 0 pieces
      ∧ ∀ d0 ops d' m',
          run_operations assertions info save_path (d0, m) ops
            = Ok (d', m') →
          m_bytes_left m' = left_size info 0 pieces.
Proof.
  intros Hwf. split; [by apply check_pieces_terminates|].
  intros m pieces H.
  apply check_pieces_ok in H as [cs Hscan];
    [|destruct Hwf as [_ HN _ _ _]; lia].
  destruct Hscan as [Hok _ _ _ _ _ Hbytes]. split; [done|].
  intros d0 ops d' m' Hrun.
  apply (run_operations_ok _ _ _ _ _ _ _ _ Hok) in Hrun as [_ Hsame].
  congruence.
Qed.

Lemma bytes_left_is_missing_size_witness :
  ∃ m pieces,
    check_pieces true info_one_file "t" disk_misplaced new_impl never
      (replicate (Z.to_nat (num_pieces info_one_file)) false)
      = Ok (m, pieces)
    ∧ pieces = [false; false; true]
    ∧ m_bytes_left m = 4
    ∧ m_bytes_left m = left_size info_one_file 0 pieces.
Proof.
  eexists _, _. split; [vm_compute; reflexivity|].
  split; [reflexivity|]. split; [reflexivity|].
  apply (proj2 (bytes_left_is_missing_size true info_one_file "t"
                  disk_misplaced never info_one_file_wf)
           _ _ ltac:(vm_compute; reflexivity)).
Defined.

End tables.

(** ** Requests on a slot *)

Lemma locate_past_end fl a :
  Forall (λ f, 0 < f_size f) fl →
  sum_sizes fl <= a → storage.locate fl a = Undefined.
Proof.
  intros Hfl. revert a. induction Hfl as [|f fl Hf Hfl IH]; intros a Ha;
    [done|].
  pose proof (sum_sizes_nonneg fl Hfl) as Hnn.
  unfold sum_sizes in Ha. simpl in Ha. fold (sum_sizes fl) in Ha.
  simpl. destruct (Z.ltb_spec a (f_size f)) as [Hlt|Hge]; [lia|].
  apply IH. lia.
Qed.

(** X4: [storage::read] and [storage::write] do not check the slot
    against the number of pieces: a request of positive size that
    starts at or after the end of the payload walks off the end of the
    file list, with and without assertions. *)
Theorem access_past_payload_undefined
    (assertions : bool) (info : torrent_info) (save_path : string)
    (d : disk) (buf : list Z) (slot offset size : Z) :
  Forall (λ f, 0 < f_size f) (files info) → 0 < size →
  total_size info <= slot * piece_length info + offset →
  storage.read assertions info save_path d buf slot offset size = Undefined
  ∧ storage.write assertions info save_path d buf slot offset size
    = Undefined.
Proof.
  intros Hfl Hsize Hpast.
  unfold storage.read, storage.write, assert_b, assert_m.
  destruct (negb (in_size_type offset && in_size_type size)); [done|].
  destruct (Z.gtb_spec size 0) as [_|?]; [|lia].
  rewrite (locate_past_end _ _ Hfl Hpast).
  by destruct assertions.
Qed.

Lemma access_past_payload_undefined_witness :
  storage.read true info_one_file "t" disk_truncated [0; 0] 3 0 2 = Undefined
  ∧ storage.write true info_one_file "t" disk_truncated [0; 0] 3 0 2
    = Undefined.
Proof.
  apply (access_past_payload_undefined true info_one_file "t" disk_truncated
           [0; 0] 3 0 2).
  - repeat constructor.
  - lia.
  - vm_compute. discriminate.
Defined.

Lemma write_preserved_clamped assertions info save_path d d' buf slot offset
    size :
  info_wf info → 0 <= slot → 0 <= offset → offset + size < 2 ^ 63 →
  storage.write assertions info save_path d buf slot offset size = Ok d' →
  preserved (in_written_range save_path (files info)
               (slot * piece_length info + offset)
               (Z.min size (piece_size info slot - offset))) d d'.
Proof.
  intros Hwf Hslot Hoff Hfit H.
  pose proof (piece_size_le info slot Hwf) as Hps.
  destruct Hwf as [Hpl HN Hlast Hfiles Hh].
  unfold storage.write in H.
  destruct (in_size_type offset && in_size_type size) eqn:Hg;
    [|discriminate].
  apply andb_true_iff in Hg as [Hto Hts].
  apply in_size_type_spec in Hto, Hts. cbn [negb] in H.
  rewrite (int64_small (offset + size)) in H by lia.
  rewrite (int64_small (piece_size info slot - offset)) in H by lia.
  bind_inv H as u0 Hu0. bind_inv H as loc Hloc. destruct loc as [fl' fo].
  apply locate_spec in Hloc as (pre & f & rest & Hfl & -> & Hstart & Hfo);
    [| done | nia].
  destruct (ofs_open d (file_path save_path f)) as [d0 out0] eqn:Eo.
  assert (Hout0 : out0 = {| out_good := true;
                            out_path := file_path save_path f;
                            out_pos := 0 |}).
  { rewrite <- (ofs_open_stream d). by rewrite Eo. }
  assert (Hd0 : ∀ W, preserved W d d0).
  { intros W. replace d0 with (ofs_open d (file_path save_path f)).1
      by (by rewrite Eo). apply preserved_open. }
  subst out0. bind_inv H as u1 Hu1.
  rewrite ofs_seekp_good in H by lia.
  bind_inv H as u2 Hu2.
  assert (Hn : (if offset + size >? piece_size info slot
                then piece_size info slot - offset else size)
               = Z.min size (piece_size info slot - offset)).
  { destruct (Z.gtb_spec (offset + size) (piece_size info slot)); lia. }
  rewrite Hn in H. set (n := Z.min size (piece_size info slot - offset)) in *.
  bind_inv H as u3 Hu3.
  destruct (Z.gtb_spec n 0) as [Hpos|Hnp].
  - rewrite Hfl in Hfiles. apply Forall_app in Hfiles as [Hpre Hfl'].
    eapply write_loop_preserved in H; [| done | reflexivity | lia..].
    eapply preserved_trans; [apply Hd0|].
    eapply preserved_weaken; [|exact H].
    intros p k Hr. rewrite Hfl, Hstart.
    eapply loop_range_in_written_range; [|exact Hr]. lia.
  - inversion H; subst. apply Hd0.
Qed.

(** A byte of the address space is a byte of one file. *)
Lemma vbyte_Some_inv save_path d fl a b :
  Forall (λ f, 0 < f_size f) fl →
  vbyte save_path d fl a = Some b →
  ∃ (j : nat) f c (k : nat),
    fl !! j = Some f ∧ a = file_start fl j + Z.of_nat k
    ∧ Z.of_nat k < f_size f
    ∧ d !! file_path save_path f = Some c ∧ c !! k = Some b.
Proof.
  intros Hfl. revert a. induction Hfl as [|f fl Hf Hfl IH]; intros a H;
    [done|].
  simpl in H. destruct (Z.ltb_spec a (f_size f)) as [Hlt|Hge].
  - destruct (Z.ltb_spec a 0) as [|Ha]; [done|].
    destruct (d !! file_path save_path f) as [c|] eqn:Ec; [|done].
    simpl in H. exists 0%nat, f, c, (Z.to_nat a).
    unfold file_start, sum_sizes. simpl. repeat split; try done; lia.
  - apply IH in H as (j & f' & c & k & Hj & Ha & Hk & Hc & Hb).
    exists (S j), f', c, k. repeat split; try done.
    unfold file_start, sum_sizes in *. simpl. lia.
Qed.

Lemma vbyte_file save_path d fl (j : nat) f (k : nat) :
  Forall (λ f, 0 < f_size f) fl →
  fl !! j = Some f → Z.of_nat k < f_size f →
  vbyte save_path d fl (file_start fl j + Z.of_nat k)
  = c ← d !! file_path save_path f; c !! k.
Proof.
  intros Hfl. revert j. induction Hfl as [|f0 fl Hf Hfl IH]; intros j Hj Hk;
    [done|].
  destruct j as [|j].
  - inversion Hj; subst f0. unfold file_start, sum_sizes. simpl take.
    simpl foldr. rewrite vbyte_cons_lt by lia.
    by rewrite Z.add_0_l, Nat2Z.id.
  - simpl in Hj. assert (Hnn : 0 <= sum_sizes (take j fl))
      by (apply sum_sizes_nonneg; by apply Forall_take).
    unfold file_start in *. 
    replace (sum_sizes (take (S j) (f0 :: fl)))
      with (f_size f0 + sum_sizes (take j fl)) by reflexivity.
    rewrite vbyte_cons_ge by lia.
    replace (f_size f0 + sum_sizes (take j fl) + Z.of_nat k - f_size f0)
      with (sum_sizes (take j fl) + Z.of_nat k) by lia.
    by apply IH.
Qed.

(** With distinct paths, bytes kept file by file are bytes kept address
    by address. *)
Lemma preserved_vbyte save_path fl start n d d' a b :
  Forall (λ f, 0 < f_size f) fl →
  preserved (in_written_range save_path fl start n) d d' →
  NoDup (file_path save_path <$> fl) →
  ¬ (start <= a < start + n) →
  vbyte save_path d fl a = Some b → vbyte save_path d' fl a = Some b.
Proof.
  intros Hfl Hpres Hnd Hout H.
  apply vbyte_Some_inv in H as (j & f & c & k & Hj & -> & Hk & Hc & Hb);
    [|done].
  rewrite (vbyte_file _ _ _ _ _ _ Hfl Hj Hk).
  destruct (Hpres _ _ Hc) as (c' & Hc' & Hlen & Hsame).
  rewrite Hc'. simpl. rewrite Hsame; [done | by eapply lookup_lt_Some |].
  intros (j' & f' & Hj' & Hp & Hk' & Hr).
  assert (j' = j) as ->.
  { eapply NoDup_lookup; [exact Hnd | |];
      rewrite list_lookup_fmap; [rewrite Hj' | rewrite Hj]; simpl;
      by rewrite ?Hp. }
  lia.
Qed.

(** X2: a [storage::write] that returns leaves every byte of the
    payload outside the request clamped to the slot,
    [[slot * piece_length + offset, + min size (piece_size slot - offset))],
    as it was: nothing is written into the slot that follows. *)
Theorem write_confined_to_slot
    (assertions : bool) (info : torrent_info) (save_path : string)
    (d d' : disk) (buf : list Z) (slot offset size : Z) (a b : Z) :
  info_wf info → NoDup (file_path save_path <$> files info) →
  0 <= slot → 0 <= offset → offset + size < 2 ^ 63 →
  storage.write assertions info save_path d buf slot offset size = Ok d' →
  ¬ (slot * piece_length info + offset <= a
     < slot * piece_length info + offset
       + Z.min size (piece_size info slot - offset)) →
  vbyte save_path d (files info) a = Some b →
  vbyte save_path d' (files info) a = Some b.
Proof.
  intros Hwf Hnd Hslot Hoff Hfit H Hout Hb.
  eapply preserved_vbyte; [by destruct Hwf | | done | exact Hout | exact Hb].
  by eapply write_preserved_clamped.
Qed.

Lemma write_confined_to_slot_witness :
  ∃ d', storage.write true info_one_file "t" disk_misplaced [7; 8] 2 0 2
        = Ok d'
        ∧ vbyte "t" d' (files info_one_file) 3 = Some 9.
Proof.
  eexists. split; [vm_compute; reflexivity|].
  apply (write_confined_to_slot true info_one_file "t" disk_misplaced _
           [7; 8] 2 0 2 3 9 info_one_file_wf).
  - vm_compute. repeat constructor; set_solver.
  - lia.
  - lia.
  - lia.
  - vm_compute; reflexivity.
  - intros [H1 _]. vm_compute in H1. by apply H1.
  - vm_compute; reflexivity.
Defined.





(** X5: when [offset + size] does not fit [size_type], the sum wraps
    below the slot size, the request is not clamped, and a
    [storage::read] that returns gives back [size] narrowed to [int],
    whatever was read. *)
Theorem read_end_beyond_size_type
    (assertions : bool) (info : torrent_info) (save_path : string)
    (d : disk) (buf : list Z) (slot offset size : Z)
    (r : storage.read_result) :
  info_wf info → 0 <= offset → 2 ^ 63 <= offset + size →
  storage.read assertions info save_path d buf slot offset size = Ok r →
  storage.rr_result r = int32 size.
Proof.
  intros Hwf Hoff Hbig H.
  pose proof (piece_size_le info slot Hwf) as Hps.
  unfold storage.read in H.
  destruct (in_size_type offset && in_size_type size) eqn:Hg;
    [|discriminate].
  apply andb_true_iff in Hg as [Hto Hts].
  apply in_size_type_spec in Hto, Hts. cbn [negb] in H.
  bind_inv H as u0 Hu0. bind_inv H as loc Hloc. destruct loc as [fl' fo].
  destruct fl' as [|f rest]; [discriminate|].
  bind_inv H as u1 Hu1. bind_inv H as u2 Hu2.
  destruct (int64_cases (offset + size) ltac:(lia))
    as [[Hz E]|[[Hz E]|[Hz E]]]; [lia | | lia].
  rewrite E in H.
  destruct (Z.gtb_spec (offset + size - 2 ^ 64) (piece_size info slot))
    as [|_]; [lia|].
  bind_inv H as u3 Hu3.
  destruct (size >? 0).
  - bind_inv H as res Hres. destruct res as [buf' actual].
    by inversion H.
  - by inversion H.
Qed.

Lemma read_end_beyond_size_type_witness :
  storage.read false info_one_file "t" disk_complete [7; 7] 1 1
    (2 ^ 63 - 1)
  = Ok {| storage.rr_result := -1; storage.rr_buf := [7; 7];
          storage.rr_actual := 0 |}
  ∧ int32 (2 ^ 63 - 1) = -1.
Proof.
  split; [vm_compute; reflexivity|].
  rewrite <- (read_end_beyond_size_type false info_one_file "t"
                disk_complete [7; 7] 1 1 (2 ^ 63 - 1)
                {| storage.rr_result := -1; storage.rr_buf := [7; 7];
                   storage.rr_actual := 0 |} info_one_file_wf).
  - reflexivity.
  - lia.
  - lia.
  - vm_compute; reflexivity.
Defined.

(** ** The lazily computed digests *)

Lemma uint32_small z : 0 <= z < 2 ^ 32 → uint32 z = z.
Proof. intros H. unfold uint32. by apply Z.mod_small. Qed.

Lemma lazy_hash_get_ok buf sz l :
  0 <= sz < 2 ^ 32 → sz <= Z.of_nat (length buf) →
  lazy_ok buf sz l →
  ∃ l', lazy_hash.get l = Ok (hash_of (take (Z.to_nat sz) buf), l')
        ∧ lazy_ok buf sz l'
        ∧ lazy_hash.data l' = None.
Proof.
  intros Hsz Hlen [Hs [[Hd Hh]|[Hd Hg]]]; unfold lazy_hash.get; rewrite Hd.
  - rewrite Hh, Hs, uint32_small by done.
    unfold hasher.update, hasher.new, hasher.SHA1Init. simpl.
    destruct (Z.ltb_spec (Z.of_nat (length buf)) sz) as [|_]; [lia|].
    simpl. eexists. split; [reflexivity|]. split; [|done].
    split; [done|]. right. done.
  - exists l. rewrite Hg. split; [done|]. split; [|done].
    split; [done|]. right. done.
Qed.

(** X18: the first [get] of a [lazy_hash] over [sz] bytes returns the
    SHA-1 of these bytes, drops the data pointer and leaves the hasher
    finalised; every later [get] returns the stored digest without
    touching the hasher. *)
Theorem lazy_hash_get_once
    (uninitialised buf : list Z) (sz : Z) :
  0 <= sz < 2 ^ 32 → sz <= Z.of_nat (length buf) →
  ∃ l1,
    lazy_hash.get (lazy_hash.new uninitialised (Some buf) sz)
    = Ok (SHA1.sha1 (take (Z.to_nat sz) buf), l1)
    ∧ lazy_hash.get l1 = Ok (SHA1.sha1 (take (Z.to_nat sz) buf), l1)
    ∧ lazy_hash.data l1 = None
    ∧ hasher.m_context (lazy_hash.h l1) = hasher.spent.
Proof.
  intros Hsz Hlen. unfold lazy_hash.get at 1, lazy_hash.new.
  cbn [lazy_hash.data lazy_hash.h lazy_hash.size].
  rewrite uint32_small by done.
  unfold hasher.update, hasher.new, hasher.SHA1Init. simpl.
  destruct (Z.ltb_spec (Z.of_nat (length buf)) sz) as [|_]; [lia|].
  simpl. eexists. split; [reflexivity|]. done.
Qed.

Lemma lazy_hash_get_once_witness :
  ∃ l1,
    lazy_hash.get (lazy_hash.new [] (Some [5; 9]) 1)
    = Ok (SHA1.sha1 (take (Z.to_nat 1) [5; 9]), l1)
    ∧ lazy_hash.get l1 = Ok (SHA1.sha1 (take (Z.to_nat 1) [5; 9]), l1)
    ∧ lazy_hash.data l1 = None
    ∧ hasher.m_context (lazy_hash.h l1) = hasher.spent.
Proof.
  apply (lazy_hash_get_once [] [5; 9] 1).
  - vm_compute. split; [discriminate | reflexivity].
  - vm_compute. discriminate.
Defined.

Lemma vget_cases {A} (v : list A) i :
  (∃ x, vget v i = Ok x) ∨ vget v i = Undefined.
Proof.
  unfold vget. destruct (i <? 0); [by right|].
  destruct (v !! Z.to_nat i); [left; eauto | by right].
Qed.

Lemma find_piece_lazy_ok info pieces buf szl szs cs cands :
  0 <= szl < 2 ^ 32 → szl <= Z.of_nat (length buf) →
  0 <= szs < 2 ^ 32 → szs <= Z.of_nat (length buf) →
  ∀ large small acc,
  lazy_ok buf szl large → lazy_ok buf szs small →
  ('(r, _, _) ← find_piece_lazy info pieces large small cs cands acc; Ok r)
  = piece_manager.find_piece info pieces
      (hash_of (take (Z.to_nat szl) buf))
      (hash_of (take (Z.to_nat szs) buf)) cs cands acc.
Proof.
  intros Hl1 Hl2 Hs1 Hs2.
  induction cands as [|i cands IH]; intros large small acc Hlarge Hsmall.
  - done.
  - cbn [find_piece_lazy piece_manager.find_piece].
    destruct (vget_cases pieces i) as [[have ->]| ->]; [|done].
    cbn [mbind result_bind].
    destruct (have && negb (i =? cs)); [by apply IH|].
    destruct (i =? num_pieces info - 1).
    + destruct (lazy_hash_get_ok buf szs small Hs1 Hs2 Hsmall)
        as (small' & -> & Hsmall' & _).
      cbn [mbind result_bind].
      destruct (digest_eq _ _); by apply IH.
    + destruct (lazy_hash_get_ok buf szl large Hl1 Hl2 Hlarge)
        as (large' & -> & Hlarge' & _).
      cbn [mbind result_bind].
      destruct (digest_eq _ _); by apply IH.
Qed.

(** X19: the candidate loop of [check_pieces] with its two [lazy_hash]
    objects, over the full buffer, finds what [find_piece] finds from
    the two digests computed beforehand: a digest is computed when it
    is first compared and has the same value. *)
Theorem find_piece_lazy_refines
    (info : torrent_info) (pieces : list bool) (piece_data u1 u2 : list Z)
    (current_slot : Z) (cands : list Z) (found_piece : Z) :
  info_wf info →
  Z.of_nat (length piece_data) = piece_length info →
  let piece_size_ := piece_length info in
  let last_piece_size_ := piece_size info (num_pieces info - 1) in
  ('(r, _, _) ← find_piece_lazy info pieces
                  (lazy_hash.new u1 (Some piece_data) piece_size_)
                  (lazy_hash.new u2 (Some piece_data) last_piece_size_)
                  current_slot cands found_piece;
   Ok r)
  = piece_manager.find_piece info pieces
      (hash_of (take (Z.to_nat piece_size_) piece_data))
      (hash_of (take (Z.to_nat last_piece_size_) piece_data))
      current_slot cands found_piece.
Proof.
  intros Hwf Hlen piece_size_ last_piece_size_.
  pose proof (piece_size_le info (num_pieces info - 1) Hwf) as Hps.
  destruct Hwf as [Hpl _ _ _ _].
  apply find_piece_lazy_ok; subst piece_size_ last_piece_size_;
    try lia; (split; [done|]; by left).
Qed.

Lemma info_twins_wf : info_wf info_twins.
Proof. split; [vm_compute; done.. | repeat constructor | reflexivity]. Qed.

Lemma find_piece_lazy_refines_witness :
  ('(r, _, _) ← find_piece_lazy info_twins [false; false; false]
                  (lazy_hash.new [] (Some [1; 2])
                     (piece_length info_twins))
                  (lazy_hash.new [] (Some [1; 2])
                     (piece_size info_twins (num_pieces info_twins - 1)))
                  0 (seqZ 0 3) (-1);
   Ok r) = Ok 1.
Proof.
  refine (eq_trans (find_piece_lazy_refines info_twins [false; false; false]
                      [1; 2] [] [] 0 (seqZ 0 3) (-1) info_twins_wf eq_refl)
                   _).
  vm_compute. reflexivity.
Defined.

(** ** The fingerprint *)

(** X20: a [fingerprint] constructed with assertions has a two
    character id and four version numbers below ten, and [to_string]
    writes the version numbers as the characters with these codes (0
    to 9), not as digits, between the two dashes and after the id. *)
Theorem fingerprint_writes_raw_versions
    (id_string : list Z) (major minor revision tag : Z)
    (f : fingerprint.fingerprint) :
  fingerprint.new true id_string major minor revision tag = Ok f →
  ∃ c0 c1,
    id_string = [c0; c1]
    ∧ fingerprint.to_string f
      = [45; c0; c1; major; minor; revision; tag; 45]
    ∧ Forall (λ c, 0 <= c < 10) [major; minor; revision; tag].
Proof.
  intros H. unfold fingerprint.new in H.
  bind_inv H as u1 H1. bind_inv H as u2 H2. bind_inv H as u3 H3.
  bind_inv H as u4 H4. bind_inv H as u5 H5.
  apply assert_b_Ok in H1, H2, H3, H4, H5; try done.
  apply andb_true_iff in H1 as [?%Z.geb_le ?%Z.ltb_lt].
  apply andb_true_iff in H2 as [?%Z.geb_le ?%Z.ltb_lt].
  apply andb_true_iff in H3 as [?%Z.geb_le ?%Z.ltb_lt].
  apply andb_true_iff in H4 as [?%Z.geb_le ?%Z.ltb_lt].
  apply Z.eqb_eq in H5. unfold fingerprint.strlen in H5.
  destruct id_string as [|c0 [|c1 [|]]]; simpl in H5; try lia.
  simpl in H. inversion H; subst f; clear H.
  exists c0, c1. split; [done|]. split.
  - unfold fingerprint.to_string, fingerprint.int8. simpl.
    rewrite !Z.mod_small by lia.
    repeat f_equal; lia.
  - repeat constructor; lia.
Qed.

Lemma fingerprint_writes_raw_versions_witness :
  ∃ f, fingerprint.new true [76; 84] 0 1 0 0 = Ok f
       ∧ fingerprint.to_string f = [45; 76; 84; 0; 1; 0; 0; 45].
Proof.
  eexists. split; [vm_compute; reflexivity|].
  destruct (fingerprint_writes_raw_versions [76; 84] 0 1 0 0 _
              ltac:(vm_compute; reflexivity))
    as (c0 & c1 & Hid & Hs & _).
  inversion Hid; subst c0 c1. exact Hs.
Defined.

(** ** Pieces and their slots *)

Section slots.
Import piece_manager.

Lemma total_size_bounds info :
  info_wf info →
  (num_pieces info - 1) * piece_length info < total_size info
  ∧ total_size info <= num_pieces info * piece_length info.
Proof.
  intros [Hpl HN Hlast _ _]. unfold last_piece_size in Hlast. lia.
Qed.

(** X7: [piece_manager::impl::write] of a piece that has a slot goes
    to that slot: [slot_for_piece] changes no table, and the disk is
    the one [storage::write] on the recorded slot gives. *)
Theorem write_to_placed_piece
    (assertions : bool) (info : torrent_info) (save_path : string)
    (d d' : disk) (m m' : impl) (buf : list Z) (p offset size s : Z) :
  vget (m_piece_to_slot m) p = Ok s → s ≠ -1 →
  write assertions info save_path d m buf p offset size = Ok (d', m') →
  m' = m
  ∧ storage.write assertions info save_path d buf s offset size = Ok d'.
Proof.
  intros Hs Hne H. unfold write in H.
  bind_inv H as st Hst. destruct st as [[d1 m1] slot].
  bind_inv H as d2 Hd2. inversion H; subst d2 m1; clear H.
  unfold slot_for_piece in Hst.
  bind_inv Hst as u0 Hu0. bind_inv Hst as u1 Hu1. bind_inv Hst as u2 Hu2.
  bind_inv Hst as s0 Hs0. rewrite Hs in Hs0. inversion Hs0; subst s0.
  destruct (Z.eqb_spec s (-1)) as [?|_]; [done|]. simpl in Hst.
  bind_inv Hst as u3 Hu3. bind_inv Hst as u4 Hu4.
  inversion Hst; subst. done.
Qed.

Lemma find_pos_elem x v :
  x ∈ v → v !! find_pos x v = Some x ∧ (find_pos x v < length v)%nat.
Proof.
  induction v as [|y v IH]; intros Hin; [by apply elem_of_nil in Hin|].
  simpl. destruct (Z.eqb_spec x y) as [->|Hne].
  - split; [done | simpl; lia].
  - apply elem_of_cons in Hin as [?|Hin]; [done|].
    destruct (IH Hin) as [H1 H2]. split; [done | simpl; lia].
Qed.

(** X9: a piece without a slot whose own index is on the free list
    is given that slot by [slot_for_piece]: both tables record it, the
    index leaves the free list, nothing is allocated or written. *)
Theorem slot_for_piece_prefers_natural_slot
    (assertions : bool) (info : torrent_info) (save_path : string)
    (d d' : disk) (m m' : impl) (p s : Z) :
  vget (m_piece_to_slot m) p = Ok (-1) →
  p ∈ m_free_slots m →
  slot_for_piece assertions info save_path d m p = Ok (d', m', s) →
  s = p ∧ d' = d
  ∧ vget (m_piece_to_slot m') p = Ok p
  ∧ vget (m_slot_to_piece m') p = Ok p
  ∧ m_free_slots m' = delete (find_pos p (m_free_slots m)) (m_free_slots m)
  ∧ m_unallocated_slots m' = m_unallocated_slots m.
Proof.
  intros Hp Hin H. unfold slot_for_piece in H.
  bind_inv H as u0 Hu0. bind_inv H as u1 Hu1. bind_inv H as u2 Hu2.
  bind_inv H as s0 Hs0. rewrite Hp in Hs0. inversion Hs0; subst s0.
  simpl in H.
  rewrite bool_decide_eq_false_2 in H
    by (intros E; rewrite E in Hin; by apply elem_of_nil in Hin).
  simpl in H.
  destruct (find_pos_elem _ _ Hin) as [Hlook Hlt].
  rewrite bool_decide_eq_false_2 in H by lia. simpl in H.
  unfold deref in H at 1. rewrite Hlook in H. simpl in H.
  bind_inv H as u3 Hu3. bind_inv H as s2p Hs2p. bind_inv H as p2s Hp2s.
  rewrite Z.eqb_refl in H. simpl in H.
  bind_inv H as u4 Hu4. inversion H as [[Hd Hm Hsp]]; clear H.
  subst d' m' s. simpl.
  split; [done|]. split; [done|].
  rewrite (vget_vset _ _ _ p _ Hp2s), (vget_vset _ _ _ p _ Hs2p).
  by rewrite bool_decide_eq_true_2.
Qed.

Lemma allocate_slot_pools assertions info save_path d m zeros pos d' m' z' :
  allocate_slot assertions info save_path d m zeros pos = Ok (d', m', z') →
  m_bytes_left m' = m_bytes_left m
  ∧ ∃ x, m_free_slots m' = m_free_slots m ++ [x]
         ∧ (x = pos ∨ vget (m_piece_to_slot m) pos = Ok x).
Proof.
  intros H. unfold allocate_slot in H.
  bind_inv H as ps Hps. bind_inv H as tr Htr.
  destruct tr as [[m1 zeros1] nfs].
  bind_inv H as s2p Hs2p. bind_inv H as d1 Hd1.
  inversion H; subst; clear H. simpl.
  destruct (negb (ps =? -1)).
  - bind_inv Htr as u Hu. bind_inv Htr as r Hr.
    bind_inv Htr as s2p0 Hs2p0. bind_inv Htr as p2s0 Hp2s0.
    inversion Htr; subst. simpl. split; [done|]. exists nfs.
    split; [done|]. by right.
  - inversion Htr; subst. split; [done|]. exists nfs. split; [done|].
    by left.
Qed.

Lemma allocate_loop_pools assertions info save_path n :
  ∀ iter d m zeros iter' d' m',
  allocate_loop assertions info save_path n iter d m zeros
    = Ok (iter', d', m') →
  iter' = drop n iter
  ∧ m_bytes_left m' = m_bytes_left m
  ∧ ∃ l, m_free_slots m' = m_free_slots m ++ l
         ∧ length l = (n `min` length iter)%nat.
Proof.
  induction n as [|n IH]; intros iter d m zeros iter' d' m' H.
  - simpl in H. inversion H; subst. split; [done|]. split; [done|].
    exists []. by rewrite app_nil_r.
  - destruct iter as [|pos iter]; simpl in H.
    + inversion H; subst. split; [done|]. split; [done|].
      exists []. by rewrite app_nil_r.
    + bind_inv H as st Hst. destruct st as [[d1 m1] zeros1].
      apply allocate_slot_pools in Hst as (Hb & x & Hx & _).
      apply IH in H as (-> & Hb' & l & Hl & Hlen).
      split; [done|]. split; [congruence|].
      exists (x :: l). rewrite Hl, Hx, <- app_assoc.
      split; [done|]. simpl. lia.
Qed.

(** X10: [allocate_slots(n)] that returns has removed the first [n]
    unallocated slots (all of them if there are fewer), has appended as
    many slots to the free list, so the two pools together keep their
    size, and has left [bytes_left] alone. *)
Theorem allocate_slots_drains_prefix
    (assertions : bool) (info : torrent_info) (save_path : string)
    (d d' : disk) (m m' : impl) (num_slots : Z) :
  allocate_slots assertions info save_path d m num_slots = Ok (d', m') →
  m_unallocated_slots m'
    = drop (Z.to_nat num_slots) (m_unallocated_slots m)
  ∧ (∃ l, m_free_slots m' = m_free_slots m ++ l
          ∧ length l = (Z.to_nat num_slots
                        `min` length (m_unallocated_slots m))%nat)
  ∧ (length (m_free_slots m') + length (m_unallocated_slots m')
     = length (m_free_slots m) + length (m_unallocated_slots m))%nat
  ∧ m_bytes_left m' = m_bytes_left m.
Proof.
  intros H. unfold allocate_slots in H.
  bind_inv H as u0 Hu0. bind_inv H as st Hst.
  destruct st as [[iter d1] m1]. bind_inv H as u1 Hu1.
  inversion H; subst d' m'; clear H. simpl.
  apply allocate_loop_pools in Hst as (-> & Hb & l & Hl & Hlen).
  split; [done|]. split; [by exists l|]. split; [|done].
  rewrite Hl, length_app, length_drop. lia.
Qed.

(** The slot that [slot_for_piece] returns is the one the tables record
    for the piece when it returns. *)
Lemma slot_for_piece_recorded assertions info save_path d m p d' m' slot :
  impl_ok m →
  slot_for_piece assertions info save_path d m p = Ok (d', m', slot) →
  vget (m_piece_to_slot m') p = Ok slot
  ∧ vget (m_slot_to_piece m') slot = Ok p.
Proof.
  intros Hok H. unfold slot_for_piece in H.
  bind_inv H as u0 Hu0. bind_inv H as u1 Hu1. bind_inv H as u2 Hu2.
  bind_inv H as s0 Hs0.
  destruct (Z.eqb_spec s0 (-1)) as [->|Hne]; simpl in H.
  2:{ bind_inv H as u3 Hu3. bind_inv H as u4 Hu4.
      inversion H; subst. split; [done|].
      destruct Hok as [Hp _ _ _ _ _]. by apply Hp. }
  bind_inv H as st1 Hst1. destruct st1 as [d1 m1].
  assert (H1 : impl_ok m1 ∧ vget (m_piece_to_slot m1) p = Ok (-1)).
  { destruct (bool_decide (m_free_slots m = [])).
    - bind_inv Hst1 as st Hst. destruct st as [d0 m0].
      bind_inv Hst1 as u Hu. inversion Hst1; subst d0 m0.
      apply (allocate_slots_ok _ _ _ _ _ _ _ _ Hok) in Hst
        as (Hok1 & _ & Hk1).
      split; [done|]. by apply Hk1.
    - inversion Hst1; subst. done. }
  clear Hst1. destruct H1 as (Hok1 & Hp1).
  bind_inv H as st2 Hst2. destruct st2 as [[d2 m2] iter].
  assert (H2 : impl_ok m2 ∧ vget (m_piece_to_slot m2) p = Ok (-1)).
  { destruct (bool_decide (find_pos p (m_free_slots m1)
                            = length (m_free_slots m1))).
    - bind_inv Hst2 as u Hu. bind_inv Hst2 as it Hit.
      bind_inv Hst2 as last Hlast.
      destruct ((last =? num_pieces info - 1) && negb (p =? last)).
      + bind_inv Hst2 as st Hst. destruct st as [d0 m0].
        bind_inv Hst2 as u' Hu'. bind_inv Hst2 as it' Hit'.
        inversion Hst2; subst d0 m0 it'.
        destruct (bool_decide (length (m_free_slots m1) = 1%nat)).
        * apply (allocate_slots_ok _ _ _ _ _ _ _ _ Hok1) in Hst
            as (Hok2 & _ & Hk2).
          split; [done|]. by apply Hk2.
        * inversion Hst; subst. done.
      + inversion Hst2; subst. done.
    - inversion Hst2; subst. done. }
  clear Hst2. destruct H2 as (Hok2 & Hp2).
  bind_inv H as slot_index Hderef. apply deref_Some in Hderef.
  bind_inv H as u5 Hu5. bind_inv H as s2p1 Hs2p1. bind_inv H as p2s1 Hp2s1.
  pose proof (assign_ok _ _ _ _ _ _ _ _ _ Hok2 Hderef Hp2 Hs2p1 Hp2s1)
    as Hok3.
  assert (Hslot1 : vget s2p1 slot_index = Ok p).
  { rewrite (vget_vset _ _ _ slot_index _ Hs2p1).
    by rewrite bool_decide_eq_true_2. }
  assert (Hpiece1 : vget p2s1 p = Ok slot_index).
  { rewrite (vget_vset _ _ _ p _ Hp2s1). by rewrite bool_decide_eq_true_2. }
  bind_inv H as collide Hcollide. bind_inv H as st3 Hst3.
  destruct st3 as [[d3 m3] slot3]. bind_inv H as u6 Hu6.
  inversion H; subst d' m' slot; clear H.
  destruct collide.
  - bind_inv Hst3 as q Hq. bind_inv Hst3 as u7 Hu7.
    bind_inv Hst3 as r Hr. bind_inv Hst3 as d4 Hd4.
    bind_inv Hst3 as s2p2 Hs2p2. bind_inv Hst3 as p2s2 Hp2s2.
    bind_inv Hst3 as u8 Hu8. inversion Hst3; subst d3 m3 slot3; clear Hst3.
    simpl.
    destruct (Z.eqb_spec slot_index p) as [?|Hdiff]; simpl in Hcollide;
      [discriminate|].
    bind_inv Hcollide as sp Hsp. inversion Hcollide as [Hge].
    rewrite Hq in Hsp. inversion Hsp; subst sp.
    apply swap_spec in Hs2p2 as (x1 & y1 & Hx1 & Hy1 & Es).
    apply swap_spec in Hp2s2 as (x2 & y2 & Hx2 & Hy2 & Ep).
    rewrite Hslot1 in Hy1. inversion Hy1; subst y1.
    destruct Hok3 as [_ Hs3 _ _ _ _].
    assert (Hpq : vget p2s1 q = Ok p) by (apply Hs3; [done | lia..]).
    rewrite Hpq in Hy2. inversion Hy2; subst y2.
    assert (Hqp : q ≠ p) by (intros ->; congruence).
    rewrite Ep, Es.
    rewrite (bool_decide_eq_false_2 (p = q)) by done.
    rewrite (bool_decide_eq_false_2 (p = slot_index)) by done.
    by rewrite bool_decide_eq_true_2.
  - inversion Hst3; subst d3 m3 slot3; clear Hst3. simpl. done.
Qed.

(** X8: on coherent tables a [slot_for_piece] that returns keeps them
    coherent, and the slot it returns is inside the tables and is
    recorded in both directions: [piece_to_slot[p] = s] and
    [slot_to_piece[s] = p]. *)
Theorem slot_for_piece_returns_recorded_slot
    (assertions : bool) (info : torrent_info) (save_path : string)
    (d d' : disk) (m m' : impl) (p s : Z) :
  impl_ok m →
  slot_for_piece assertions info save_path d m p = Ok (d', m', s) →
  impl_ok m'
  ∧ 0 <= s < Z.of_nat (length (m_slot_to_piece m'))
  ∧ vget (m_piece_to_slot m') p = Ok s
  ∧ vget (m_slot_to_piece m') s = Ok p.
Proof.
  intros Hok H.
  destruct (slot_for_piece_recorded _ _ _ _ _ _ _ _ _ Hok H) as [H1 H2].
  destruct (slot_for_piece_ok _ _ _ _ _ _ _ _ _ Hok H) as [Hok' _].
  split; [done|]. split; [by eapply vget_lt | done].
Qed.



Lemma check_pieces_misplaced assertions :
  check_pieces assertions info_one_file "t" disk_misplaced new_impl never
    (replicate (Z.to_nat (num_pieces info_one_file)) false)
  = Ok (tables_misplaced, [false; false; true]).
Proof. destruct assertions; vm_compute; reflexivity. Qed.

Lemma tables_misplaced_ok : impl_ok tables_misplaced.
Proof.
  destruct (check_pieces_ok true info_one_file "t" disk_misplaced never
              tables_misplaced [false; false; true]) as [cs Hcs].
  - vm_compute; reflexivity.
  - apply check_pieces_misplaced.
  - by destruct Hcs.
Qed.

Lemma write_to_placed_piece_witness :
  ∃ d', write true info_one_file "t" disk_misplaced tables_misplaced
          [6] 2 0 1 = Ok (d', tables_misplaced)
        ∧ storage.write true info_one_file "t" disk_misplaced [6] 0 0 1
          = Ok d'.
Proof.
  eexists. split; [vm_compute; reflexivity|].
  apply (write_to_placed_piece true info_one_file "t" disk_misplaced _
           tables_misplaced tables_misplaced [6] 2 0 1 0).
  - reflexivity.
  - lia.
  - vm_compute; reflexivity.
Defined.

Lemma slot_for_piece_prefers_natural_slot_witness :
  ∃ m', slot_for_piece true info_one_file "t" disk_misplaced
          tables_misplaced 1 = Ok (disk_misplaced, m', 1)
        ∧ vget (m_piece_to_slot m') 1 = Ok 1
        ∧ m_free_slots m' = [].
Proof.
  eexists. split; [vm_compute; reflexivity|].
  destruct (slot_for_piece_prefers_natural_slot true info_one_file "t"
              disk_misplaced disk_misplaced tables_misplaced _ 1 1
              ltac:(reflexivity) ltac:(vm_compute; set_solver)
              ltac:(vm_compute; reflexivity))
    as (_ & _ & H1 & _ & H2 & _).
  split; [exact H1 | exact H2].
Defined.

Lemma allocate_slots_drains_prefix_witness :
  ∃ d' m', allocate_slots true info_one_file "t" disk_misplaced
             tables_misplaced 5 = Ok (d', m')
           ∧ m_unallocated_slots m' = []
           ∧ m_bytes_left m' = 4.
Proof.
  eexists _, _. split; [vm_compute; reflexivity|].
  destruct (allocate_slots_drains_prefix true info_one_file "t"
              disk_misplaced _ tables_misplaced _ 5
              ltac:(vm_compute; reflexivity))
    as (H1 & _ & _ & H2).
  split; [exact H1 | exact H2].
Defined.

Lemma slot_for_piece_returns_recorded_slot_witness :
  ∃ d' m' s, slot_for_piece true info_one_file "t" disk_misplaced
               tables_misplaced 0 = Ok (d', m', s)
             ∧ vget (m_piece_to_slot m') 0 = Ok s
             ∧ vget (m_slot_to_piece m') s = Ok 0.
Proof.
  eexists _, _, _. split; [vm_compute; reflexivity|].
  destruct (slot_for_piece_returns_recorded_slot true info_one_file "t"
              disk_misplaced _ tables_misplaced _ 0 _ tables_misplaced_ok
              ltac:(vm_compute; reflexivity))
    as (_ & _ & H1 & H2).
  split; [exact H1 | exact H2].
Defined.




Lemma vset_length {A} (v v' : list A) i x :
  vset v i x = Ok v' → length v' = length v.
Proof. intros [_ ->]%vset_Ok. by rewrite length_insert. Qed.

(** The scan changes entries of the tables and of the bitmask, never
    their lengths. *)
Lemma classify_slot_lengths assertions info m pieces data cs m' pieces' :
  classify_slot assertions info m pieces data cs = Ok (m', pieces') →
  length (m_piece_to_slot m') = length (m_piece_to_slot m)
  ∧ length (m_slot_to_piece m') = length (m_slot_to_piece m)
  ∧ length pieces' = length pieces.
Proof.
  intros H. unfold classify_slot in H. cbv zeta in H.
  bind_inv H as found Hfound.
  destruct (negb (found =? -1)).
  - bind_inv H as have Hhave. bind_inv H as tr Htr.
    destruct tr as [[s2p0 free0] bl0].
    bind_inv H as p2s Hp2s. bind_inv H as s2p Hs2p.
    bind_inv H as pieces1 Hpieces1. inversion H; subst; clear H. simpl.
    apply vset_length in Hp2s, Hs2p, Hpieces1.
    rewrite Hp2s, Hs2p, Hpieces1. split; [done|]. split; [|done].
    destruct have.
    + bind_inv Htr as u Hu. bind_inv Htr as old Hold.
      bind_inv Htr as s2p1 Hs2p1. inversion Htr; subst.
      by apply vset_length in Hs2p1.
    + by inversion Htr; subst.
  - bind_inv H as s2p Hs2p. inversion H; subst; clear H. simpl.
    apply vset_length in Hs2p. done.
Qed.

Lemma scan_step_lengths assertions info save_path d f sc m pieces adv sc' m'
    pieces' :
  scan_step assertions info save_path d f sc m pieces
    = Ok (adv, sc', m', pieces') →
  length (m_piece_to_slot m') = length (m_piece_to_slot m)
  ∧ length (m_slot_to_piece m') = length (m_slot_to_piece m)
  ∧ length pieces' = length pieces.
Proof.
  intros H. unfold scan_step in H. cbv zeta in H.
  bind_inv H as u0 Hu0.
  destruct (if changed_file sc then _ else _) as [[in1 bcr] fsz].
  bind_inv H as rd Hrd. destruct rd as [[pd in2] bytes_read].
  destruct (bytes_to_read sc - bytes_read >? 0).
  - bind_inv H as st Hst.
    destruct st as [[[[m1 cs1] sin] btr] po].
    inversion H; subst; clear H.
    destruct (negb (bcr + bytes_read =? f_size f)).
    + bind_inv Hst as sk Hsk. destruct sk as [[pos' un'] cs'].
      by inversion Hst; subst.
    + by inversion Hst; subst.
  - bind_inv H as st Hst. destruct st as [m1 pieces1].
    inversion H; subst; clear H. by eapply classify_slot_lengths.
Qed.

Lemma check_loop_lengths assertions info save_path d abort fuel :
  ∀ k file_iter sc m pieces m' pieces' completed,
  check_loop assertions info save_path fuel d abort k file_iter sc m pieces
    = Ok (m', pieces', completed) →
  length (m_piece_to_slot m') = length (m_piece_to_slot m)
  ∧ length (m_slot_to_piece m') = length (m_slot_to_piece m)
  ∧ length pieces' = length pieces.
Proof.
  induction fuel as [|fuel IH];
    intros k file_iter sc m pieces m' pieces' completed H.
  - destruct file_iter; simpl in H; [|discriminate].
    by inversion H; subst.
  - destruct file_iter as [|f rest]; simpl in H.
    + by inversion H; subst.
    + destruct (abort k).
      * by inversion H; subst.
      * bind_inv H as st Hst. destruct st as [[[adv sc1] m1] pieces1].
        apply scan_step_lengths in Hst as (H1 & H2 & H3).
        apply IH in H as (H4 & H5 & H6). split; [|split]; congruence.
Qed.

Lemma check_pieces_lengths assertions info save_path d abort m pieces :
  0 < num_pieces info →
  check_pieces assertions info save_path d new_impl abort
    (replicate (Z.to_nat (num_pieces info)) false) = Ok (m, pieces) →
  Z.of_nat (length (m_piece_to_slot m)) = num_pieces info
  ∧ Z.of_nat (length (m_slot_to_piece m)) = num_pieces info
  ∧ Z.of_nat (length pieces) = num_pieces info.
Proof.
  intros HN H. unfold check_pieces in H. simpl in H.
  bind_inv H as st Hst. destruct st as [[m1 pieces1] completed].
  apply check_loop_lengths in Hst as (H1 & H2 & H3). simpl in H1, H2.
  assert (Hm : m = m1 ∧ pieces = pieces1).
  { destruct completed.
    - bind_inv H as u Hu. by inversion H; subst.
    - by inversion H; subst. }
  destruct Hm as [-> ->]. rewrite H1, H2, H3.
  unfold resize. rewrite take_nil, app_nil_l, !length_replicate. simpl.
  lia.
Qed.

Lemma vget_defined {A} (v : list A) i :
  0 <= i < Z.of_nat (length v) → ∃ x, vget v i = Ok x.
Proof.
  intros Hi. destruct (lookup_lt_is_Some_2 v (Z.to_nat i)) as [x Hx]; [lia|].
  exists x. apply vget_Ok. split; [lia | done].
Qed.

(** X13: after [check_pieces] from the constructed manager and a
    bitmask of all false, piece [p] is marked present exactly when it
    has a slot: a present piece has a slot inside the table that
    records it, an absent piece has [piece_to_slot[p] = -1]. *)
Theorem bitmask_agrees_with_tables
    (assertions : bool) (info : torrent_info) (save_path : string)
    (d : disk) (abort : nat → bool) (m : impl) (pieces : list bool) (p : Z) :
  0 < num_pieces info →
  check_pieces assertions info save_path d new_impl abort
    (replicate (Z.to_nat (num_pieces info)) false) = Ok (m, pieces) →
  0 <= p < num_pieces info →
  ∃ have s,
    vget pieces p = Ok have ∧ vget (m_piece_to_slot m) p = Ok s
    ∧ (if have then 0 <= s < num_pieces info
                    ∧ vget (m_slot_to_piece m) s = Ok p
       else s = -1).
Proof.
  intros HN H Hp.
  destruct (check_pieces_lengths _ _ _ _ _ _ _ HN H) as (L1 & L2 & L3).
  apply check_pieces_ok in H as [cs Hscan]; [|done].
  destruct (vget_defined pieces p) as [have Hhave]; [lia|].
  destruct (vget_defined (m_piece_to_slot m) p) as [s Hs]; [lia|].
  exists have, s. split; [done|]. split; [done|].
  destruct Hscan as [[Hps _ _ _ _ _] Hh Hn _ _ _ _].
  destruct have.
  - pose proof (Hps _ _ Hs (Hh _ _ Hhave Hs)) as Hsp.
    split; [|done]. apply vget_lt in Hsp. lia.
  - by eapply Hn.
Qed.

Lemma bitmask_agrees_with_tables_witness :
  ∃ m pieces have s,
    check_pieces true info_one_file "t" disk_misplaced new_impl never
      (replicate (Z.to_nat (num_pieces info_one_file)) false)
      = Ok (m, pieces)
    ∧ vget pieces 2 = Ok have ∧ vget (m_piece_to_slot m) 2 = Ok s
    ∧ (if have then 0 <= s < num_pieces info_one_file
                    ∧ vget (m_slot_to_piece m) s = Ok 2
       else s = -1).
Proof.
  eexists _, _.
  destruct (bitmask_agrees_with_tables true info_one_file "t" disk_misplaced
              never _ _ 2 ltac:(vm_compute; reflexivity)
              ltac:(vm_compute; reflexivity)
              ltac:(vm_compute; split; [discriminate | reflexivity]))
    as (have & s & H).
  exists have, s. split; [vm_compute; reflexivity | exact H].
Defined.

(** X12: after [check_pieces] from the constructed manager and any
    sequence of [write], [slot_for_piece] and [allocate_slots] that
    returns: every free slot is marked [-2], every unallocated slot
    inside the table is marked [-1], neither pool has a duplicate, the
    pools are disjoint, a slot that holds a piece is that piece's slot,
    and [piece_to_slot] holds [-1] or a slot. *)
Theorem pools_stay_coherent
    (assertions : bool) (info : torrent_info) (save_path : string)
    (d d0 d' : disk) (abort : nat → bool) (m m' : impl)
    (pieces : list bool) (ops : list operation) :
  0 < num_pieces info →
  check_pieces assertions info save_path d new_impl abort
    (replicate (Z.to_nat (num_pieces info)) false) = Ok (m, pieces) →
  run_operations assertions info save_path (d0, m) ops = Ok (d', m') →
  (∀ s, s ∈ m_free_slots m' → vget (m_slot_to_piece m') s = Ok (-2))
  ∧ (∀ s q, s ∈ m_unallocated_slots m' →
            vget (m_slot_to_piece m') s = Ok q → q = -1)
  ∧ NoDup (m_free_slots m') ∧ NoDup (m_unallocated_slots m')
  ∧ (∀ s, s ∈ m_free_slots m' → s ∉ m_unallocated_slots m')
  ∧ (∀ s q, vget (m_slot_to_piece m') s = Ok q → 0 <= q →
            vget (m_piece_to_slot m') q = Ok s)
  ∧ (∀ p s, vget (m_piece_to_slot m') p = Ok s → s = -1 ∨ 0 <= s).
Proof.
  intros HN H Hrun.
  apply check_pieces_ok in H as [cs [Hok _ _ _ _ _ _]]; [|done].
  apply (run_operations_ok _ _ _ _ _ _ _ _ Hok) in Hrun as [Hok' _].
  destruct Hok' as [Hps Hsp Hfree Hfnd Hun Hund].
  repeat split; try done.
  - intros s Hf Hu. specialize (Hun _ _ Hu (Hfree _ Hf)). lia.
  - intros s q Hsq Hq. apply Hsp; [done | lia..].
  - intros p s Hp. destruct (decide (s = -1)) as [|Hne]; [by left|].
    right. eapply vget_nonneg. by apply Hps.
Qed.

Lemma pools_stay_coherent_witness :
  ∃ m pieces d' m',
    check_pieces true info_one_file "t" disk_misplaced new_impl never
      (replicate (Z.to_nat (num_pieces info_one_file)) false)
      = Ok (m, pieces)
    ∧ run_operations true info_one_file "t" (disk_misplaced, m)
        [op_write [3; 4] 1 0 2; op_allocate_slots 5] = Ok (d', m')
    ∧ NoDup (m_free_slots m')
    ∧ ∀ s, s ∈ m_free_slots m' → s ∉ m_unallocated_slots m'.
Proof.
  eexists _, _, _, _. split; [vm_compute; reflexivity|].
  split; [vm_compute; reflexivity|].
  destruct (pools_stay_coherent true info_one_file "t" disk_misplaced
              disk_misplaced _ never _ _ _
              [op_write [3; 4] 1 0 2; op_allocate_slots 5]
              ltac:(vm_compute; reflexivity) ltac:(vm_compute; reflexivity)
              ltac:(vm_compute; reflexivity))
    as (_ & _ & H1 & _ & H2 & _).
  split; [exact H1 | exact H2].
Defined.

Lemma forM_Ok_iff {A} (l : list A) (f : A → result unit) :
  forM_ l f = Ok () ↔ ∀ x, x ∈ l → f x = Ok ().
Proof.
  induction l as [|x l IH]; simpl.
  - split; [|done]. intros _ y Hy. by apply elem_of_nil in Hy.
  - split.
    + intros H. bind_inv H as u Hu. destruct u. intros y Hy.
      apply elem_of_cons in Hy as [->|Hy]; [done|]. by apply IH.
    + intros H. rewrite (H x) by left. simpl. apply IH.
      intros y Hy. apply H. by right.
Qed.

Lemma mem_elem_of x v : mem x v = true ↔ x ∈ v.
Proof.
  unfold mem. rewrite existsb_exists. split.
  - intros (y & Hy & ->%Z.eqb_eq). by apply list_elem_of_In.
  - intros H. exists x. split; [by apply list_elem_of_In | apply Z.eqb_refl].
Qed.

(** X17: [check_invariant] passes exactly when both tables are
    defined at every index below the number of pieces and, where
    assertions are compiled in, at every index a piece in a foreign
    slot leaves the slot of its own index unallocated and a slot marked
    [-2] is on the free list. *)
Theorem check_invariant_meaning
    (assertions : bool) (info : torrent_info) (m : impl) :
  check_invariant assertions info m = Ok ()
  ↔ ∀ i, 0 <= i < num_pieces info → invariant_at assertions m i.
Proof.
  unfold check_invariant. rewrite forM_Ok_iff.
  split; intros H i Hi.
  - specialize (H i). rewrite elem_of_seqZ in H.
    specialize (H ltac:(lia)).
    bind_inv H as ps Hps. bind_inv H as u Hu. bind_inv H as sp Hsp.
    exists ps, sp. split; [done|]. split; [done|]. intros ->.
    split.
    + intros Hne Hge.
      destruct (Z.eqb_spec ps i) as [?|_]; [done|].
      destruct (Z.geb_spec ps 0) as [_|?]; [|lia].
      simpl in Hu. rewrite Hsp in Hu. simpl in Hu.
      destruct (Z.eqb_spec sp (-1)); [done | discriminate].
    + intros ->. simpl in H. apply mem_elem_of.
      by destruct (mem i (m_free_slots m)).
  - apply elem_of_seqZ in Hi.
    destruct (H i ltac:(lia)) as (ps & sp & Hps & Hsp & Hchk).
    rewrite Hps. cbn [mbind result_bind]. rewrite Hsp.
    destruct assertions.
    + destruct (Hchk eq_refl) as [H1 H2].
      assert (Hfirst : (if negb (ps =? i) && (ps >=? 0)
                        then assert_m true
                               (Ok sp ≫= λ sp0 : Z, Ok (sp0 =? -1))
                        else Ok ()) = Ok ()).
      { destruct (Z.eqb_spec ps i) as [|Hne]; [done|].
        destruct (Z.geb_spec ps 0) as [Hge|]; [|done].
        simpl. rewrite (H1 Hne Hge). done. }
      rewrite Hfirst. cbn [mbind result_bind].
      destruct (Z.eqb_spec sp (-2)) as [Heq|]; [|done].
      apply H2, mem_elem_of in Heq. by rewrite Heq.
    + destruct (negb (ps =? i) && (ps >=? 0));
        cbn [mbind result_bind assert_m]; by destruct (sp =? -2).
Qed.

Lemma check_invariant_meaning_witness :
  check_invariant true info_one_file tables_swapped = AssertFail
  ∧ ¬ invariant_at true tables_swapped 1
  ∧ ∀ i, 0 <= i < 3 → invariant_at false tables_swapped i.
Proof.
  split; [vm_compute; reflexivity|]. split.
  - intros (ps & sp & Hps & Hsp & Hchk).
    inversion Hps; subst ps. inversion Hsp; subst sp.
    destruct (Hchk eq_refl) as [H1 _].
    specialize (H1 ltac:(lia) ltac:(lia)). lia.
  - apply (proj1 (check_invariant_meaning false info_one_file
                    tables_swapped)).
    vm_compute; reflexivity.
Defined.

(** ** What the resume check finds *)

(** The candidate loop returns its starting value or one of the
    candidates. *)
Lemma find_piece_origin info pieces large small cs cands :
  ∀ acc r,
  find_piece info pieces large small cs cands acc = Ok r →
  r = acc ∨ r ∈ cands.
Proof.
  induction cands as [|i cands IH]; intros acc r H; simpl in H.
  - inversion H. by left.
  - bind_inv H as have Hhave.
    destruct (have && negb (i =? cs)).
    + apply IH in H as [?|?]; [by left | right; by right].
    + destruct (digest_eq _ _).
      * apply IH in H as [->|?]; right; [by left | by right].
      * apply IH in H as [?|?]; [by left | right; by right].
Qed.

Lemma classify_slot_placed_low assertions info m pieces data cs m' pieces' :
  0 <= cs → placed_low m →
  classify_slot assertions info m pieces data cs = Ok (m', pieces') →
  placed_low m'.
Proof.
  intros Hcs Hlow H. unfold classify_slot in H. cbv zeta in H.
  bind_inv H as found Hfound.
  apply find_piece_origin in Hfound.
  destruct (Z.eqb_spec found (-1)) as [->|Hne]; cbn [negb] in H.
  - bind_inv H as s2p Hs2p. by inversion H; subst.
  - destruct Hfound as [?|Hin]; [done|]. apply elem_of_seqZ in Hin.
    bind_inv H as have Hhave. bind_inv H as tr Htr.
    destruct tr as [[s2p0 free0] bl0].
    bind_inv H as p2s Hp2s. bind_inv H as s2p Hs2p.
    bind_inv H as pieces1 Hpieces1. inversion H; subst; clear H.
    intros p s Hp Hs. simpl in Hp.
    rewrite (vget_vset _ _ _ p _ Hp2s) in Hp.
    case_bool_decide as Hpf.
    + inversion Hp; subst. lia.
    + by apply Hlow.
Qed.

Lemma scan_step_placed_low assertions info save_path d f sc m pieces adv sc'
    m' pieces' :
  0 <= current_slot sc → placed_low m →
  scan_step assertions info save_path d f sc m pieces
    = Ok (adv, sc', m', pieces') →
  0 <= current_slot sc' ∧ placed_low m'.
Proof.
  intros Hcs Hlow H. unfold scan_step in H. cbv zeta in H.
  bind_inv H as u0 Hu0.
  destruct (if changed_file sc then _ else _) as [[in1 bcr] fsz].
  bind_inv H as rd Hrd. destruct rd as [[pd in2] bytes_read].
  destruct (bytes_to_read sc - bytes_read >? 0).
  - bind_inv H as st Hst.
    destruct st as [[[[m1 cs1] sin] btr] po].
    inversion H; subst; clear H. simpl.
    destruct (negb (bcr + bytes_read =? f_size f)).
    + bind_inv Hst as sk Hsk. destruct sk as [[pos' un'] cs'].
      inversion Hst; subst; clear Hst.
      apply skip_loop_spec in Hsk as [Hle _]. split; [lia | done].
    + by inversion Hst; subst.
  - bind_inv H as st Hst. destruct st as [m1 pieces1].
    inversion H; subst; clear H. simpl.
    split; [lia|]. by eapply classify_slot_placed_low.
Qed.

Lemma check_loop_placed_low assertions info save_path d abort fuel :
  ∀ k file_iter sc m pieces m' pieces' completed,
  0 <= current_slot sc → placed_low m →
  check_loop assertions info save_path fuel d abort k file_iter sc m pieces
    = Ok (m', pieces', completed) →
  placed_low m'.
Proof.
  induction fuel as [|fuel IH];
    intros k file_iter sc m pieces m' pieces' completed Hcs Hlow H.
  - destruct file_iter; simpl in H; [|discriminate].
    by inversion H; subst.
  - destruct file_iter as [|f rest]; simpl in H.
    + by inversion H; subst.
    + destruct (abort k).
      * by inversion H; subst.
      * bind_inv H as st Hst. destruct st as [[[adv sc1] m1] pieces1].
        apply (scan_step_placed_low _ _ _ _ _ _ _ _ _ _ _ _ Hcs Hlow) in Hst
          as [Hcs1 Hlow1].
        by eapply IH.
Qed.

(** X14: [check_pieces] only tries the candidates from the current
    slot upwards, so it never places a piece in a slot above the
    piece's own index. *)
Theorem resume_places_piece_at_or_below_index
    (assertions : bool) (info : torrent_info) (save_path : string)
    (d : disk) (abort : nat → bool) (m : impl) (pieces pieces' : list bool)
    (p s : Z) :
  check_pieces assertions info save_path d new_impl abort pieces
    = Ok (m, pieces') →
  vget (m_piece_to_slot m) p = Ok s → s ≠ -1 → 0 <= s <= p.
Proof.
  intros H. unfold check_pieces in H. simpl in H.
  bind_inv H as st Hst. destruct st as [[m1 pieces1] completed].
  apply check_loop_placed_low in Hst.
  - assert (m = m1) as ->; [|by apply Hst].
    destruct completed.
    + bind_inv H as u Hu. by inversion H.
    + by inversion H.
  - simpl. lia.
  - intros q t Hq Hne. simpl in Hq. unfold resize in Hq.
    rewrite take_nil in Hq. simpl in Hq.
    by apply vget_replicate in Hq.
Qed.

Lemma resume_places_piece_at_or_below_index_witness :
  ∃ m, check_pieces false info_one_file "t" disk_swapped new_impl never
         [false; false; false] = Ok (m, [false; true; true])
       ∧ vget (m_piece_to_slot m) 1 = Ok 0
       ∧ vget (m_piece_to_slot m) 0 = Ok (-1)
       ∧ 0 <= 0 <= 1.
Proof.
  eexists. split; [vm_compute; reflexivity|].
  split; [reflexivity|]. split; [reflexivity|].
  eapply (resume_places_piece_at_or_below_index false info_one_file "t"
            disk_swapped never _ [false; false; false] _ 1 0).
  - vm_compute; reflexivity.
  - reflexivity.
  - lia.
Defined.

Lemma assert_b_true assertions : assert_b assertions true = Ok ().
Proof. by destruct assertions. Qed.

Lemma forM_Ok {A} (l : list A) (f : A → result unit) :
  (∀ x, x ∈ l → f x = Ok ()) → forM_ l f = Ok ().
Proof.
  induction l as [|x l IH]; intros H; [done|].
  simpl. rewrite H by left. simpl. apply IH. intros y Hy. apply H. by right.
Qed.

Lemma skip_loop_run assertions info fuel :
  0 < piece_length info →
  ∀ pos file_end unallocated cs,
  file_end - pos <= Z.of_nat fuel →
  pos = cs * piece_length info →
  file_end <= num_pieces info * piece_length info →
  ∃ cs',
    skip_loop assertions info fuel pos file_end unallocated cs
    = Ok (cs' * piece_length info, unallocated ++ seqZ cs (cs' - cs), cs')
    ∧ cs <= cs' ∧ file_end <= cs' * piece_length info
    ∧ (cs' = cs ∨ (cs' - 1) * piece_length info < file_end).
Proof.
  intros Hpl. induction fuel as [|fuel IH];
    intros pos file_end un cs Hfuel Hpos HN.
  - exists cs. simpl.
    destruct (Z.ltb_spec pos file_end) as [|Hge]; [exfalso; lia|].
    rewrite Z.sub_diag, app_nil_r. subst pos. split; [done|]. lia.
  - simpl. destruct (Z.ltb_spec pos file_end) as [Hlt|Hge].
    + assert (Hcs : cs + 1 <= num_pieces info) by nia.
      destruct (Z.leb_spec (cs + 1) (num_pieces info)) as [_|]; [|lia].
      rewrite assert_b_true. simpl.
      destruct (IH (pos + piece_length info) file_end (un ++ [cs]) (cs + 1))
        as (cs' & Hrun & Hle & Hend & Hclose); [lia | lia | done |].
      exists cs'. rewrite Hrun. split.
      * rewrite <- app_assoc. simpl.
        replace (cs' - cs) with (Z.succ (cs' - (cs + 1))) by lia.
        rewrite (seqZ_cons cs) by lia. rewrite Z.pred_succ.
        by replace (Z.succ cs) with (cs + 1) by lia.
      * split; [lia|]. split; [done|]. right.
        destruct Hclose as [->|?]; [|done].
        replace (cs + 1 - 1) with cs by lia. lia.
    + exists cs. rewrite Z.sub_diag, app_nil_r. subst pos.
      split; [done|]. lia.
Qed.

(** One round of the file loop on a file that is not there. *)
Lemma scan_step_missing assertions info save_path d f sc m pieces E cs :
  info_wf info →
  d !! file_path save_path f = None →
  0 < f_size f → E + f_size f <= total_size info →
  scan_missing info E cs sc →
  ∃ cs' sc',
    scan_step assertions info save_path d f sc m pieces
    = Ok (true, sc',
          {| m_bytes_left := m_bytes_left m;
             m_piece_to_slot := m_piece_to_slot m;
             m_unallocated_slots :=
               m_unallocated_slots m ++ seqZ cs (cs' - cs);
             m_free_slots := m_free_slots m;
             m_slot_to_piece := m_slot_to_piece m |}, pieces)
    ∧ cs <= cs'
    ∧ scan_missing info (E + f_size f) cs' sc'.
Proof.
  intros Hwf Hnone Hf HE [Hch Hcs HsE Hseek Hahead Hclose Hstart Hto].
  pose proof (total_size_bounds info Hwf) as [Htl Htu].
  pose proof (piece_size_le info) as Hps.
  assert (Hpl : 0 < piece_length info) by (destruct Hwf; lia).
  assert (HN : 0 < num_pieces info) by (destruct Hwf; lia).
  assert (HcsN : cs <= num_pieces info) by (destruct Hclose; [lia | nia]).
  unfold scan_step. cbv zeta.
  rewrite Hcs. destruct (Z.leb_spec cs (num_pieces info)) as [_|]; [|lia].
  rewrite assert_b_true. simpl. rewrite Hch.
  unfold ifs_open. rewrite Hnone. simpl.
  rewrite Z.add_0_r, Z.sub_0_r.
  destruct (Z.gtb_spec (bytes_to_read sc) 0) as [_|]; [|lia].
  set (sor := if bytes_to_read sc =? piece_size info cs
              then cs * piece_length info else start_of_read sc).
  assert (Hsor : sor = cs * piece_length info).
  { subst sor. destruct (Z.eqb_spec (bytes_to_read sc) (piece_size info cs));
      [done|]. by destruct Hstart. }
  clearbody sor. subst sor.
  destruct (Z.eqb_spec (seek_into_next sc) (f_size f)) as [Heq|Hne]; simpl.
  - exists cs. eexists. rewrite Z.sub_diag, app_nil_r.
    split; [by destruct m|]. split; [lia|].
    split; simpl; try done; try lia.
  - destruct (skip_loop_run assertions info
                (Z.to_nat (start_of_file sc + f_size f
                           - cs * piece_length info)) Hpl
                (cs * piece_length info) (start_of_file sc + f_size f)
                (m_unallocated_slots m) cs)
      as (cs' & Hrun & Hle & Hend & Hcl); [lia | done | lia |].
    rewrite Hrun. simpl. exists cs'. eexists. split; [done|].
    split; [done|].
    split; simpl; try done; try lia. by apply Hps.
Qed.

(** The file loop when no file of the list is there. *)
Lemma check_loop_missing assertions info save_path d abort :
  info_wf info → (∀ k, abort k = false) →
  ∀ fl fuel k sc m pieces E cs,
  Forall (λ f, d !! file_path save_path f = None ∧ 0 < f_size f) fl →
  E + sum_sizes fl <= total_size info →
  (length fl <= fuel)%nat →
  scan_missing info E cs sc →
  ∃ cs',
    check_loop assertions info save_path fuel d abort k fl sc m pieces
    = Ok ({| m_bytes_left := m_bytes_left m;
             m_piece_to_slot := m_piece_to_slot m;
             m_unallocated_slots :=
               m_unallocated_slots m ++ seqZ cs (cs' - cs);
             m_free_slots := m_free_slots m;
             m_slot_to_piece := m_slot_to_piece m |}, pieces, true)
    ∧ cs <= cs'
    ∧ E + sum_sizes fl <= cs' * piece_length info
    ∧ (cs' = 0 ∨ (cs' - 1) * piece_length info < E + sum_sizes fl).
Proof.
  intros Hwf Hab fl.
  induction fl as [|f fl IH];
    intros fuel k sc m pieces E cs Hfl HE Hfuel Hsm.
  - exists cs. destruct Hsm. unfold sum_sizes. simpl.
    rewrite Z.sub_diag, app_nil_r, Z.add_0_r.
    split; [by destruct fuel, m|]. split; [lia|]. split; [lia|]. done.
  - apply Forall_cons in Hfl as [[Hnone Hf] Hfl].
    assert (Hnn : 0 <= sum_sizes fl).
    { apply sum_sizes_nonneg. eapply Forall_impl; [exact Hfl|].
      by intros ? [_ ?]. }
    replace (sum_sizes (f :: fl)) with (f_size f + sum_sizes fl) in *
      by reflexivity.
    destruct fuel as [|fuel]; [simpl in Hfuel; lia|].
    simpl. rewrite Hab.
    destruct (scan_step_missing assertions info save_path d f sc m pieces
                E cs Hwf Hnone Hf ltac:(lia) Hsm)
      as (cs1 & sc1 & Hstep & Hle1 & Hsm1).
    rewrite Hstep. simpl.
    destruct (IH fuel (S k) sc1
                {| m_bytes_left := m_bytes_left m;
                   m_piece_to_slot := m_piece_to_slot m;
                   m_unallocated_slots :=
                     m_unallocated_slots m ++ seqZ cs (cs1 - cs);
                   m_free_slots := m_free_slots m;
                   m_slot_to_piece := m_slot_to_piece m |}
                pieces (E + f_size f) cs1 Hfl ltac:(lia)
                ltac:(simpl in Hfuel; lia) Hsm1)
      as (cs' & Hrun & Hle & Hend & Hcl).
    exists cs'. rewrite Hrun. simpl. split.
    + rewrite <- app_assoc.
      replace (cs' - cs) with ((cs1 - cs) + (cs' - cs1)) by lia.
      rewrite seqZ_app by lia.
      by replace (cs + (cs1 - cs)) with cs1 by lia.
    + split; [lia|]. split; [lia|].
      destruct Hcl as [?|?]; [by left | right; lia].
Qed.

Lemma check_invariant_all_unallocated assertions info :
  check_invariant assertions info (all_unallocated info) = Ok ().
Proof.
  unfold check_invariant. apply forM_Ok. intros i Hi.
  apply elem_of_seqZ in Hi. simpl.
  assert (Hget : vget (replicate (Z.to_nat (num_pieces info)) (-1)) i
                 = Ok (-1)).
  { apply vget_Ok. split; [lia|]. apply lookup_replicate_2. lia. }
  rewrite Hget. cbn -[vget replicate Z.to_nat].
  by rewrite andb_false_r.
Qed.

(** X15: when none of the files exists and no abort is asked for,
    [check_pieces] returns, for every bitmask, with every slot
    unallocated, no piece placed, [bytes_left] the whole payload and
    the bitmask as it was. *)
Theorem fresh_download_all_unallocated
    (assertions : bool) (info : torrent_info) (save_path : string)
    (d : disk) (abort : nat → bool) (pieces : list bool) :
  info_wf info →
  (∀ f, f ∈ files info → d !! file_path save_path f = None) →
  (∀ k, abort k = false) →
  check_pieces assertions info save_path d new_impl abort pieces
  = Ok (all_unallocated info, pieces).
Proof.
  intros Hwf Hnone Hab.
  pose proof (total_size_bounds info Hwf) as [Htl Htu].
  assert (Hpl : 0 < piece_length info) by (destruct Hwf; lia).
  assert (HN : 0 < num_pieces info) by (destruct Hwf; lia).
  unfold check_pieces. cbv zeta.
  cbn [new_impl m_piece_to_slot m_slot_to_piece m_unallocated_slots
       m_free_slots].
  assert (Hfl : Forall (λ f, d !! file_path save_path f = None
                             ∧ 0 < f_size f) (files info)).
  { apply Forall_forall. intros f Hf. split; [by apply Hnone|].
    destruct Hwf as [_ _ _ Hfiles _].
    by apply (proj1 (Forall_forall _ _) Hfiles). }
  assert (Hfuel : (length (files info)
                   <= scan_fuel save_path d (files info))%nat).
  { rewrite scan_fuel_budget. clear. induction (files info); simpl; lia. }
  destruct (check_loop_missing assertions info save_path d abort Hwf Hab
              (files info) (scan_fuel save_path d (files info)) 0%nat
              (scan_init info)
              {| m_bytes_left := total_size info;
                 m_piece_to_slot := resize (num_pieces info) (-1) [];
                 m_unallocated_slots := [];
                 m_free_slots := [];
                 m_slot_to_piece := resize (num_pieces info) (-1) [] |}
              pieces 0 0 Hfl)
    as (cs' & Hrun & Hle & Hend & Hcl).
  { unfold total_size. lia. }
  { done. }
  { split; simpl; try done; try lia. }
  cbn [m_bytes_left m_piece_to_slot m_slot_to_piece m_unallocated_slots
       m_free_slots app] in Hrun.
  rewrite Hrun. cbn [mbind result_bind].
  change (sum_sizes (files info)) with (total_size info) in *.
  assert (cs' = num_pieces info) as -> by nia.
  assert (Hres : resize (num_pieces info) (-1) []
                 = replicate (Z.to_nat (num_pieces info)) (-1)).
  { unfold resize. rewrite take_nil. simpl. by rewrite Nat.sub_0_r. }
  rewrite Hres, Z.sub_0_r.
  change (check_invariant assertions info (all_unallocated info)
            ≫= (λ _, Ok (all_unallocated info, pieces))
          = Ok (all_unallocated info, pieces)).
  by rewrite check_invariant_all_unallocated.
Qed.

Lemma fresh_download_all_unallocated_witness :
  check_pieces true info_two_files "t" ∅ new_impl never
    [false; false; false]
  = Ok (all_unallocated info_two_files, [false; false; false]).
Proof.
  apply (fresh_download_all_unallocated true info_two_files "t" ∅ never
           [false; false; false]).
  - split; [vm_compute; done.. | repeat constructor | reflexivity].
  - intros f _. apply lookup_empty.
  - reflexivity.
Defined.

Lemma scan_step_gathering assertions info save_path d f c sc m pieces E :
  0 < num_pieces info → 0 <= E →
  d !! file_path save_path f = Some c →
  Z.of_nat (length c) = f_size f → 0 < f_size f →
  E + f_size f < piece_length info →
  scan_gathering info E sc →
  ∃ sc',
    scan_step assertions info save_path d f sc m pieces
    = Ok (true, sc', m, pieces)
    ∧ scan_gathering info (E + f_size f) sc'.
Proof.
  intros HN HE Hc Hlen Hf Hlt [Hch Hcs Hseek Hoff Hto Hdata].
  unfold scan_step. cbv zeta.
  rewrite Hcs. destruct (Z.leb_spec 0 (num_pieces info)) as [_|]; [|lia].
  rewrite assert_b_true. cbn [mbind result_bind]. rewrite Hch.
  unfold ifs_open. rewrite Hc. cbn [in_good negb].
  rewrite Hseek. unfold ifs_seekg, ifs_size. cbn [in_good in_data andb].
  change (0 <=? 0) with true. cbv iota.
  destruct (Z.gtb_spec (Z.of_nat (length c)) 0) as [_|]; [|lia].
  unfold ifs_read. cbn [in_good in_data in_pos].
  change (Z.to_nat 0) with 0%nat. rewrite drop_0.
  rewrite take_ge by lia.
  unfold buf_store.
  rewrite (bool_decide_eq_false_2 (c = []))
    by (intros ->; simpl in Hlen; lia).
  destruct (Z.ltb_spec (piece_offset sc) 0) as [|_]; [lia|].
  destruct (Z.ltb_spec (Z.of_nat (length (piece_data sc)))
              (piece_offset sc + Z.of_nat (length c))) as [|_]; [lia|].
  cbn [orb mbind result_bind].
  destruct (Z.gtb_spec (bytes_to_read sc - Z.of_nat (length c)) 0)
    as [_|]; [|lia].
  rewrite Z.add_0_l.
  destruct (Z.eqb_spec (Z.of_nat (length c)) (f_size f)) as [_|]; [|lia].
  cbn [negb mbind result_bind]. eexists. split; [reflexivity|].
  split; cbn [changed_file current_slot seek_into_next piece_offset
              bytes_to_read piece_data]; try done; try lia.
  rewrite !length_app, length_take, length_drop. lia.
Qed.

Lemma check_loop_gathering assertions info save_path d abort :
  0 < num_pieces info → (∀ k, abort k = false) →
  ∀ fl fuel k sc m pieces E,
  Forall (λ f, ∃ c, d !! file_path save_path f = Some c
                    ∧ Z.of_nat (length c) = f_size f ∧ 0 < f_size f) fl →
  0 <= E → E + sum_sizes fl < piece_length info →
  (length fl <= fuel)%nat →
  scan_gathering info E sc →
  check_loop assertions info save_path fuel d abort k fl sc m pieces
  = Ok (m, pieces, true).
Proof.
  intros HN Hab fl.
  induction fl as [|f fl IH]; intros fuel k sc m pieces E Hfl HE Hlt Hfuel Hsg.
  - by destruct fuel.
  - apply Forall_cons in Hfl as [(c & Hc & Hlen & Hf) Hfl].
    assert (Hnn : 0 <= sum_sizes fl).
    { apply sum_sizes_nonneg. eapply Forall_impl; [exact Hfl|].
      by intros ? (? & _ & _ & ?). }
    replace (sum_sizes (f :: fl)) with (f_size f + sum_sizes fl) in *
      by reflexivity.
    destruct fuel as [|fuel]; [simpl in Hfuel; lia|].
    simpl. rewrite Hab.
    destruct (scan_step_gathering assertions info save_path d f c sc m
                pieces E HN HE Hc Hlen Hf ltac:(lia) Hsg)
      as (sc' & Hstep & Hsg').
    rewrite Hstep. simpl.
    apply (IH fuel (S k) sc' m pieces (E + f_size f) Hfl); [lia | lia | | done].
    simpl in Hfuel. lia.
Qed.

Lemma check_invariant_nothing_placed assertions info m :
  m_piece_to_slot m = replicate (Z.to_nat (num_pieces info)) (-1) →
  m_slot_to_piece m = replicate (Z.to_nat (num_pieces info)) (-1) →
  check_invariant assertions info m = Ok ().
Proof.
  intros Hp Hs. unfold check_invariant.
  assert (Hall : ∀ i, i ∈ seqZ 0 (num_pieces info) →
            vget (replicate (Z.to_nat (num_pieces info)) (-1)) i = Ok (-1)).
  { intros i Hi. apply elem_of_seqZ in Hi. apply vget_Ok.
    split; [lia|]. apply lookup_replicate_2. lia. }
  rewrite Hp, Hs. revert Hall.
  induction (seqZ 0 (num_pieces info)) as [|i l IH]; intros Hall; [done|].
  cbn [forM_]. rewrite (Hall i) by left.
  cbn -[vget replicate Z.to_nat]. rewrite andb_false_r.
  cbn -[vget replicate Z.to_nat]. apply IH. intros j Hj. apply Hall.
  by right.
Qed.

Lemma allocate_loop_nil assertions info save_path n d m zeros :
  allocate_loop assertions info save_path n [] d m zeros = Ok ([], d, m).
Proof. by destruct n. Qed.

Lemma allocate_slots_nothing assertions info save_path d n :
  allocate_slots assertions info save_path d (nothing_known info) n
  = Ok (d, nothing_known info).
Proof.
  unfold allocate_slots.
  rewrite check_invariant_nothing_placed by done.
  cbn [mbind result_bind]. cbv zeta.
  change (m_unallocated_slots (nothing_known info)) with (@nil Z).
  rewrite allocate_loop_nil. cbn [mbind result_bind].
  by rewrite check_invariant_nothing_placed.
Qed.

(** X16: a torrent of a single piece shorter than the piece length,
    with every file complete on disk: [check_pieces] never fills its
    buffer, leaves the file loop with slot 0 neither assigned, free nor
    unallocated, and every later [write] of piece 0 finds no slot to
    take (the assertion where compiled in, front() of an empty vector
    otherwise). *)
Theorem single_short_piece_is_not_recognised
    (assertions : bool) (info : torrent_info) (save_path : string)
    (d : disk) (abort : nat → bool) (pieces : list bool) :
  info_wf info → num_pieces info = 1 →
  total_size info < piece_length info →
  (∀ f, f ∈ files info →
        ∃ c, d !! file_path save_path f = Some c
             ∧ Z.of_nat (length c) = f_size f) →
  (∀ k, abort k = false) →
  check_pieces assertions info save_path d new_impl abort pieces
  = Ok (nothing_known info, pieces)
  ∧ ∀ d0 buf offset size,
      write assertions info save_path d0 (nothing_known info) buf 0
        offset size
      = if assertions then AssertFail else Undefined.
Proof.
  intros Hwf HN1 Hshort Hfiles Hab.
  assert (HN : 0 < num_pieces info) by lia.
  assert (Hres : resize (num_pieces info) (-1) []
                 = replicate (Z.to_nat (num_pieces info)) (-1)).
  { unfold resize. rewrite take_nil. simpl. by rewrite Nat.sub_0_r. }
  split.
  - unfold check_pieces. cbv zeta.
    cbn [new_impl m_piece_to_slot m_slot_to_piece m_unallocated_slots
         m_free_slots].
    rewrite Hres.
    change {| m_bytes_left := total_size info;
              m_piece_to_slot := replicate (Z.to_nat (num_pieces info)) (-1);
              m_unallocated_slots := [];
              m_free_slots := [];
              m_slot_to_piece := replicate (Z.to_nat (num_pieces info)) (-1)
           |} with (nothing_known info).
    rewrite (check_loop_gathering assertions info save_path d abort HN Hab
               (files info) _ 0%nat (scan_init info) (nothing_known info)
               pieces 0).
    + cbn [mbind result_bind].
      by rewrite check_invariant_nothing_placed.
    + apply Forall_forall. intros f Hf.
      destruct (Hfiles f Hf) as (c & Hc & Hlen). exists c.
      split; [done|]. split; [done|].
      destruct Hwf as [_ _ _ Hpos _].
      by apply (proj1 (Forall_forall _ _) Hpos).
    + done.
    + unfold total_size in Hshort. lia.
    + rewrite scan_fuel_budget. clear. induction (files info); simpl; lia.
    + destruct Hwf as [Hpl _ _ _ _].
      split; simpl; try done; try lia.
      rewrite length_replicate. lia.
  - intros d0 buf offset size.
    assert (Hp : m_piece_to_slot (nothing_known info) = [-1])
      by (simpl; by rewrite HN1).
    assert (Hs : m_slot_to_piece (nothing_known info) = [-1])
      by (simpl; by rewrite HN1).
    assert (Hf : m_free_slots (nothing_known info) = []) by done.
    unfold write, slot_for_piece.
    rewrite check_invariant_nothing_placed by done.
    rewrite Hp, Hs, Hf. cbn [mbind result_bind length Z.of_nat].
    change (assert_b assertions ((0 >=? 0) && (0 <? 1)))
      with (assert_b assertions true).
    change (assert_b assertions (1 =? 1)) with (assert_b assertions true).
    rewrite !assert_b_true. cbn [mbind result_bind].
    change (vget [-1] 0) with (Ok (-1)). cbn [mbind result_bind].
    change (negb (-1 =? -1)) with false. cbv iota.
    rewrite bool_decide_eq_true_2 by done.
    rewrite allocate_slots_nothing. cbn [mbind result_bind].
    rewrite Hf. rewrite bool_decide_eq_true_2 by done.
    destruct assertions; reflexivity.
Qed.

Lemma single_short_piece_is_not_recognised_witness :
  check_pieces true info_short "t" {[ "t/f" := [5] ]} new_impl never [false]
  = Ok (nothing_known info_short, [false])
  ∧ write true info_short "t" {[ "t/f" := [5] ]} (nothing_known info_short)
      [5] 0 0 1 = AssertFail.
Proof.
  destruct (single_short_piece_is_not_recognised true info_short "t"
              {[ "t/f" := [5] ]} never [false]) as [H1 H2].
  - split; [vm_compute; done.. | repeat constructor | reflexivity].
  - reflexivity.
  - vm_compute; reflexivity.
  - intros f Hf. apply list_elem_of_singleton in Hf as ->.
    exists [5]. split; reflexivity.
  - reflexivity.
  - split; [exact H1 | apply H2].
Defined.

End slots.
